(** * InvoiceEscrow: a shallow embedding of the escrow ledger

    Source: [smart-contracts/contracts/InvoiceEscrow.sol] (Solidity ^0.8.30).

    Conventions of the embedding.
    - [uint256] and [address] values are binary naturals ([N]).  Solidity 0.8
      arithmetic is checked: an overflowing [+], [*], [++] or an underflowing
      [-] aborts the call with a panic, which is what [checked_add],
      [checked_mul] and [checked_sub] do.
    - A Solidity [mapping] is a total map with an all-zero default, modelled
      as a function updated pointwise ([upd]).
    - A call runs in a state-and-error monad over a [World]: the contract
      storage, the balances kept by the chain and by the ERC20 tokens, and
      the trace of effects (storage writes, outbound transfers, events) in
      the order the code performs them.  A revert discards everything.
    - The inherited OpenZeppelin pieces ([Ownable], [Pausable],
      [ReentrancyGuard], [SafeERC20] over a standard ERC20 such as
      [MockERC20]) are modelled by their documented behaviour.  Outbound
      calls do not call back into the ledger in this model; what a callee
      could observe is the prefix of the trace before its call. *)

From Stdlib Require Import NArith Bool List String Lia FinFun.
Import ListNotations.

Local Open Scope string_scope.
Local Open Scope list_scope.
Local Open Scope N_scope.

(** ** Data model *)

Definition address := N.

Definition MAX_UINT256 : N := 2 ^ 256 - 1.

Definition PLATFORM_FEE_BPS : N := 50.
Definition MAX_PAYMENT_WINDOW : N := 90 * 86400.
Definition MIN_PAYMENT_WINDOW : N := 1 * 86400.
Definition MAX_EARLY_DISCOUNT_BPS : N := 1000.
Definition usdcAddressTestnet : address :=
  0x70730E92502A851011C5033F1432876049774239.

Inductive InvoiceStatus :=
| Created | Paid | Approved | Completed | Disputed | Cancelled | Refunded.

Definition status_eqb (a b : InvoiceStatus) : bool :=
  match a, b with
  | Created, Created | Paid, Paid | Approved, Approved
  | Completed, Completed | Disputed, Disputed
  | Cancelled, Cancelled | Refunded, Refunded => true
  | _, _ => false
  end.

Record PaymentTerms := mkTerms {
  paymentWindow : N;
  earlyPaymentDiscountBps : N;
  earlyPaymentDeadline : N;
  requiresApproval : bool;
  arbitrator : address
}.

Record Invoice := mkInvoice {
  id : N;
  provider : address;
  client : address;
  amount : N;
  token : address;
  terms : PaymentTerms;
  status : InvoiceStatus;
  createdAt : N;
  dueDate : N;
  paidAt : N;
  ipfsHash : string
}.

(** The value of a storage slot that was never written. *)
Definition zeroInvoice : Invoice :=
  mkInvoice 0 0 0 0 0 (mkTerms 0 0 0 false 0) Created 0 0 0 EmptyString.

Definition with_status (inv : Invoice) (s : InvoiceStatus) : Invoice :=
  mkInvoice (id inv) (provider inv) (client inv) (amount inv) (token inv)
            (terms inv) s (createdAt inv) (dueDate inv) (paidAt inv)
            (ipfsHash inv).

Definition with_paidAt (inv : Invoice) (t : N) : Invoice :=
  mkInvoice (id inv) (provider inv) (client inv) (amount inv) (token inv)
            (terms inv) (status inv) (createdAt inv) (dueDate inv) t
            (ipfsHash inv).

Inductive Event :=
| InvoiceCreated (invoiceId : N) (prov cli : address) (amt : N)
                 (tok : address) (hash : string)
| PaymentMade (invoiceId : N) (payer : address) (amt actualAmount : N)
              (earlyPayment : bool)
| InvoiceApproved (invoiceId : N) (approver : address)
| FundsReleased (invoiceId : N) (recipient : address) (amt platformFee : N)
| DisputeRaised (invoiceId : N) (initiator : address) (reason : string)
| DisputeResolved (invoiceId : N) (resolver : address) (favorProvider : bool)
| InvoiceCancelled (invoiceId : N) (canceller : address).

(** ** Contract storage *)

Record Storage := mkStorage {
  nextInvoiceId : N;
  feeCollector : address;
  supportedTokens : address -> bool;
  invoices : N -> Invoice;
  escrowBalances : N -> N;
  disputeReasons : N -> string;
  providerInvoices : address -> list N;
  clientInvoices : address -> list N;
  owner : address;          (* Ownable._owner *)
  paused : bool;            (* Pausable._paused *)
  entered : bool            (* ReentrancyGuard._status == ENTERED *)
}.

Definition upd {V : Type} (m : N -> V) (k : N) (v : V) : N -> V :=
  fun k' => if k' =? k then v else m k'.

(** One constructor per assignment form that occurs in the contract. *)
Inductive Assign :=
| W_nextInvoiceId (n : N)
| W_invoice (i : N) (inv : Invoice)
| W_providerInvoices_push (a : address) (i : N)
| W_clientInvoices_push (a : address) (i : N)
| W_escrowBalance (i v : N)
| W_status (i : N) (s : InvoiceStatus)
| W_paidAt (i t : N)
| W_disputeReason (i : N) (r : string)
| W_supportedToken (t : address) (b : bool)
| W_feeCollector (a : address)
| W_owner (a : address)
| W_paused (b : bool)
| W_entered (b : bool).

Definition apply_write (w : Assign) (s : Storage) : Storage :=
  match s with
  | mkStorage nxt fc sup invs esc rsn pidx cidx own psd ent =>
    match w with
    | W_nextInvoiceId n =>
        mkStorage n fc sup invs esc rsn pidx cidx own psd ent
    | W_invoice i inv =>
        mkStorage nxt fc sup (upd invs i inv) esc rsn pidx cidx own psd ent
    | W_providerInvoices_push a i =>
        mkStorage nxt fc sup invs esc rsn (upd pidx a (pidx a ++ [i])) cidx
                  own psd ent
    | W_clientInvoices_push a i =>
        mkStorage nxt fc sup invs esc rsn pidx (upd cidx a (cidx a ++ [i]))
                  own psd ent
    | W_escrowBalance i v =>
        mkStorage nxt fc sup invs (upd esc i v) rsn pidx cidx own psd ent
    | W_status i st =>
        mkStorage nxt fc sup (upd invs i (with_status (invs i) st)) esc rsn
                  pidx cidx own psd ent
    | W_paidAt i t =>
        mkStorage nxt fc sup (upd invs i (with_paidAt (invs i) t)) esc rsn
                  pidx cidx own psd ent
    | W_disputeReason i r =>
        mkStorage nxt fc sup invs esc (upd rsn i r) pidx cidx own psd ent
    | W_supportedToken t b =>
        mkStorage nxt fc (upd sup t b) invs esc rsn pidx cidx own psd ent
    | W_feeCollector a =>
        mkStorage nxt a sup invs esc rsn pidx cidx own psd ent
    | W_owner a =>
        mkStorage nxt fc sup invs esc rsn pidx cidx a psd ent
    | W_paused b =>
        mkStorage nxt fc sup invs esc rsn pidx cidx own b ent
    | W_entered b =>
        mkStorage nxt fc sup invs esc rsn pidx cidx own psd b
    end
  end.

(** ** The chain around the contract *)

Record Chain := mkChain {
  nativeBalance : address -> N;
  tokenBalance : address -> address -> N;     (* token, holder *)
  tokenAllowance : address -> address -> N;   (* token, holder: granted to the ledger *)
  acceptsNative : address -> bool             (* a plain transfer to it succeeds *)
}.

Inductive Effect :=
| Store (w : Assign)
| ValueIn (from : address) (v : N)              (* msg.value of a payable call *)
| NativeSend (to : address) (v : N)             (* to.transfer(v) *)
| TokenSend (tok to : address) (v : N)          (* IERC20(tok).safeTransfer(to, v) *)
| TokenPull (tok from : address) (v : N)        (* safeTransferFrom(from, this, v) *)
| Emit (e : Event).

Record World := mkWorld {
  this : address;            (* address(this) *)
  store : Storage;
  chain : Chain;
  trace : list Effect
}.

(** ** The call monad *)

Inductive Error :=
| Revert (msg : string)                   (* require(cond, msg) *)
| Panic                                   (* checked arithmetic *)
| EnforcedPause
| ExpectedPause
| ReentrancyGuardReentrantCall
| OwnableUnauthorizedAccount (a : address)
| OwnableInvalidOwner (a : address)
| NonPayable                              (* value sent to a non-payable function *)
| InsufficientValue                       (* the caller cannot fund msg.value *)
| NativeTransferFailed
| TokenTransferFailed (tok : address).

Inductive Result (A : Type) :=
| Ok (a : A)
| Err (e : Error).
Arguments Ok {A} a.
Arguments Err {A} e.

Definition M (A : Type) : Type := World -> Result (A * World).

Definition ret {A} (a : A) : M A := fun w => Ok (a, w).

Definition fail {A} (e : Error) : M A := fun _ => Err e.

Definition bind {A B} (m : M A) (f : A -> M B) : M B :=
  fun w => match m w with
           | Ok (a, w') => f a w'
           | Err e => Err e
           end.

Notation "x <- m ;; k" := (bind m (fun x => k))
  (at level 61, m at next level, right associativity).
Notation "m ;; k" := (bind m (fun _ => k))
  (at level 61, right associativity).

Definition require (b : bool) (msg : string) : M unit :=
  if b then ret tt else fail (Revert msg).

Definition get_store : M Storage := fun w => Ok (store w, w).

Definition sstore (x : Assign) : M unit :=
  fun w => Ok (tt, mkWorld (this w) (apply_write x (store w)) (chain w)
                           (trace w ++ [Store x])).

Definition emit (e : Event) : M unit :=
  fun w => Ok (tt, mkWorld (this w) (store w) (chain w) (trace w ++ [Emit e])).

Definition checked_add (a b : N) : M N :=
  if a + b <=? MAX_UINT256 then ret (a + b) else fail Panic.

Definition checked_sub (a b : N) : M N :=
  if b <=? a then ret (a - b) else fail Panic.

Definition checked_mul (a b : N) : M N :=
  if a * b <=? MAX_UINT256 then ret (a * b) else fail Panic.

(** *** Asset movements *)

Definition debit (bal : address -> N) (a : address) (v : N) : address -> N :=
  upd bal a (bal a - v).

Definition credit (bal : address -> N) (a : address) (v : N) : address -> N :=
  upd bal a (bal a + v).

(** [msg.value] moves from the caller to the ledger when a payable function
    is entered. *)
Definition receive_value (from : address) (v : N) : M unit :=
  fun w =>
    let c := chain w in
    if v <=? nativeBalance c from then
      Ok (tt, mkWorld (this w) (store w)
                (mkChain (credit (debit (nativeBalance c) from v) (this w) v)
                         (tokenBalance c) (tokenAllowance c) (acceptsNative c))
                (trace w ++ [ValueIn from v]))
    else Err InsufficientValue.

(** [payable(to).transfer(v)]: reverts when the ledger holds less than [v] or
    the recipient does not accept the payment. *)
Definition native_transfer (to : address) (v : N) : M unit :=
  fun w =>
    let c := chain w in
    if (v <=? nativeBalance c (this w)) && acceptsNative c to then
      Ok (tt, mkWorld (this w) (store w)
                (mkChain (credit (debit (nativeBalance c) (this w) v) to v)
                         (tokenBalance c) (tokenAllowance c) (acceptsNative c))
                (trace w ++ [NativeSend to v]))
    else Err NativeTransferFailed.

(** [IERC20(tok).safeTransfer(to, v)] against a standard ERC20. *)
Definition safeTransfer (tok to : address) (v : N) : M unit :=
  fun w =>
    let c := chain w in
    if negb (to =? 0) && (v <=? tokenBalance c tok (this w)) then
      Ok (tt, mkWorld (this w) (store w)
                (mkChain (nativeBalance c)
                         (upd (tokenBalance c) tok
                              (credit (debit (tokenBalance c tok) (this w) v) to v))
                         (tokenAllowance c) (acceptsNative c))
                (trace w ++ [TokenSend tok to v]))
    else Err (TokenTransferFailed tok).

(** [IERC20(tok).safeTransferFrom(from, address(this), v)]: needs allowance
    and balance; an allowance of [MAX_UINT256] is not consumed. *)
Definition safeTransferFrom (tok from : address) (v : N) : M unit :=
  fun w =>
    let c := chain w in
    if (v <=? tokenAllowance c tok from) && negb (from =? 0)
       && negb (this w =? 0) && (v <=? tokenBalance c tok from) then
      Ok (tt, mkWorld (this w) (store w)
                (mkChain (nativeBalance c)
                         (upd (tokenBalance c) tok
                              (credit (debit (tokenBalance c tok) from v) (this w) v))
                         (upd (tokenAllowance c) tok
                              (if tokenAllowance c tok from =? MAX_UINT256
                               then tokenAllowance c tok
                               else debit (tokenAllowance c tok) from v))
                         (acceptsNative c))
                (trace w ++ [TokenPull tok from v]))
    else Err (TokenTransferFailed tok).

(** ** Call context and modifiers *)

Record Msg := mkMsg {
  sender : address;        (* msg.sender *)
  value : N;               (* msg.value *)
  timestamp : N            (* block.timestamp *)
}.

Definition whenNotPaused : M unit :=
  s <- get_store ;;
  if paused s then fail EnforcedPause else ret tt.

Definition whenPaused : M unit :=
  s <- get_store ;;
  if paused s then ret tt else fail ExpectedPause.

Definition nonReentrant {A} (body : M A) : M A :=
  s <- get_store ;;
  (if entered s then fail ReentrancyGuardReentrantCall else ret tt) ;;
  sstore (W_entered true) ;;
  r <- body ;;
  sstore (W_entered false) ;;
  ret r.

Definition onlyOwner (m : Msg) : M unit :=
  s <- get_store ;;
  if owner s =? sender m then ret tt
  else fail (OwnableUnauthorizedAccount (sender m)).

Definition validInvoice (_invoiceId : N) : M unit :=
  s <- get_store ;;
  require (negb (id (invoices s _invoiceId) =? 0)) "Invoice does not exist".

Definition onlyProvider (m : Msg) (_invoiceId : N) : M unit :=
  s <- get_store ;;
  require (provider (invoices s _invoiceId) =? sender m)
          "Only provider can call this".

Definition onlyClient (m : Msg) (_invoiceId : N) : M unit :=
  s <- get_store ;;
  require (client (invoices s _invoiceId) =? sender m)
          "Only client can call this".

Definition onlyProviderOrClient (m : Msg) (_invoiceId : N) : M unit :=
  s <- get_store ;;
  require ((provider (invoices s _invoiceId) =? sender m)
           || (client (invoices s _invoiceId) =? sender m))
          "Only provider or client can call this".

(** ** Operations of the contract *)

(** [constructor(address _feeCollector) Ownable(msg.sender)] *)
Definition initialStorage (deployer _feeCollector : address) : Storage :=
  mkStorage 1 _feeCollector
            (upd (upd (fun _ => false) 0 true) usdcAddressTestnet true)
            (fun _ => zeroInvoice) (fun _ => 0) (fun _ => EmptyString)
            (fun _ => []) (fun _ => [])
            deployer false false.

Definition deploy (deployer self _feeCollector : address) (c : Chain)
  : Result World :=
  if deployer =? 0 then Err (OwnableInvalidOwner 0)
  else if _feeCollector =? 0 then Err (Revert "Invalid fee collector")
  else Ok (mkWorld self (initialStorage deployer _feeCollector) c []).

Definition createInvoice (m : Msg) (_client : address) (_amount : N)
           (_token : address) (_terms : PaymentTerms) (_ipfsHash : string)
  : M N :=
  whenNotPaused ;;
  nonReentrant (
    s <- get_store ;;
    require (negb (_client =? 0)) "Invalid client address" ;;
    require (negb (_client =? sender m))
            "Provider and client cannot be the same" ;;
    require (0 <? _amount) "Amount must be greater than 0" ;;
    require (supportedTokens s _token) "Token not supported" ;;
    require ((MIN_PAYMENT_WINDOW <=? paymentWindow _terms)
             && (paymentWindow _terms <=? MAX_PAYMENT_WINDOW))
            "Invalid payment window" ;;
    require (earlyPaymentDiscountBps _terms <=? MAX_EARLY_DISCOUNT_BPS)
            "Discount too high" ;;
    require (0 <? N.of_nat (String.length _ipfsHash)) "IPFS hash required" ;;
    let invoiceId := nextInvoiceId s in
    next <- checked_add (nextInvoiceId s) 1 ;;
    sstore (W_nextInvoiceId next) ;;
    dueDate_ <- checked_add (timestamp m) (paymentWindow _terms) ;;
    earlyDeadline <-
      (if 0 <? earlyPaymentDiscountBps _terms
       then checked_add (timestamp m) (paymentWindow _terms / 2)
       else ret 0) ;;
    let terms_ := mkTerms (paymentWindow _terms)
                          (earlyPaymentDiscountBps _terms)
                          earlyDeadline
                          (requiresApproval _terms)
                          (arbitrator _terms) in
    let invoice := mkInvoice invoiceId (sender m) _client _amount _token
                             terms_ Created (timestamp m) dueDate_ 0
                             _ipfsHash in
    sstore (W_invoice invoiceId invoice) ;;
    sstore (W_providerInvoices_push (sender m) invoiceId) ;;
    sstore (W_clientInvoices_push _client invoiceId) ;;
    emit (InvoiceCreated invoiceId (sender m) _client _amount _token
                         _ipfsHash) ;;
    ret invoiceId).

(** [_releaseFunds(uint256 _invoiceId) internal] *)
Definition _releaseFunds (_invoiceId : N) : M unit :=
  s <- get_store ;;
  let invoice := invoices s _invoiceId in
  require (status_eqb (status invoice) Approved) "Invoice not approved" ;;
  let escrowAmount := escrowBalances s _invoiceId in
  require (0 <? escrowAmount) "No funds in escrow" ;;
  scaled <- checked_mul escrowAmount PLATFORM_FEE_BPS ;;
  let platformFee := scaled / 10000 in
  providerAmount <- checked_sub escrowAmount platformFee ;;
  sstore (W_escrowBalance _invoiceId 0) ;;
  sstore (W_status _invoiceId Completed) ;;
  (if token invoice =? 0 then
     native_transfer (provider invoice) providerAmount ;;
     native_transfer (feeCollector s) platformFee
   else
     safeTransfer (token invoice) (provider invoice) providerAmount ;;
     safeTransfer (token invoice) (feeCollector s) platformFee) ;;
  emit (FundsReleased _invoiceId (provider invoice) providerAmount
                      platformFee).

(** [makePayment(uint256 _invoiceId) external payable] *)
Definition makePayment (m : Msg) (_invoiceId : N) : M unit :=
  whenNotPaused ;;
  nonReentrant (
    validInvoice _invoiceId ;;
    onlyClient m _invoiceId ;;
    s <- get_store ;;
    let invoice := invoices s _invoiceId in
    require (status_eqb (status invoice) Created) "Invoice cannot be paid" ;;
    require (timestamp m <=? dueDate invoice) "Invoice has expired" ;;
    pay <-
      (if (0 <? earlyPaymentDiscountBps (terms invoice))
          && (timestamp m <=? earlyPaymentDeadline (terms invoice))
       then
         scaled <- checked_mul (amount invoice)
                               (earlyPaymentDiscountBps (terms invoice)) ;;
         let discount := scaled / 10000 in
         paymentAmount <- checked_sub (amount invoice) discount ;;
         ret (paymentAmount, true)
       else ret (amount invoice, false)) ;;
    let paymentAmount := fst pay in
    let isEarlyPayment := snd pay in
    (if token invoice =? 0 then
       require (value m =? paymentAmount) "Incorrect payment amount"
     else
       require (value m =? 0) "Should not send ETH for token payment" ;;
       safeTransferFrom (token invoice) (sender m) paymentAmount) ;;
    sstore (W_escrowBalance _invoiceId paymentAmount) ;;
    sstore (W_status _invoiceId
                     (if requiresApproval (terms invoice)
                      then Paid else Approved)) ;;
    sstore (W_paidAt _invoiceId (timestamp m)) ;;
    emit (PaymentMade _invoiceId (sender m) (amount invoice) paymentAmount
                      isEarlyPayment) ;;
    (if negb (requiresApproval (terms invoice))
     then _releaseFunds _invoiceId
     else ret tt)).

(** [approveInvoice(uint256 _invoiceId) external] *)
Definition approveInvoice (m : Msg) (_invoiceId : N) : M unit :=
  whenNotPaused ;;
  validInvoice _invoiceId ;;
  onlyClient m _invoiceId ;;
  s <- get_store ;;
  let invoice := invoices s _invoiceId in
  require (status_eqb (status invoice) Paid) "Invoice not in paid status" ;;
  require (requiresApproval (terms invoice))
          "Invoice does not require approval" ;;
  sstore (W_status _invoiceId Approved) ;;
  emit (InvoiceApproved _invoiceId (sender m)) ;;
  _releaseFunds _invoiceId.

(** [raiseDispute(uint256 _invoiceId, string _reason) external] *)
Definition raiseDispute (m : Msg) (_invoiceId : N) (_reason : string)
  : M unit :=
  whenNotPaused ;;
  validInvoice _invoiceId ;;
  onlyProviderOrClient m _invoiceId ;;
  s <- get_store ;;
  let invoice := invoices s _invoiceId in
  require (status_eqb (status invoice) Paid
           || status_eqb (status invoice) Approved)
          "Cannot dispute invoice in current status" ;;
  require (0 <? N.of_nat (String.length _reason)) "Dispute reason required" ;;
  sstore (W_status _invoiceId Disputed) ;;
  sstore (W_disputeReason _invoiceId _reason) ;;
  emit (DisputeRaised _invoiceId (sender m) _reason).

(** [resolveDispute(uint256 _invoiceId, bool _favorProvider) external] *)
Definition resolveDispute (m : Msg) (_invoiceId : N) (_favorProvider : bool)
  : M unit :=
  whenNotPaused ;;
  validInvoice _invoiceId ;;
  s <- get_store ;;
  let invoice := invoices s _invoiceId in
  require (status_eqb (status invoice) Disputed) "Invoice not disputed" ;;
  require ((sender m =? arbitrator (terms invoice)) || (sender m =? owner s))
          "Only arbitrator can resolve dispute" ;;
  let escrowAmount := escrowBalances s _invoiceId in
  require (0 <? escrowAmount) "No funds in escrow" ;;
  sstore (W_escrowBalance _invoiceId 0) ;;
  (if _favorProvider then
     sstore (W_status _invoiceId Completed) ;;
     scaled <- checked_mul escrowAmount PLATFORM_FEE_BPS ;;
     let platformFee := scaled / 10000 in
     providerAmount <- checked_sub escrowAmount platformFee ;;
     (if token invoice =? 0 then
        native_transfer (provider invoice) providerAmount ;;
        native_transfer (feeCollector s) platformFee
      else
        safeTransfer (token invoice) (provider invoice) providerAmount ;;
        safeTransfer (token invoice) (feeCollector s) platformFee) ;;
     emit (FundsReleased _invoiceId (provider invoice) providerAmount
                         platformFee)
   else
     sstore (W_status _invoiceId Refunded) ;;
     (if token invoice =? 0 then
        native_transfer (client invoice) escrowAmount
      else
        safeTransfer (token invoice) (client invoice) escrowAmount)) ;;
  emit (DisputeResolved _invoiceId (sender m) _favorProvider).

(** [cancelInvoice(uint256 _invoiceId) external] *)
Definition cancelInvoice (m : Msg) (_invoiceId : N) : M unit :=
  whenNotPaused ;;
  validInvoice _invoiceId ;;
  onlyProvider m _invoiceId ;;
  s <- get_store ;;
  let invoice := invoices s _invoiceId in
  require (status_eqb (status invoice) Created)
          "Can only cancel unpaid invoices" ;;
  sstore (W_status _invoiceId Cancelled) ;;
  emit (InvoiceCancelled _invoiceId (sender m)).

(** *** Administrative functions *)

Definition addSupportedToken (m : Msg) (_token : address) : M unit :=
  onlyOwner m ;; sstore (W_supportedToken _token true).

Definition removeSupportedToken (m : Msg) (_token : address) : M unit :=
  onlyOwner m ;; sstore (W_supportedToken _token false).

Definition setFeeCollector (m : Msg) (_feeCollector : address) : M unit :=
  onlyOwner m ;;
  require (negb (_feeCollector =? 0)) "Invalid fee collector" ;;
  sstore (W_feeCollector _feeCollector).

Definition pause (m : Msg) : M unit :=
  onlyOwner m ;; whenNotPaused ;; sstore (W_paused true).

Definition unpause (m : Msg) : M unit :=
  onlyOwner m ;; whenPaused ;; sstore (W_paused false).

(** [emergencyWithdraw(address _token, uint256 _amount) external onlyOwner] *)
Definition emergencyWithdraw (m : Msg) (_token : address) (_amount : N)
  : M unit :=
  onlyOwner m ;;
  s <- get_store ;;
  if _token =? 0 then native_transfer (owner s) _amount
  else safeTransfer _token (owner s) _amount.

(** Inherited from [Ownable]. *)
Definition transferOwnership (m : Msg) (newOwner : address) : M unit :=
  onlyOwner m ;;
  (if newOwner =? 0 then fail (OwnableInvalidOwner 0) else ret tt) ;;
  sstore (W_owner newOwner).

Definition renounceOwnership (m : Msg) : M unit :=
  onlyOwner m ;; sstore (W_owner 0).

(** ** Transactions *)

Inductive Call :=
| CreateInvoice (_client : address) (_amount : N) (_token : address)
                (_terms : PaymentTerms) (_ipfsHash : string)
| MakePayment (_invoiceId : N)
| ApproveInvoice (_invoiceId : N)
| RaiseDispute (_invoiceId : N) (_reason : string)
| ResolveDispute (_invoiceId : N) (_favorProvider : bool)
| CancelInvoice (_invoiceId : N)
| AddSupportedToken (_token : address)
| RemoveSupportedToken (_token : address)
| SetFeeCollector (_feeCollector : address)
| Pause
| Unpause
| EmergencyWithdraw (_token : address) (_amount : N)
| TransferOwnership (newOwner : address)
| RenounceOwnership.

Definition nonPayable (m : Msg) : M unit :=
  if value m =? 0 then ret tt else fail NonPayable.

(** The external function a call selects. *)
Definition invoke (m : Msg) (c : Call) : M unit :=
  match c with
  | CreateInvoice cl a t tm h => _ <- createInvoice m cl a t tm h ;; ret tt
  | MakePayment i => makePayment m i
  | ApproveInvoice i => approveInvoice m i
  | RaiseDispute i r => raiseDispute m i r
  | ResolveDispute i f => resolveDispute m i f
  | CancelInvoice i => cancelInvoice m i
  | AddSupportedToken t => addSupportedToken m t
  | RemoveSupportedToken t => removeSupportedToken m t
  | SetFeeCollector a => setFeeCollector m a
  | Pause => pause m
  | Unpause => unpause m
  | EmergencyWithdraw t a => emergencyWithdraw m t a
  | TransferOwnership a => transferOwnership m a
  | RenounceOwnership => renounceOwnership m
  end.

(** Only [makePayment] is payable. *)
Definition payable (c : Call) : bool :=
  match c with
  | MakePayment _ => true
  | _ => false
  end.

(** A payable function receives [msg.value] on entry; every other function
    rejects a call that carries value. *)
Definition dispatch (m : Msg) (c : Call) : M unit :=
  (if payable c then receive_value (sender m) (value m) else nonPayable m) ;;
  invoke m c.

(** The world a run leaves behind: the one it produced or, on a revert, the
    one it started from. *)
Definition after {A} (run : M A) (w : World) : World :=
  match run w with
  | Ok (_, w') => w'
  | Err _ => w
  end.

(** A transaction either commits the world its call produced or, on a
    revert, leaves the world as it was. *)
Definition exec (m : Msg) (c : Call) (w : World) : World :=
  after (dispatch m c) w.

(** What the ledger holds of an asset. *)
Definition held (w : World) (tok : address) : N :=
  if tok =? 0 then nativeBalance (chain w) (this w)
  else tokenBalance (chain w) tok (this w).

Definition with_chain (w : World) (c : Chain) : World :=
  mkWorld (this w) (store w) c (trace w).

(** Between transactions the rest of the chain may move assets around.  It
    cannot spend the native asset of the ledger, which only the ledger's own
    code sends; what a token reports as the balance of the ledger is up to
    the token contract. *)
Definition env_step_ok (w : World) (c : Chain) : Prop :=
  nativeBalance (chain w) (this w) <= nativeBalance c (this w).

Inductive reachable_by (allowed : Call -> Prop) : World -> Prop :=
| reach_deploy : forall deployer self _feeCollector c w,
    deploy deployer self _feeCollector c = Ok w ->
    reachable_by allowed w
| reach_call : forall w m c,
    reachable_by allowed w ->
    allowed c ->
    sender m <> this w ->
    reachable_by allowed (exec m c w)
| reach_env : forall w c,
    reachable_by allowed w ->
    env_step_ok w c ->
    reachable_by allowed (with_chain w c).

Definition reachable : World -> Prop := reachable_by (fun _ => True).

(** ** Observations used by the properties *)

(** Statuses in which an invoice holds funds. *)
Definition holds_funds (s : InvoiceStatus) : bool :=
  match s with
  | Paid | Approved | Disputed => true
  | _ => false
  end.

(** The states without outgoing transition. *)
Definition terminal (s : InvoiceStatus) : bool :=
  match s with
  | Completed | Cancelled | Refunded => true
  | _ => false
  end.

(** The [require] messages by which a lifecycle function rejects the
    status of the invoice it is applied to. *)
Definition state_error (e : Error) : bool :=
  match e with
  | Revert msg =>
      existsb (String.eqb msg)
        [ "Invoice cannot be paid";
          "Invoice not in paid status";
          "Cannot dispute invoice in current status";
          "Invoice not disputed";
          "Can only cancel unpaid invoices";
          "Invoice not approved" ]
  | _ => false
  end.

Definition is_lifecycle_on (i : N) (c : Call) : bool :=
  match c with
  | MakePayment j | ApproveInvoice j | RaiseDispute j _
  | ResolveDispute j _ | CancelInvoice j => j =? i
  | _ => false
  end.

(** The caller passes the role check that the function performs before it
    looks at the status ([resolveDispute] looks at the status first). *)
Definition has_role (m : Msg) (inv : Invoice) (c : Call) : bool :=
  match c with
  | MakePayment _ | ApproveInvoice _ => client inv =? sender m
  | RaiseDispute _ _ => (provider inv =? sender m) || (client inv =? sender m)
  | CancelInvoice _ => provider inv =? sender m
  | _ => true
  end.

Definition is_emergencyWithdraw (c : Call) : bool :=
  match c with
  | EmergencyWithdraw _ _ => true
  | _ => false
  end.

(** Ids handed out so far: [1 .. nextInvoiceId - 1]. *)
Definition invoiceIds (s : Storage) : list N :=
  map N.of_nat (seq 1 (N.to_nat (nextInvoiceId s) - 1)).

Definition sumN (l : list N) : N := fold_right N.add 0 l.

(** Sum of the escrow balances of the invoices denominated in [tok]. *)
Definition escrowed (s : Storage) (tok : address) : N :=
  sumN (map (fun i => if token (invoices s i) =? tok
                      then escrowBalances s i else 0)
            (invoiceIds s)).

Definition covered (w : World) : Prop :=
  forall tok, escrowed (store w) tok <= held w tok.

(** A call spares the escrow unless it is an [emergencyWithdraw] of more
    than the ledger holds of the token beyond its escrowed total. *)
Definition spares_escrow (w : World) (c : Call) : Prop :=
  forall tok amt, c = EmergencyWithdraw tok amt ->
                  amt + escrowed (store w) tok <= held w tok.

(** An environment step keeps the tokens when no token contract lowers the
    balance it reports for the ledger.  A standard ERC20 moves a balance only
    on a transfer by the holder or under an allowance of the holder, and the
    ledger grants none; a token whose owner can burn from any account, like
    [MockERC20], can lower it. *)
Definition keeps_tokens (w : World) (c : Chain) : Prop :=
  forall tok, tokenBalance (chain w) tok (this w)
              <= tokenBalance c tok (this w).

(** The states reached from deployment by calls that spare the escrow,
    with tokens that keep the balance of the ledger. *)
Inductive reachable_sparing : World -> Prop :=
| spare_deploy : forall deployer self _feeCollector c w,
    deploy deployer self _feeCollector c = Ok w ->
    reachable_sparing w
| spare_call : forall w m c,
    reachable_sparing w ->
    sender m <> this w ->
    spares_escrow w c ->
    reachable_sparing (exec m c w)
| spare_env : forall w c,
    reachable_sparing w ->
    env_step_ok w c ->
    keeps_tokens w c ->
    reachable_sparing (with_chain w c).

(** The states a ledger went through since its deployment, one per
    transaction or environment step, the latest first. *)
Inductive history : list World -> Prop :=
| hist_deploy : forall deployer self _feeCollector c w,
    deploy deployer self _feeCollector c = Ok w ->
    history [w]
| hist_call : forall w h m c,
    history (w :: h) ->
    sender m <> this w ->
    history (exec m c w :: w :: h)
| hist_env : forall w h c,
    history (w :: h) ->
    env_step_ok w c ->
    history (with_chain w c :: w :: h).

(** What holds of the storage whenever no call is running. *)
Record Consistent (s : Storage) : Prop := mkConsistent {
  cons_entered : entered s = false;
  cons_next : 1 <= nextInvoiceId s;
  cons_ids : forall j, id (invoices s j) <> 0 ->
                       id (invoices s j) = j /\ j < nextInvoiceId s;
  cons_fresh : forall j, id (invoices s j) = 0 ->
                         status (invoices s j) = Created;
  cons_terms : forall j, id (invoices s j) <> 0 ->
                         0 < amount (invoices s j) /\
                         earlyPaymentDiscountBps (terms (invoices s j))
                           <= MAX_EARLY_DISCOUNT_BPS;
  cons_unfunded : forall j, holds_funds (status (invoices s j)) = false ->
                            escrowBalances s j = 0;
  cons_funded : forall j, holds_funds (status (invoices s j)) = true ->
                          0 < escrowBalances s j;
  cons_not_approved : forall j, status (invoices s j) <> Approved;
  cons_reason : forall j, disputeReasons s j <> EmptyString ->
                          status (invoices s j) = Disputed \/
                          status (invoices s j) = Completed \/
                          status (invoices s j) = Refunded;
  cons_disputed : forall j, status (invoices s j) = Disputed ->
                            disputeReasons s j <> EmptyString
}.

(** ** A concrete run

    Deployer 10, fee collector 11, arbitrator 12, provider 20, client 21,
    a bystander 22; the ledger lives at address 99.  Every account starts
    with 5000 units of the native asset, so the ledger holds 5000 units that
    belong to no invoice. *)
Module Scenario.

Definition chain0 : Chain :=
  mkChain (fun _ => 5000) (fun _ _ => 5000) (fun _ _ => 0) (fun _ => true).

Definition genesis : World := mkWorld 99 (initialStorage 10 11) chain0 [].

Definition month : N := 30 * 86400.

(** Invoice 1: 1000 native units, 5% early discount, no approval step. *)
Definition terms1 : PaymentTerms := mkTerms month 500 0 false 12.
(** Invoice 2: 1000 native units, no discount, approval required. *)
Definition terms2 : PaymentTerms := mkTerms month 0 0 true 12.

Definition created1 : World :=
  exec (mkMsg 20 0 1000) (CreateInvoice 21 1000 0 terms1 "Qm1") genesis.
Definition created2 : World :=
  exec (mkMsg 20 0 1000) (CreateInvoice 21 1000 0 terms2 "Qm2") created1.
(** Invoice 1 is paid early and settles in the same call. *)
Definition settled1 : World :=
  exec (mkMsg 21 950 2000) (MakePayment 1) created2.
(** Invoice 2 is paid and waits for approval. *)
Definition paid2 : World :=
  exec (mkMsg 21 1000 2000) (MakePayment 2) settled1.
Definition disputed2 : World :=
  exec (mkMsg 20 0 3000) (RaiseDispute 2 "late delivery") paid2.
Definition resolved2 : World :=
  exec (mkMsg 12 0 4000) (ResolveDispute 2 true) disputed2.
Definition refunded2 : World :=
  exec (mkMsg 12 0 4000) (ResolveDispute 2 false) disputed2.
(** The owner withdraws everything the ledger holds while invoice 2 is
    still in escrow. *)
Definition drained : World :=
  exec (mkMsg 10 0 2500) (EmergencyWithdraw 0 6000) paid2.
(** The owner withdraws the 5000 units that belong to no invoice. *)
Definition recovered : World :=
  exec (mkMsg 10 0 2500) (EmergencyWithdraw 0 5000) paid2.
(** Invoice 2 in the middle of [approveInvoice], just before settlement. *)
Definition approving2 : World :=
  mkWorld (this paid2) (apply_write (W_status 2 Approved) (store paid2))
          (chain paid2) (trace paid2).

Definition released2 : World := after (_releaseFunds 2) approving2.

End Scenario.

(** ** Further observations *)

(** The edges of the lifecycle as they show between two transactions. *)
Definition transition (a b : InvoiceStatus) : bool :=
  match a, b with
  | Created, Paid | Created, Completed | Created, Cancelled
  | Paid, Completed | Paid, Disputed
  | Disputed, Completed | Disputed, Refunded => true
  | _, _ => false
  end.

(** The view functions. *)
Definition getInvoice (w : World) (_invoiceId : N) : Invoice :=
  invoices (store w) _invoiceId.

Definition getProviderInvoices (w : World) (_provider : address) : list N :=
  providerInvoices (store w) _provider.

Definition getClientInvoices (w : World) (_client : address) : list N :=
  clientInvoices (store w) _client.

Definition getEscrowBalance (w : World) (_invoiceId : N) : N :=
  escrowBalances (store w) _invoiceId.

Definition getDisputeReason (w : World) (_invoiceId : N) : string :=
  disputeReasons (store w) _invoiceId.

(** The user-facing functions, all of which carry [whenNotPaused]. *)
Definition is_user_call (c : Call) : bool :=
  match c with
  | CreateInvoice _ _ _ _ _ | MakePayment _ | ApproveInvoice _
  | RaiseDispute _ _ | ResolveDispute _ _ | CancelInvoice _ => true
  | _ => false
  end.

(** The functions behind [onlyOwner]. *)
Definition is_owner_call (c : Call) : bool :=
  match c with
  | AddSupportedToken _ | RemoveSupportedToken _ | SetFeeCollector _
  | Pause | Unpause | EmergencyWithdraw _ _
  | TransferOwnership _ | RenounceOwnership => true
  | _ => false
  end.

(** What every stored invoice satisfies whenever no call is running, on top
    of [Consistent]. *)
Record WellFormed (s : Storage) : Prop := mkWellFormed {
  wf_feeCollector : feeCollector s <> 0;
  wf_known : forall j, 1 <= j < nextInvoiceId s -> id (invoices s j) = j;
  wf_unknown : forall j, id (invoices s j) = 0 -> invoices s j = zeroInvoice;
  wf_parties : forall j, id (invoices s j) <> 0 ->
                 client (invoices s j) <> 0 /\
                 provider (invoices s j) <> client (invoices s j);
  wf_window : forall j, id (invoices s j) <> 0 ->
                MIN_PAYMENT_WINDOW <= paymentWindow (terms (invoices s j))
                  <= MAX_PAYMENT_WINDOW /\
                dueDate (invoices s j)
                = createdAt (invoices s j)
                  + paymentWindow (terms (invoices s j)) /\
                earlyPaymentDeadline (terms (invoices s j))
                = (if 0 <? earlyPaymentDiscountBps (terms (invoices s j))
                   then createdAt (invoices s j)
                        + paymentWindow (terms (invoices s j)) / 2
                   else 0) /\
                ipfsHash (invoices s j) <> EmptyString;
  wf_paidAt : forall j,
                paidAt (invoices s j) <= dueDate (invoices s j) /\
                (status (invoices s j) = Created \/
                 status (invoices s j) = Cancelled ->
                 paidAt (invoices s j) = 0);
  wf_escrow : forall j,
                escrowBalances s j <= amount (invoices s j) /\
                (holds_funds (status (invoices s j)) = true ->
                 amount (invoices s j) * 9 <= escrowBalances s j * 10);
  wf_approval : forall j,
                  status (invoices s j) = Paid \/
                  status (invoices s j) = Disputed \/
                  status (invoices s j) = Refunded ->
                  requiresApproval (terms (invoices s j)) = true
}.

(** The two indices list exactly the invoices of a provider and of a
    client, each once. *)
Record Indexed (s : Storage) : Prop := mkIndexed {
  idx_provider : forall a j,
    In j (providerInvoices s a) <->
    id (invoices s j) <> 0 /\ provider (invoices s j) = a;
  idx_client : forall a j,
    In j (clientInvoices s a) <->
    id (invoices s j) <> 0 /\ client (invoices s j) = a;
  idx_provider_NoDup : forall a, NoDup (providerInvoices s a);
  idx_client_NoDup : forall a, NoDup (clientInvoices s a)
}.

(** ** A run at the edge of the number range

    Every account holds [MAX_UINT256] native units.  Invoice 1 has the
    largest amount and a 10% discount; invoice 2 has the largest amount, no
    discount and an approval step, and is paid in full. *)
Module Edge.

Definition rich : Chain :=
  mkChain (fun _ => MAX_UINT256) (fun _ _ => 0) (fun _ _ => 0)
          (fun _ => true).

Definition genesis : World := mkWorld 99 (initialStorage 10 11) rich [].

Definition created1 : World :=
  exec (mkMsg 20 0 1000)
       (CreateInvoice 21 MAX_UINT256 0
          (mkTerms Scenario.month 1000 0 true 12) "Qm1")
       genesis.

Definition created2 : World :=
  exec (mkMsg 20 0 1000)
       (CreateInvoice 21 MAX_UINT256 0
          (mkTerms Scenario.month 0 0 true 12) "Qm2")
       created1.

Definition paid2 : World :=
  exec (mkMsg 21 MAX_UINT256 2000) (MakePayment 2) created2.

End Edge.

(** The fee collector of a ledger, under a name that the factory's own
    [feeCollector] does not hide. *)
Definition ledgerFeeCollector (s : Storage) : address := feeCollector s.

(** ** The factory

    Source: [InvoiceFactory] ([smart-contracts/contracts], the wrapper that
    deploys escrow ledgers and forwards [createInvoice] to the main one).
    The factory and the ledgers it deployed share one chain; a ledger is
    kept by its address, and the address of a new contract is given by the
    chain (a parameter here, which the model requires to be unused). *)
Module InvoiceFactory.

Inductive FactoryEvent :=
| InvoiceContractDeployed (contractAddress prov : address) (invoiceId : N)
| InvoiceCreatedViaFactory (contractAddress : address) (invoiceId : N)
                           (prov cli : address).

Record FactoryStorage := mkFactoryStorage {
  mainEscrowContract : address;
  feeCollector : address;
  totalInvoicesCreated : N;
  isValidInvoiceContract : address -> bool;
  userInvoices : address -> list N;
  invoiceToContract : N -> address;
  allInvoiceContracts : list address
}.

Record Platform := mkPlatform {
  factoryAddress : address;               (* address(this) of the factory *)
  fstore : FactoryStorage;
  escrowAt : address -> option Storage;   (* the ledgers it deployed *)
  ledgerChain : Chain;
  effects : list Effect;                  (* effects of the ledgers *)
  fevents : list FactoryEvent
}.

(** The world of the ledger at [a], when there is one. *)
Definition worldAt (p : Platform) (a : address) : option World :=
  match escrowAt p a with
  | Some s => Some (mkWorld a s (ledgerChain p) (effects p))
  | None => None
  end.

(** Writes a ledger's world back into the platform. *)
Definition with_world (p : Platform) (f : FactoryStorage)
           (ev : list FactoryEvent) (w : World) : Platform :=
  mkPlatform (factoryAddress p) f
             (upd (escrowAt p) (this w) (Some (store w)))
             (chain w) (trace w) (fevents p ++ ev).

(** [constructor(address _feeCollector)]: deploys the main ledger, with the
    factory as the caller of its constructor. *)
Definition construct (self main _feeCollector : address) (c : Chain)
  : Result Platform :=
  if _feeCollector =? 0 then Err (Revert "Invalid fee collector")
  else
    match deploy self main _feeCollector c with
    | Err e => Err e
    | Ok w =>
        Ok (mkPlatform self
              (mkFactoryStorage main _feeCollector 0
                 (upd (fun _ => false) main true)
                 (fun _ => []) (fun _ => 0) [main])
              (upd (fun _ => None) main (Some (store w)))
              (chain w) (trace w)
              [InvoiceContractDeployed main self 0])
    end.

(** [createInvoice(...) external returns (uint256)]: the factory calls the
    main ledger, so the ledger sees the factory as [msg.sender]. *)
Definition createInvoice (m : Msg) (_client : address) (_amount : N)
           (_token : address) (_terms : PaymentTerms) (_ipfsHash : string)
           (p : Platform) : Result (N * Platform) :=
  let f := fstore p in
  match worldAt p (mainEscrowContract f) with
  | None => Err (Revert EmptyString)
  | Some w =>
      match createInvoice (mkMsg (factoryAddress p) 0 (timestamp m))
                          _client _amount _token _terms _ipfsHash w with
      | Err e => Err e
      | Ok (invoiceId, w') =>
          if totalInvoicesCreated f + 1 <=? MAX_UINT256 then
            Ok (invoiceId,
                with_world p
                  (mkFactoryStorage
                     (mainEscrowContract f) (feeCollector f)
                     (totalInvoicesCreated f + 1)
                     (isValidInvoiceContract f)
                     (upd (userInvoices f) (sender m)
                          (userInvoices f (sender m) ++ [invoiceId]))
                     (upd (invoiceToContract f) invoiceId
                          (mainEscrowContract f))
                     (allInvoiceContracts f))
                  [InvoiceCreatedViaFactory (mainEscrowContract f) invoiceId
                                            (sender m) _client]
                  w')
          else Err Panic
      end
  end.

(** [deployNewInvoiceContract() external returns (address)] *)
Definition deployNewInvoiceContract (m : Msg) (fresh : address)
           (p : Platform) : Result (address * Platform) :=
  let f := fstore p in
  match escrowAt p fresh with
  | Some _ => Err (Revert EmptyString)
  | None =>
      match deploy (factoryAddress p) fresh (feeCollector f)
                   (ledgerChain p) with
      | Err e => Err e
      | Ok w =>
          Ok (fresh,
              mkPlatform (factoryAddress p)
                (mkFactoryStorage
                   (mainEscrowContract f) (feeCollector f)
                   (totalInvoicesCreated f)
                   (upd (isValidInvoiceContract f) fresh true)
                   (userInvoices f) (invoiceToContract f)
                   (allInvoiceContracts f ++ [fresh]))
                (upd (escrowAt p) fresh (Some (store w)))
                (ledgerChain p) (effects p)
                (fevents p ++ [InvoiceContractDeployed fresh (sender m) 0]))
      end
  end.

(** The views. *)
Definition getUserInvoices (p : Platform) (_user : address) : list N :=
  userInvoices (fstore p) _user.

Definition getInvoiceContract (p : Platform) (_invoiceId : N) : address :=
  invoiceToContract (fstore p) _invoiceId.

Definition getContractCount (p : Platform) : N :=
  N.of_nat (List.length (allInvoiceContracts (fstore p))).

Definition getPlatformStats (p : Platform) : N * N * address :=
  (N.of_nat (List.length (allInvoiceContracts (fstore p))),
   totalInvoicesCreated (fstore p),
   mainEscrowContract (fstore p)).

Definition isValidContract (p : Platform) (_contract : address) : bool :=
  isValidInvoiceContract (fstore p) _contract.

(** A user calls a deployed ledger directly. *)
Definition callEscrow (m : Msg) (a : address) (c : Call) (p : Platform)
  : Platform :=
  match worldAt p a with
  | None => p
  | Some w => with_world p (fstore p) [] (exec m c w)
  end.

(** A transaction on the factory commits the platform it produced or, on
    a revert, leaves the platform as it was. *)
Definition committed {A} (r : Result (A * Platform)) (p : Platform)
  : Platform :=
  match r with
  | Ok (_, p') => p'
  | Err _ => p
  end.

(** The platform as its users can drive it: through the factory, or by
    calling a ledger themselves. *)
Inductive platform_reachable : Platform -> Prop :=
| reach_construct : forall self main fc c p,
    construct self main fc c = Ok p ->
    platform_reachable p
| reach_create : forall p m cl a t tm h i p',
    platform_reachable p ->
    createInvoice m cl a t tm h p = Ok (i, p') ->
    platform_reachable p'
| reach_deployNew : forall p m fresh a p',
    platform_reachable p ->
    deployNewInvoiceContract m fresh p = Ok (a, p') ->
    platform_reachable p'
| reach_callEscrow : forall p m a c,
    platform_reachable p ->
    sender m <> factoryAddress p ->
    platform_reachable (callEscrow m a c p).

(** What holds of every ledger of the platform. *)
Record Managed (p : Platform) : Prop := mkManaged {
  man_main : escrowAt p (mainEscrowContract (fstore p)) <> None;
  man_owner : forall a s, escrowAt p a = Some s ->
                          owner s = factoryAddress p;
  man_unpaused : forall a s, escrowAt p a = Some s -> paused s = false;
  man_collector : forall a s,
      escrowAt p a = Some s ->
      ledgerFeeCollector s = feeCollector (fstore p);
  man_tokens : forall a s t,
      escrowAt p a = Some s ->
      supportedTokens s t = (t =? usdcAddressTestnet) || (t =? 0);
  man_consistent : forall a s, escrowAt p a = Some s -> Consistent s;
  man_valid : forall a, isValidInvoiceContract (fstore p) a = true <->
                        escrowAt p a <> None;
  man_listed : forall a, In a (allInvoiceContracts (fstore p)) <->
                         escrowAt p a <> None;
  man_distinct : NoDup (allInvoiceContracts (fstore p));
  man_tracked : forall u i,
      In i (userInvoices (fstore p) u) ->
      invoiceToContract (fstore p) i = mainEscrowContract (fstore p) /\
      exists s, escrowAt p (mainEscrowContract (fstore p)) = Some s /\
                id (invoices s i) = i /\ i <> 0 /\
                provider (invoices s i) = factoryAddress p /\
                status (invoices s i) <> Cancelled
}.

End InvoiceFactory.

(** A run of the platform: the factory lives at address 50 and deploys its
    main ledger at 99; user 20 invoices client 21 through the factory,
    user 22 has a second ledger deployed at 98, and the client pays the
    invoice on the main ledger.  None of the three contracts has a
    [receive] function. *)
Module FactoryScenario.

Definition chain0 : Chain :=
  mkChain (fun _ => 5000) (fun _ _ => 5000) (fun _ _ => 0)
          (fun a => negb ((a =? 50) || (a =? 98) || (a =? 99))).

Definition genesis : InvoiceFactory.Platform :=
  InvoiceFactory.mkPlatform 50
    (InvoiceFactory.mkFactoryStorage 99 11 0
       (upd (fun _ => false) 99 true) (fun _ => []) (fun _ => 0) [99])
    (upd (fun _ => None) 99 (Some (initialStorage 50 11)))
    chain0 []
    [InvoiceFactory.InvoiceContractDeployed 99 50 0].

Definition created1 : InvoiceFactory.Platform :=
  InvoiceFactory.committed
    (InvoiceFactory.createInvoice (mkMsg 20 0 1000) 21 1000 0
                                  Scenario.terms2 "Qm1" genesis)
    genesis.

Definition second : InvoiceFactory.Platform :=
  InvoiceFactory.committed
    (InvoiceFactory.deployNewInvoiceContract (mkMsg 22 0 1500) 98 created1)
    created1.

Definition paid1 : InvoiceFactory.Platform :=
  InvoiceFactory.callEscrow (mkMsg 21 1000 2000) 99 (MakePayment 1) second.

End FactoryScenario.
(** ** Reasoning about runs *)

Lemma status_eqb_eq (a b : InvoiceStatus) : status_eqb a b = true <-> a = b.
Proof. destruct a, b; simpl; split; congruence. Qed.

Lemma upd_same {V} (m : N -> V) k v : upd m k v k = v.
Proof. unfold upd. now rewrite N.eqb_refl. Qed.

Lemma upd_other {V} (m : N -> V) k v k' : k' <> k -> upd m k v k' = m k'.
Proof. unfold upd. intros H. apply N.eqb_neq in H. now rewrite H. Qed.

(** A share expressed in basis points never exceeds the whole. *)
Lemma bps_share_le (a bps : N) : bps <= 10000 -> a * bps / 10000 <= a.
Proof.
  intros H. apply N.Div0.div_le_upper_bound.
  rewrite (N.mul_comm 10000 a). now apply N.mul_le_mono_l.
Qed.

(** Unfolds one call down to its tests: every monadic combinator, modifier
    and primitive is expanded, arithmetic and comparisons are left alone. *)
Ltac expand_in H :=
  cbv beta iota zeta delta
    [bind ret fail require get_store sstore emit
     checked_add checked_sub checked_mul
     receive_value native_transfer safeTransfer safeTransferFrom
     whenNotPaused whenPaused nonReentrant onlyOwner validInvoice
     onlyProvider onlyClient onlyProviderOrClient nonPayable
     store this chain trace apply_write
     nextInvoiceId feeCollector supportedTokens invoices escrowBalances
     disputeReasons providerInvoices clientInvoices owner paused entered
     nativeBalance tokenBalance tokenAllowance acceptsNative
     sender value timestamp fst snd] in H;
  cbn [with_status with_paidAt id provider client amount token terms status
       createdAt dueDate paidAt ipfsHash paymentWindow
       earlyPaymentDiscountBps earlyPaymentDeadline requiresApproval
       arbitrator] in H.

Ltac expand_goal :=
  cbv beta iota zeta delta
    [store this chain trace apply_write
     nextInvoiceId feeCollector supportedTokens invoices escrowBalances
     disputeReasons providerInvoices clientInvoices owner paused entered
     nativeBalance tokenBalance tokenAllowance acceptsNative
     sender value timestamp fst snd];
  cbn [with_status with_paidAt id provider client amount token terms status
       createdAt dueDate paidAt ipfsHash paymentWindow
       earlyPaymentDiscountBps earlyPaymentDeadline requiresApproval
       arbitrator].

(** Case analysis on the tests of an expanded run that is known to succeed:
    the failing side of each test is discarded. *)
Ltac split_run H :=
  repeat (
    expand_in H;
    rewrite ?upd_same in H;
    match type of H with
    | context [match ?c with _ => _ end] =>
        lazymatch c with
        | context [match _ with _ => _ end] => fail
        | _ => destruct c eqn:?; try discriminate H
        end
    end).

Ltac expand_all :=
  cbn [store this chain trace
       nextInvoiceId feeCollector supportedTokens invoices escrowBalances
       disputeReasons providerInvoices clientInvoices owner paused entered
       nativeBalance tokenBalance tokenAllowance acceptsNative
       sender value timestamp fst snd
       with_status with_paidAt id provider client amount token terms status
       createdAt dueDate paidAt ipfsHash paymentWindow
       earlyPaymentDiscountBps earlyPaymentDeadline requiresApproval
       arbitrator] in *.

Ltac open_world w :=
  let self := fresh "self" in
  let s := fresh "s" in
  let ch := fresh "ch" in
  let tr := fresh "tr" in
  destruct w as [self s ch tr]; destruct s.

(** * Settlement *)

(** C1. Every successful run of the internal fund-release path computes
    [platformFee = floor(escrowBalance * 50 / 10000)] and
    [providerAmount = escrowBalance - platformFee], so that the two add up to
    the escrow balance exactly; the effects it adds to the trace are, in this
    order, the zeroing of the escrow balance, the status flip to [Completed],
    the two outbound transfers and the release event. *)
Theorem releaseFunds_fee_split_and_order (i : N) (w w' : World) :
  _releaseFunds i w = Ok (tt, w') ->
  let inv := invoices (store w) i in
  let e := escrowBalances (store w) i in
  let platformFee := e * 50 / 10000 in
  let providerAmount := e - platformFee in
  status inv = Approved /\ 0 < e /\
  providerAmount + platformFee = e /\
  trace w' = trace w ++
    [ Store (W_escrowBalance i 0);
      Store (W_status i Completed);
      (if token inv =? 0 then NativeSend (provider inv) providerAmount
       else TokenSend (token inv) (provider inv) providerAmount);
      (if token inv =? 0 then NativeSend (feeCollector (store w)) platformFee
       else TokenSend (token inv) (feeCollector (store w)) platformFee);
      Emit (FundsReleased i (provider inv) providerAmount platformFee) ] /\
  escrowBalances (store w') i = 0 /\
  status (invoices (store w') i) = Completed.
Proof.
  intros H. open_world w. expand_goal. unfold _releaseFunds in H.
  split_run H.
  all: injection H as <-; expand_goal; rewrite ?upd_same.
  all: repeat rewrite <- app_assoc; simpl app.
  all: match goal with
       | E : status_eqb _ _ = true |- _ => apply status_eqb_eq in E
       end.
  all: unfold PLATFORM_FEE_BPS in *.
  all: repeat match goal with
       | E : (_ <=? _) = true |- _ => apply N.leb_le in E
       | E : (_ <? _) = true |- _ => apply N.ltb_lt in E
       end.
  all: repeat split; auto; try lia.
Qed.

Lemma releaseFunds_fee_split_and_order_witness :
  _releaseFunds 2 Scenario.approving2 = Ok (tt, Scenario.released2) /\
  trace Scenario.released2 = trace Scenario.approving2 ++
    [ Store (W_escrowBalance 2 0); Store (W_status 2 Completed);
      NativeSend 20 995; NativeSend 11 5;
      Emit (FundsReleased 2 20 995 5) ].
Proof.
  assert (H : _releaseFunds 2 Scenario.approving2
              = Ok (tt, Scenario.released2)) by (vm_compute; reflexivity).
  split; [exact H|].
  destruct (releaseFunds_fee_split_and_order 2 _ _ H) as (_ & _ & _ & T & _).
  exact T.
Defined.

(** * Creation *)

Ltac to_Prop :=
  repeat match goal with
  | E : status_eqb _ _ = true |- _ => apply status_eqb_eq in E
  | E : (_ && _) = true |- _ => apply andb_true_iff in E; destruct E
  | E : (_ || _) = true |- _ => apply orb_true_iff in E; destruct E
  | E : (_ || _) = false |- _ => apply orb_false_iff in E; destruct E
  | E : negb _ = true |- _ => apply negb_true_iff in E
  | E : negb _ = false |- _ => apply negb_false_iff in E
  | E : (_ <=? _) = true |- _ => apply N.leb_le in E
  | E : (_ <=? _) = false |- _ => apply N.leb_gt in E
  | E : (_ <? _) = true |- _ => apply N.ltb_lt in E
  | E : (_ <? _) = false |- _ => apply N.ltb_ge in E
  | E : (_ =? _) = true |- _ => apply N.eqb_eq in E
  | E : (_ =? _) = false |- _ => apply N.eqb_neq in E
  end.

(** C7. A successful [createInvoice] stores, under the id it returns, an
    invoice created at the current time whose [dueDate] is
    [createdAt + paymentWindow] and whose [earlyPaymentDeadline] is
    [createdAt + paymentWindow / 2] when a discount is offered and [0]
    otherwise. *)
Theorem createInvoice_deadlines
    (m : Msg) (_client : address) (_amount : N) (_token : address)
    (_terms : PaymentTerms) (_ipfsHash : string) (w w' : World) (i : N) :
  createInvoice m _client _amount _token _terms _ipfsHash w = Ok (i, w') ->
  let inv := invoices (store w') i in
  i = nextInvoiceId (store w) /\
  status inv = Created /\
  createdAt inv = timestamp m /\
  paymentWindow (terms inv) = paymentWindow _terms /\
  earlyPaymentDiscountBps (terms inv) = earlyPaymentDiscountBps _terms /\
  dueDate inv = createdAt inv + paymentWindow (terms inv) /\
  (0 < earlyPaymentDiscountBps (terms inv) ->
   earlyPaymentDeadline (terms inv)
   = createdAt inv + paymentWindow (terms inv) / 2) /\
  (earlyPaymentDiscountBps (terms inv) = 0 ->
   earlyPaymentDeadline (terms inv) = 0).
Proof.
  intros H. open_world w. destruct m as [snd_ val now]. expand_goal.
  unfold createInvoice in H.
  split_run H.
  all: injection H as <- <-; expand_goal; rewrite ?upd_same; simpl.
  all: to_Prop; repeat split; auto; intros; lia.
Qed.

Lemma createInvoice_deadlines_witness :
  let inv := invoices (store Scenario.created1) 1 in
  dueDate inv = createdAt inv + paymentWindow (terms inv) /\
  earlyPaymentDeadline (terms inv)
  = createdAt inv + paymentWindow (terms inv) / 2.
Proof.
  assert (H : createInvoice (mkMsg 20 0 1000) 21 1000 0 Scenario.terms1 "Qm1"
                            Scenario.genesis
              = Ok (1, Scenario.created1)) by (vm_compute; reflexivity).
  destruct (createInvoice_deadlines _ _ _ _ _ _ _ _ _ H)
    as (_ & _ & _ & _ & _ & D & E & _).
  split; [exact D|]. apply E. vm_compute. reflexivity.
Defined.

(** * Payment *)

(** What a successful [makePayment] has checked and done, in full. *)
Lemma makePayment_run (m : Msg) (i : N) (w w' : World) :
  makePayment m i w = Ok (tt, w') ->
  let inv := invoices (store w) i in
  let bps := earlyPaymentDiscountBps (terms inv) in
  let early := (0 <? bps) && (timestamp m <=? earlyPaymentDeadline (terms inv)) in
  let pay := if early then amount inv - amount inv * bps / 10000
             else amount inv in
  let fee := pay * 50 / 10000 in
  (paused (store w) = false /\ entered (store w) = false /\
   id inv <> 0 /\ client inv = sender m /\
   status inv = Created /\ timestamp m <= dueDate inv) /\
  (early = true -> amount inv * bps / 10000 <= amount inv) /\
  (if token inv =? 0 then value m = pay else value m = 0) /\
  trace w' = trace w ++
    [Store (W_entered true)] ++
    (if token inv =? 0 then [] else [TokenPull (token inv) (sender m) pay]) ++
    [ Store (W_escrowBalance i pay);
      Store (W_status i (if requiresApproval (terms inv)
                         then Paid else Approved));
      Store (W_paidAt i (timestamp m));
      Emit (PaymentMade i (sender m) (amount inv) pay early) ] ++
    (if requiresApproval (terms inv) then []
     else
       [ Store (W_escrowBalance i 0);
         Store (W_status i Completed);
         (if token inv =? 0 then NativeSend (provider inv) (pay - fee)
          else TokenSend (token inv) (provider inv) (pay - fee));
         (if token inv =? 0 then NativeSend (feeCollector (store w)) fee
          else TokenSend (token inv) (feeCollector (store w)) fee);
         Emit (FundsReleased i (provider inv) (pay - fee) fee) ]) ++
    [Store (W_entered false)] /\
  escrowBalances (store w') i
  = (if requiresApproval (terms inv) then pay else 0) /\
  status (invoices (store w') i)
  = (if requiresApproval (terms inv) then Paid else Completed) /\
  paidAt (invoices (store w') i) = timestamp m /\
  (requiresApproval (terms inv) = false -> 0 < pay).
Proof.
  intros H. open_world w. destruct m as [snd_ val now]. expand_goal.
  unfold makePayment, _releaseFunds in H.
  split_run H.
  all: injection H as <-; expand_goal; rewrite ?upd_same; simpl.
  all: unfold PLATFORM_FEE_BPS in *.
  all: repeat rewrite <- app_assoc; simpl app.
  all: to_Prop; repeat split; auto; try congruence; try lia.
Qed.

(** C4. A payment attempted after [dueDate] fails, with the expiry error
    when nothing earlier in the call rejects it.  A successful payment
    requires the discounted amount [amount - floor(amount * bps / 10000)]
    when a discount is offered and the early deadline has not passed, and the
    full amount otherwise: that is the value a native payment must carry, the
    amount pulled from the payer for a token payment, and the amount the
    payment event reports. *)
Theorem makePayment_required_amount (m : Msg) (i : N) (w : World) :
  let inv := invoices (store w) i in
  let bps := earlyPaymentDiscountBps (terms inv) in
  let early := (0 <? bps) && (timestamp m <=? earlyPaymentDeadline (terms inv)) in
  let pay := if early then amount inv - amount inv * bps / 10000
             else amount inv in
  (client inv = sender m -> status inv = Created ->
   dueDate inv < timestamp m ->
   exists e, makePayment m i w = Err e /\
             (paused (store w) = false -> entered (store w) = false ->
              id inv <> 0 -> e = Revert "Invoice has expired")) /\
  (forall w', makePayment m i w = Ok (tt, w') ->
     (early = true -> pay + amount inv * bps / 10000 = amount inv) /\
     (early = false -> pay = amount inv) /\
     (token inv = 0 -> value m = pay) /\
     (token inv <> 0 ->
      value m = 0 /\
      exists l1 l2, trace w' = trace w ++ l1
                      ++ TokenPull (token inv) (sender m) pay :: l2) /\
     (exists l1 l2, trace w' = trace w ++ l1
                      ++ Emit (PaymentMade i (sender m) (amount inv) pay early)
                      :: l2)).
Proof.
  cbv zeta. split.
  - intros Hc Hs Hd.
    destruct (makePayment m i w) as [[[] w']|e] eqn:H.
    + apply makePayment_run in H. cbv zeta in H.
      destruct H as ((_ & _ & _ & _ & _ & Hle) & _). lia.
    + exists e. split; [reflexivity|]. intros Hp He Hi.
      open_world w. destruct m as [snd_ val now]. expand_in Hp.
      expand_in He. expand_in Hi. expand_in Hc. expand_in Hs. expand_in Hd.
      subst. unfold makePayment in H. expand_in H.
      apply N.eqb_neq in Hi. rewrite Hi in H. cbn [negb] in H. expand_in H.
      rewrite N.eqb_refl in H. expand_in H.
      rewrite Hs in H. cbn [status_eqb] in H. expand_in H.
      apply N.leb_gt in Hd. rewrite Hd in H. expand_in H.
      congruence.
  - intros w' H. pose proof (makePayment_run _ _ _ _ H) as R.
    cbv zeta in R.
    destruct R as (_ & Hsub & Hval & Htr & _).
    split; [|split; [|split; [|split]]].
    + intros E. rewrite E in *. specialize (Hsub eq_refl). lia.
    + intros E. now rewrite E.
    + intros E. apply N.eqb_eq in E. now rewrite E in Hval.
    + intros E. apply N.eqb_neq in E. rewrite E in Hval, Htr.
      split; [exact Hval|].
      eexists [Store (W_entered true)], _. rewrite Htr. reflexivity.
    + destruct (token (invoices (store w) i) =? 0).
      * eexists [_; _; _; _], _. rewrite Htr. reflexivity.
      * eexists [_; _; _; _; _], _. rewrite Htr. reflexivity.
Qed.

Lemma makePayment_required_amount_witness :
  (exists e, makePayment (mkMsg 21 950 2593001) 1 Scenario.created2 = Err e /\
             e = Revert "Invoice has expired") /\
  value (mkMsg 21 950 2000) = 1000 - 1000 * 500 / 10000.
Proof.
  pose proof (makePayment_required_amount (mkMsg 21 950 2593001) 1
                Scenario.created2) as [Late _].
  pose proof (makePayment_required_amount (mkMsg 21 950 2000) 1
                Scenario.created2) as [_ Paying].
  split.
  - destruct Late as (e & He & Hmsg);
      [reflexivity | reflexivity | vm_compute; reflexivity |].
    exists e. split; [exact He|].
    apply Hmsg; [reflexivity | reflexivity | vm_compute; discriminate].
  - destruct (Paying (after (makePayment (mkMsg 21 950 2000) 1)
                            Scenario.created2))
      as (_ & _ & Hv & _); [vm_compute; reflexivity|].
    apply Hv. reflexivity.
Defined.

(** C5. A successful [makePayment] writes the escrow balance
    [paymentAmount], the status [Paid] (approval required) or [Approved]
    (otherwise) and [paidAt = now], in this order, and reports the payment;
    when no approval is required the settlement follows within the same call
    (escrow write [0], status [Completed], the two transfers, the release
    event), so that the call ends with status [Completed] and escrow balance
    [0]; when approval is required the call ends with status [Paid] and
    escrow balance [paymentAmount]. *)
Theorem makePayment_escrow_and_status (m : Msg) (i : N) (w w' : World) :
  makePayment m i w = Ok (tt, w') ->
  let inv := invoices (store w) i in
  let bps := earlyPaymentDiscountBps (terms inv) in
  let early := (0 <? bps) && (timestamp m <=? earlyPaymentDeadline (terms inv)) in
  let pay := if early then amount inv - amount inv * bps / 10000
             else amount inv in
  let fee := pay * 50 / 10000 in
  trace w' = trace w ++
    [Store (W_entered true)] ++
    (if token inv =? 0 then [] else [TokenPull (token inv) (sender m) pay]) ++
    [ Store (W_escrowBalance i pay);
      Store (W_status i (if requiresApproval (terms inv)
                         then Paid else Approved));
      Store (W_paidAt i (timestamp m));
      Emit (PaymentMade i (sender m) (amount inv) pay early) ] ++
    (if requiresApproval (terms inv) then []
     else
       [ Store (W_escrowBalance i 0);
         Store (W_status i Completed);
         (if token inv =? 0 then NativeSend (provider inv) (pay - fee)
          else TokenSend (token inv) (provider inv) (pay - fee));
         (if token inv =? 0 then NativeSend (feeCollector (store w)) fee
          else TokenSend (token inv) (feeCollector (store w)) fee);
         Emit (FundsReleased i (provider inv) (pay - fee) fee) ]) ++
    [Store (W_entered false)] /\
  paidAt (invoices (store w') i) = timestamp m /\
  (requiresApproval (terms inv) = true ->
   status (invoices (store w') i) = Paid /\
   escrowBalances (store w') i = pay) /\
  (requiresApproval (terms inv) = false ->
   status (invoices (store w') i) = Completed /\
   escrowBalances (store w') i = 0).
Proof.
  intros H. apply makePayment_run in H. cbv zeta in *.
  destruct H as (_ & _ & _ & Htr & He & Hs & Hp & _).
  repeat split; auto.
  all: match goal with
       | E : requiresApproval _ = _ |- _ => rewrite E in *
       end; assumption.
Qed.

Lemma makePayment_escrow_and_status_witness :
  (status (invoices (store (after (makePayment (mkMsg 21 950 2000) 1)
                                  Scenario.created2)) 1) = Completed /\
   escrowBalances (store (after (makePayment (mkMsg 21 950 2000) 1)
                                Scenario.created2)) 1 = 0) /\
  (status (invoices (store (after (makePayment (mkMsg 21 1000 2000) 2)
                                  Scenario.created2)) 2) = Paid /\
   escrowBalances (store (after (makePayment (mkMsg 21 1000 2000) 2)
                                Scenario.created2)) 2 = 1000).
Proof.
  split.
  - destruct (makePayment_escrow_and_status (mkMsg 21 950 2000) 1
                Scenario.created2
                (after (makePayment (mkMsg 21 950 2000) 1) Scenario.created2))
      as (_ & _ & _ & Hno); [vm_compute; reflexivity|].
    apply Hno. reflexivity.
  - destruct (makePayment_escrow_and_status (mkMsg 21 1000 2000) 2
                Scenario.created2
                (after (makePayment (mkMsg 21 1000 2000) 2) Scenario.created2))
      as (_ & _ & Hyes & _); [vm_compute; reflexivity|].
    apply Hyes. reflexivity.
Defined.

(** * Dispute resolution *)

(** C6. A successful [resolveDispute] was called by the arbitrator of the
    invoice or by the owner on a [Disputed] invoice with a positive escrow
    balance [e].  Its first effect is the zeroing of the escrow balance.  In
    favour of the provider it then sets [Completed], sends
    [e - floor(e * 50 / 10000)] to the provider and the fee
    [floor(e * 50 / 10000)] to the fee collector; otherwise it sets
    [Refunded] and sends the whole of [e] to the client. *)
Theorem resolveDispute_effects
    (m : Msg) (i : N) (favor : bool) (w w' : World) :
  resolveDispute m i favor w = Ok (tt, w') ->
  let inv := invoices (store w) i in
  let e := escrowBalances (store w) i in
  let fee := e * 50 / 10000 in
  let send := fun (to : address) (v : N) =>
                if token inv =? 0 then NativeSend to v
                else TokenSend (token inv) to v in
  status inv = Disputed /\
  (sender m = arbitrator (terms inv) \/ sender m = owner (store w)) /\
  0 < e /\
  (e - fee) + fee = e /\
  trace w' = trace w ++
    Store (W_escrowBalance i 0) ::
    (if favor then
       [ Store (W_status i Completed);
         send (provider inv) (e - fee);
         send (feeCollector (store w)) fee;
         Emit (FundsReleased i (provider inv) (e - fee) fee) ]
     else
       [ Store (W_status i Refunded);
         send (client inv) e ]) ++
    [Emit (DisputeResolved i (sender m) favor)] /\
  escrowBalances (store w') i = 0 /\
  status (invoices (store w') i) = (if favor then Completed else Refunded).
Proof.
  intros H. open_world w. destruct m as [snd_ val now]. expand_goal.
  unfold resolveDispute in H.
  split_run H.
  all: injection H as <-; expand_goal; rewrite ?upd_same; simpl.
  all: unfold PLATFORM_FEE_BPS in *.
  all: repeat rewrite <- app_assoc; simpl app.
  all: to_Prop; repeat split; auto; try congruence; try lia.
  all: try match goal with
           | E : _ \/ _ |- _ \/ _ =>
               destruct E as [E|E]; apply N.eqb_eq in E; auto
           end.
  all: pose proof (bps_share_le (escrowBalances0 i) 50); lia.
Qed.

Lemma resolveDispute_effects_witness :
  status (invoices (store Scenario.resolved2) 2) = Completed /\
  status (invoices (store Scenario.refunded2) 2) = Refunded /\
  escrowBalances (store Scenario.refunded2) 2 = 0.
Proof.
  assert (P : resolveDispute (mkMsg 12 0 4000) 2 true Scenario.disputed2
              = Ok (tt, Scenario.resolved2)) by (vm_compute; reflexivity).
  assert (C : resolveDispute (mkMsg 12 0 4000) 2 false Scenario.disputed2
              = Ok (tt, Scenario.refunded2)) by (vm_compute; reflexivity).
  destruct (resolveDispute_effects _ _ _ _ _ P) as (_ & _ & _ & _ & _ & _ & S1).
  destruct (resolveDispute_effects _ _ _ _ _ C) as (_ & _ & _ & _ & _ & E2 & S2).
  repeat split; assumption.
Defined.

(** * Invariants of the storage *)

Lemma discounted_pos (a bps : N) :
  0 < a -> bps <= MAX_EARLY_DISCOUNT_BPS -> 0 < a - a * bps / 10000.
Proof.
  unfold MAX_EARLY_DISCOUNT_BPS. intros Ha Hb.
  assert (H : a * bps / 10000 <= a * 1000 / 10000).
  { apply N.Div0.div_le_mono. now apply N.mul_le_mono_l. }
  assert (H' : a * 1000 / 10000 < a).
  { apply N.Div0.div_lt_upper_bound. lia. }
  lia.
Qed.

Lemma initialStorage_consistent (deployer fc : address) :
  Consistent (initialStorage deployer fc).
Proof.
  constructor; simpl; intros; try reflexivity; try lia; try congruence.
Qed.

Ltac use_consistent C j :=
  pose proof (cons_ids _ C j);
  pose proof (cons_fresh _ C j);
  pose proof (cons_terms _ C j);
  pose proof (cons_unfunded _ C j);
  pose proof (cons_funded _ C j);
  pose proof (cons_not_approved _ C j);
  pose proof (cons_reason _ C j);
  pose proof (cons_disputed _ C j).

(** Facts about balances and overflow checks play no part in the storage
    invariants. *)
Ltac drop_chain_facts :=
  repeat match goal with
  | H : context [MAX_UINT256] |- _ => clear H
  | H : context [credit] |- _ => clear H
  | H : context [nativeBalance] |- _ => clear H
  | H : context [tokenBalance] |- _ => clear H
  | H : context [tokenAllowance] |- _ => clear H
  | H : context [acceptsNative] |- _ => clear H
  | H : _ = mkChain _ _ _ _ |- _ => clear H
  | H : ?x = ?x |- _ => clear H
  end.

(** Forward chaining over the instantiated invariant. *)
Ltac forward :=
  repeat match goal with
  | H : ?P -> _, H' : ?P |- _ => specialize (H H')
  | H : ?x = ?x -> _ |- _ => specialize (H eq_refl)
  | H : ?a = ?b -> _ |- _ =>
      assert (a <> b) by discriminate; clear H
  | H : ?a <> ?b -> _ |- _ =>
      let N := fresh in assert (N : a <> b) by discriminate;
      specialize (H N); clear N
  | H : ?x <> ?x -> _ |- _ => clear H
  | H : _ /\ _ |- _ => destruct H
  | H : ?a = ?b |- _ => is_var a; subst a
  | H : ?a = ?b |- _ => is_var b; subst b
  end.

Ltac drop_run_facts :=
  repeat match goal with
  | H : context [status_eqb] |- _ => clear H
  | H : context [String.length] |- _ => clear H
  | H : context [MAX_UINT256] |- _ => clear H
  | H : context [acceptsNative] |- _ => clear H
  | H : context [tokenAllowance] |- _ => clear H
  | H : _ = mkChain _ _ _ _ |- _ => clear H
  | H : ?x = ?x |- _ => clear H
  end.

Ltac finish_clause :=
  try assumption;
  intros;
  repeat match goal with
  | E : status ?x = _ |- _ => rewrite E in *
  end;
  cbn [holds_funds status_eqb] in *;
  forward;
  try solve [congruence | lia | auto | discriminate
            | repeat split; (congruence || lia)
            | match goal with
              | H : _ \/ _ |- _ => destruct H as [H|[H|H]]; congruence
              end].

Lemma exec_consistent (m : Msg) (c : Call) (w : World) :
  Consistent (store w) -> Consistent (store (exec m c w)).
Proof.
  intros C. unfold exec, after.
  destruct (dispatch m c w) as [[[] w']|e] eqn:H; [|exact C].
  pose proof (cons_entered _ C) as Hent.
  pose proof (cons_next _ C) as Hnext.
  assert (Hpay : forall j, id (invoices (store w) j) <> 0 ->
            0 < amount (invoices (store w) j)
                - amount (invoices (store w) j)
                  * earlyPaymentDiscountBps (terms (invoices (store w) j))
                  / 10000).
  { intros j Hj. destruct (cons_terms _ C j Hj). now apply discounted_pos. }
  assert (Hamt : forall j, id (invoices (store w) j) <> 0 ->
            0 < amount (invoices (store w) j)).
  { intros j Hj. now destruct (cons_terms _ C j Hj). }
  open_world w. destruct m as [snd_ val now].
  expand_in Hent. expand_in Hnext. expand_in Hpay. expand_in Hamt.
  subst entered0.
  destruct c; unfold dispatch, payable, invoke, createInvoice, makePayment, approveInvoice,
    raiseDispute, resolveDispute, cancelInvoice, addSupportedToken,
    removeSupportedToken, setFeeCollector, pause, unpause, emergencyWithdraw,
    transferOwnership, renounceOwnership, _releaseFunds in H.
  all: split_run H.
  all: injection H as <-; expand_goal; rewrite ?upd_same.
  all: constructor; expand_goal; try assumption; try lia.
  all: intros j; use_consistent C j; specialize (Hpay j); specialize (Hamt j).
  all: expand_all.
  all: unfold upd.
  all: repeat match goal with
       | |- context [if ?a =? ?b then _ else _] =>
           destruct (N.eqb_spec a b); [subst|]
       end.
  all: expand_goal; drop_chain_facts; to_Prop.
  all: finish_clause.
  all: try solve [ destruct (N.eq_dec (id (invoices0 nextInvoiceId0)) 0);
                   finish_clause; finish_clause ].
  all: try solve [ intro; subst; simpl in *; lia ].
Qed.

Lemma reachable_by_consistent (allowed : Call -> Prop) (w : World) :
  reachable_by allowed w -> Consistent (store w).
Proof.
  induction 1 as [deployer self fc c w D | w m c _ IH _ _ | w c _ IH _].
  - unfold deploy in D.
    destruct (deployer =? 0); [discriminate|].
    destruct (fc =? 0); [discriminate|].
    injection D as <-. apply initialStorage_consistent.
  - now apply exec_consistent.
  - exact IH.
Qed.

Lemma reachable_by_weaken (allowed : Call -> Prop) (w : World) :
  reachable_by allowed w -> reachable w.
Proof.
  induction 1 as [deployer self fc c w D | w m c _ IH _ Hs | w c _ IH He].
  - eapply reach_deploy; eassumption.
  - apply reach_call; auto.
  - apply reach_env; auto.
Qed.

(** C2. In every reachable state, an invoice whose status is none of
    [Paid], [Approved], [Disputed] has escrow balance [0]: in particular
    before payment ([Created]) and after settlement ([Completed]), refund
    ([Refunded]) or cancellation ([Cancelled]). *)
Theorem escrow_zero_unless_funded (w : World) (i : N) :
  reachable w ->
  (status (invoices (store w) i) <> Paid ->
   status (invoices (store w) i) <> Approved ->
   status (invoices (store w) i) <> Disputed ->
   escrowBalances (store w) i = 0) /\
  (status (invoices (store w) i) = Created \/
   status (invoices (store w) i) = Completed \/
   status (invoices (store w) i) = Refunded \/
   status (invoices (store w) i) = Cancelled ->
   escrowBalances (store w) i = 0).
Proof.
  intros R. apply reachable_by_consistent in R.
  pose proof (cons_unfunded _ R i) as U.
  split.
  - intros; apply U.
    destruct (status (invoices (store w) i)); simpl; congruence.
  - intros [E|[E|[E|E]]]; apply U; now rewrite E.
Qed.

(** ** The concrete run is a run of the ledger *)

Ltac by_call :=
  apply reach_call;
  [ | exact I | let E := fresh in intro E; vm_compute in E; discriminate E ].

Lemma genesis_reachable : reachable Scenario.genesis.
Proof. apply (reach_deploy _ 10 99 11 Scenario.chain0). reflexivity. Qed.

Lemma created1_reachable : reachable Scenario.created1.
Proof. unfold Scenario.created1. by_call. exact genesis_reachable. Qed.

Lemma created2_reachable : reachable Scenario.created2.
Proof. unfold Scenario.created2. by_call. exact created1_reachable. Qed.

Lemma settled1_reachable : reachable Scenario.settled1.
Proof. unfold Scenario.settled1. by_call. exact created2_reachable. Qed.

Lemma paid2_reachable : reachable Scenario.paid2.
Proof. unfold Scenario.paid2. by_call. exact settled1_reachable. Qed.

Lemma disputed2_reachable : reachable Scenario.disputed2.
Proof. unfold Scenario.disputed2. by_call. exact paid2_reachable. Qed.

Lemma resolved2_reachable : reachable Scenario.resolved2.
Proof. unfold Scenario.resolved2. by_call. exact disputed2_reachable. Qed.

Lemma drained_reachable : reachable Scenario.drained.
Proof. unfold Scenario.drained. by_call. exact paid2_reachable. Qed.

Lemma escrow_zero_unless_funded_witness :
  escrowBalances (store Scenario.settled1) 1 = 0 /\
  escrowBalances (store Scenario.settled1) 2 = 0.
Proof.
  split.
  - apply (proj2 (escrow_zero_unless_funded Scenario.settled1 1
                    settled1_reachable)).
    right; left. vm_compute. reflexivity.
  - apply (proj1 (escrow_zero_unless_funded Scenario.settled1 2
                    settled1_reachable)); vm_compute; discriminate.
Defined.

(** * Dispute reasons *)

Lemma raiseDispute_run (m : Msg) (i : N) (r : string) (w w' : World) :
  raiseDispute m i r w = Ok (tt, w') ->
  (status (invoices (store w) i) = Paid \/
   status (invoices (store w) i) = Approved) /\
  r <> EmptyString /\
  trace w' = trace w ++
    [ Store (W_status i Disputed); Store (W_disputeReason i r);
      Emit (DisputeRaised i (sender m) r) ] /\
  status (invoices (store w') i) = Disputed /\
  disputeReasons (store w') i = r.
Proof.
  intros H. open_world w. destruct m as [snd_ val now]. expand_goal.
  unfold raiseDispute in H.
  split_run H.
  injection H as <-; expand_goal; rewrite ?upd_same.
  repeat rewrite <- app_assoc; simpl app.
  assert (r <> EmptyString).
  { intros ->. simpl in *. discriminate. }
  to_Prop; repeat split; auto.
Qed.

(** C9, as the claim states it, fails: after a dispute has been resolved in
    favour of the provider the invoice is [Completed] and still carries the
    reason under which the dispute was raised. *)
Lemma dispute_reason_outlives_dispute :
  ~ (forall (w : World) (i : N),
       reachable w ->
       disputeReasons (store w) i <> EmptyString ->
       status (invoices (store w) i) = Disputed).
Proof.
  intros claim.
  specialize (claim Scenario.resolved2 2 resolved2_reachable).
  assert (E : status (invoices (store Scenario.resolved2) 2) = Completed)
    by (vm_compute; reflexivity).
  rewrite E in claim.
  assert (D : Completed = Disputed); [|discriminate D].
  apply claim. vm_compute. discriminate.
Qed.

(** A call changes the stored reason of an invoice only if it is a
    successful [raiseDispute] on that invoice. *)
Lemma exec_disputeReason (m : Msg) (c : Call) (w : World) (i : N) :
  disputeReasons (store (exec m c w)) i = disputeReasons (store w) i \/
  (exists r, c = RaiseDispute i r /\ r <> EmptyString /\
             disputeReasons (store (exec m c w)) i = r /\
             status (invoices (store (exec m c w)) i) = Disputed).
Proof.
  unfold exec, after.
  destruct (dispatch m c w) as [[[] w']|e] eqn:H; [|now left].
  open_world w. destruct m as [snd_ val now]. expand_all.
  destruct c; unfold dispatch, payable, invoke, createInvoice, makePayment,
    approveInvoice, raiseDispute, resolveDispute, cancelInvoice,
    addSupportedToken, removeSupportedToken, setFeeCollector, pause, unpause,
    emergencyWithdraw, transferOwnership, renounceOwnership, _releaseFunds
    in H.
  all: split_run H.
  all: injection H as <-; expand_goal; rewrite ?upd_same.
  all: try (left; reflexivity).
  all: unfold upd.
  all: destruct (N.eqb_spec i _invoiceId) as [->|Ne]; [|left; reflexivity].
  all: right; exists _reason; rewrite ?N.eqb_refl; expand_goal.
  all: repeat split.
  all: intros ->; simpl in *; discriminate.
Qed.

Lemma history_reachable (w : World) (h : list World) :
  history (w :: h) -> reachable w.
Proof.
  remember (w :: h) as l eqn:E. intros H. revert w h E.
  induction H as [deployer self fc c w0 D | w0 h0 m c _ IH S
                  | w0 h0 c _ IH En]; intros w h [= <- _].
  - eapply reach_deploy; eassumption.
  - apply reach_call; [eapply IH; reflexivity | exact I | exact S].
  - apply reach_env; [eapply IH; reflexivity | exact En].
Qed.

Lemma reachable_history (w : World) :
  reachable w -> exists h, history (w :: h).
Proof.
  intros R. induction R as [deployer self fc c w D | w m c _ [h IH] _ S
                            | w c _ [h IH] E].
  - exists []. eapply hist_deploy; eassumption.
  - exists (w :: h). now apply hist_call.
  - exists (w :: h). now apply hist_env.
Qed.

(** An invoice with a stored reason was [Disputed] at some point of the
    history. *)
Lemma history_disputed (w : World) (h : list World) (i : N) :
  history (w :: h) ->
  disputeReasons (store w) i <> EmptyString ->
  exists w0, In w0 (w :: h) /\ status (invoices (store w0) i) = Disputed.
Proof.
  remember (w :: h) as l eqn:E. intros H. revert w h E.
  induction H as [deployer self fc c w0 D | w0 h0 m c _ IH S
                  | w0 h0 c _ IH En]; intros w h [= <- <-] Hr.
  - exfalso. apply Hr. unfold deploy in D.
    destruct (deployer =? 0); [discriminate|].
    destruct (fc =? 0); [discriminate|].
    injection D as <-. reflexivity.
  - destruct (exec_disputeReason m c w0 i) as [Same|(r & _ & _ & _ & Now)].
    + rewrite Same in Hr.
      destruct (IH w0 h0 eq_refl Hr) as (w1 & I1 & S1).
      exists w1. split; [now right | exact S1].
    + exists (exec m c w0). split; [now left | exact Now].
  - destruct (IH w0 h0 eq_refl Hr) as (w1 & I1 & S1).
    exists w1. split; [now right | exact S1].
Qed.

(** C9, amended.  [raiseDispute] stores a non-empty reason together with the
    status [Disputed]; [resolveDispute] leaves the stored reason in place,
    and no call other than a [raiseDispute] on the invoice changes it.
    Hence, in every reachable state, a [Disputed] invoice has a non-empty
    reason, an invoice with a non-empty reason is [Disputed], [Completed] or
    [Refunded] (no invoice that is [Created], [Paid], [Approved] or
    [Cancelled] has one), and an invoice with a non-empty reason is or has
    been [Disputed]: it had that status in one of the states the ledger
    went through since deployment. *)
Theorem dispute_reason_set_by_dispute_and_kept :
  (forall m i r w w',
     raiseDispute m i r w = Ok (tt, w') ->
     r <> EmptyString /\
     disputeReasons (store w') i = r /\
     status (invoices (store w') i) = Disputed) /\
  (forall m i favor w w',
     resolveDispute m i favor w = Ok (tt, w') ->
     disputeReasons (store w') i = disputeReasons (store w) i) /\
  (forall m c w i,
     (forall r, c <> RaiseDispute i r) ->
     disputeReasons (store (exec m c w)) i = disputeReasons (store w) i) /\
  (forall w i,
     reachable w ->
     (status (invoices (store w) i) = Disputed ->
      disputeReasons (store w) i <> EmptyString) /\
     (disputeReasons (store w) i <> EmptyString ->
      status (invoices (store w) i) = Disputed \/
      status (invoices (store w) i) = Completed \/
      status (invoices (store w) i) = Refunded) /\
     (status (invoices (store w) i) = Created \/
      status (invoices (store w) i) = Paid \/
      status (invoices (store w) i) = Approved \/
      status (invoices (store w) i) = Cancelled ->
      disputeReasons (store w) i = EmptyString)) /\
  (forall w, reachable w <-> exists h, history (w :: h)) /\
  (forall w h i,
     history (w :: h) ->
     disputeReasons (store w) i <> EmptyString ->
     exists w0, In w0 (w :: h) /\
                status (invoices (store w0) i) = Disputed).
Proof.
  split; [|split; [|split; [|split; [|split]]]].
  - intros m i r w w' H. apply raiseDispute_run in H.
    destruct H as (_ & Hr & _ & Hs & Hd). auto.
  - intros m i favor w w' H. open_world w. destruct m as [snd_ val now].
    unfold resolveDispute in H. split_run H.
    all: injection H as <-; reflexivity.
  - intros m c w i Other.
    destruct (exec_disputeReason m c w i) as [Same|(r & Is & _)];
      [exact Same|].
    now elim (Other r).
  - intros w i R. apply reachable_by_consistent in R.
    pose proof (cons_disputed _ R i) as D.
    pose proof (cons_reason _ R i) as K.
    repeat split; auto.
    intros S.
    destruct (string_dec (disputeReasons (store w) i) EmptyString)
      as [E|E]; [exact E|].
    destruct (K E) as [F|[F|F]]; rewrite F in S;
      destruct S as [S|[S|[S|S]]]; discriminate S.
  - intros w. split; [apply reachable_history|].
    intros (h & H). eapply history_reachable; eassumption.
  - exact history_disputed.
Qed.

Lemma dispute_reason_set_by_dispute_and_kept_witness :
  disputeReasons (store Scenario.disputed2) 2 = "late delivery" /\
  disputeReasons (store Scenario.resolved2) 2
  = disputeReasons (store Scenario.disputed2) 2 /\
  disputeReasons (store Scenario.created2) 2 = EmptyString /\
  disputeReasons (store Scenario.disputed2) 2 <> EmptyString /\
  exists w0,
    In w0 [Scenario.resolved2; Scenario.disputed2; Scenario.paid2;
           Scenario.settled1; Scenario.created2; Scenario.created1;
           Scenario.genesis] /\
    status (invoices (store w0) 2) = Disputed.
Proof.
  destruct dispute_reason_set_by_dispute_and_kept
    as (Raise & Resolve & _ & Rest & _ & Past).
  split; [|split; [|split; [|split]]].
  - apply (Raise (mkMsg 20 0 3000) 2 "late delivery" Scenario.paid2).
    vm_compute. reflexivity.
  - apply (Resolve (mkMsg 12 0 4000) 2 true). vm_compute. reflexivity.
  - apply (proj2 (proj2 (Rest Scenario.created2 2 created2_reachable))).
    left. vm_compute. reflexivity.
  - apply (proj1 (Rest Scenario.disputed2 2 disputed2_reachable)).
    vm_compute. reflexivity.
  - apply Past.
    + unfold Scenario.resolved2, Scenario.disputed2, Scenario.paid2,
        Scenario.settled1, Scenario.created2, Scenario.created1.
      repeat (apply hist_call;
              [ | let E := fresh in intro E; vm_compute in E;
                  discriminate E ]).
      apply (hist_deploy 10 99 11 Scenario.chain0). reflexivity.
    + vm_compute. discriminate.
Defined.

(** * The approval step *)

Lemma approveInvoice_run (m : Msg) (i : N) (w w' : World) :
  approveInvoice m i w = Ok (tt, w') ->
  let inv := invoices (store w) i in
  let e := escrowBalances (store w) i in
  let fee := e * 50 / 10000 in
  (paused (store w) = false /\ id inv <> 0 /\ client inv = sender m /\
   status inv = Paid /\ requiresApproval (terms inv) = true) /\
  0 < e /\
  trace w' = trace w ++
    [ Store (W_status i Approved);
      Emit (InvoiceApproved i (sender m));
      Store (W_escrowBalance i 0);
      Store (W_status i Completed);
      (if token inv =? 0 then NativeSend (provider inv) (e - fee)
       else TokenSend (token inv) (provider inv) (e - fee));
      (if token inv =? 0 then NativeSend (feeCollector (store w)) fee
       else TokenSend (token inv) (feeCollector (store w)) fee);
      Emit (FundsReleased i (provider inv) (e - fee) fee) ] /\
  escrowBalances (store w') i = 0 /\
  status (invoices (store w') i) = Completed.
Proof.
  intros H. open_world w. destruct m as [snd_ val now]. expand_goal.
  unfold approveInvoice, _releaseFunds in H.
  split_run H.
  all: injection H as <-; expand_goal; rewrite ?upd_same; simpl.
  all: unfold PLATFORM_FEE_BPS in *.
  all: repeat rewrite <- app_assoc; simpl app.
  all: to_Prop; repeat split; auto; try congruence; try lia.
Qed.

(** C10. [Approved] is never a resting state.  The two operations that
    write it settle within the same call: a successful [makePayment] on
    an invoice without approval step writes [Approved], finds a positive
    escrow balance and ends with the invoice [Completed]; so does a
    successful [approveInvoice].  Hence no invoice of a reachable state is
    [Approved], and a dispute that is raised successfully in a reachable
    state is raised on a [Paid] invoice. *)
Theorem approved_is_transient :
  (forall m i w w',
     makePayment m i w = Ok (tt, w') ->
     requiresApproval (terms (invoices (store w) i)) = false ->
     (exists pre post pay,
        trace w' = trace w ++ pre
          ++ [Store (W_escrowBalance i pay); Store (W_status i Approved)]
          ++ post /\
        0 < pay /\
        In (Store (W_status i Completed)) post) /\
     status (invoices (store w') i) = Completed) /\
  (forall m i w w',
     approveInvoice m i w = Ok (tt, w') ->
     (exists post,
        trace w' = trace w ++ Store (W_status i Approved) :: post /\
        0 < escrowBalances (store w) i /\
        In (Store (W_status i Completed)) post) /\
     status (invoices (store w') i) = Completed) /\
  (forall w i,
     reachable w -> status (invoices (store w) i) <> Approved) /\
  (forall m i r w w',
     reachable w ->
     raiseDispute m i r w = Ok (tt, w') ->
     status (invoices (store w) i) = Paid).
Proof.
  split; [|split; [|split]].
  - intros m i w w' H NoApproval.
    pose proof (makePayment_run _ _ _ _ H) as R. cbv zeta in R.
    destruct R as (_ & _ & _ & Htr & _ & Hs & _ & Hpos).
    rewrite NoApproval in Htr, Hs. specialize (Hpos NoApproval).
    split; [|exact Hs].
    cbn [app] in Htr.
    destruct (token (invoices (store w) i) =? 0); cbn [app] in Htr.
    + exists [Store (W_entered true)]. eexists. eexists.
      split; [exact Htr|]. split; [exact Hpos|].
      right. right. right. left. reflexivity.
    + eexists [Store (W_entered true); _]. eexists. eexists.
      split; [exact Htr|]. split; [exact Hpos|].
      right. right. right. left. reflexivity.
  - intros m i w w' H.
    apply approveInvoice_run in H. cbv zeta in H.
    destruct H as (_ & Hpos & Htr & _ & Hs).
    split; [|exact Hs].
    eexists. split; [exact Htr|]. split; [exact Hpos|].
    right. right. left. reflexivity.
  - intros w i R. apply reachable_by_consistent in R.
    apply (cons_not_approved _ R).
  - intros m i r w w' R H. apply reachable_by_consistent in R.
    apply raiseDispute_run in H. destruct H as ([P|A] & _); [exact P|].
    now apply (cons_not_approved _ R) in A.
Qed.

Lemma approved_is_transient_witness :
  status (invoices (store (after (makePayment (mkMsg 21 950 2000) 1)
                                 Scenario.created2)) 1) = Completed /\
  status (invoices (store (after (approveInvoice (mkMsg 21 0 2500) 2)
                                 Scenario.paid2)) 2) = Completed /\
  status (invoices (store Scenario.paid2) 2) <> Approved /\
  status (invoices (store Scenario.paid2) 2) = Paid.
Proof.
  destruct approved_is_transient as (Pay & Approve & Rest & Dispute).
  split; [|split; [|split]].
  - apply (Pay (mkMsg 21 950 2000) 1 Scenario.created2).
    + vm_compute. reflexivity.
    + reflexivity.
  - apply (Approve (mkMsg 21 0 2500) 2 Scenario.paid2).
    vm_compute. reflexivity.
  - apply Rest. exact paid2_reachable.
  - apply (Dispute (mkMsg 20 0 3000) 2 "late delivery" Scenario.paid2
                   Scenario.disputed2 paid2_reachable).
    vm_compute. reflexivity.
Defined.

(** * Terminal states *)

(** Evaluates an expanded run along the tests whose outcome is known. *)
Ltac feed_step H :=
  expand_in H;
  cbn [negb status_eqb] in H;
  rewrite ?N.eqb_refl in H.

Ltac feed_in H :=
  repeat (
    feed_step H;
    match goal with
    | E : ?c = true |- _ =>
        match type of H with context [c] => rewrite E in H end
    | E : ?c = false |- _ =>
        match type of H with context [c] => rewrite E in H end
    | E : status ?x = _ |- _ =>
        match type of H with context [status x] => rewrite E in H end
    end);
  feed_step H.

Lemma lifecycle_rejects_terminal (m : Msg) (c : Call) (i : N) (w : World) :
  terminal (status (invoices (store w) i)) = true ->
  is_lifecycle_on i c = true ->
  exists e, invoke m c w = Err e.
Proof.
  intros T L.
  destruct (invoke m c w) as [[[] w']|e] eqn:H; [exfalso|eauto].
  open_world w. destruct m as [snd_ val now]. expand_all.
  destruct c; simpl in L; try discriminate L;
    apply N.eqb_eq in L; subst;
    unfold invoke, makePayment, approveInvoice, raiseDispute, resolveDispute,
      cancelInvoice in H.
  all: split_run H.
  all: to_Prop.
  all: repeat match goal with
       | E : status ?x = _ |- _ => rewrite E in T
       end; discriminate T.
Qed.

Lemma lifecycle_terminal_state_error
    (m : Msg) (c : Call) (i : N) (w : World) (e : Error) :
  terminal (status (invoices (store w) i)) = true ->
  is_lifecycle_on i c = true ->
  paused (store w) = false ->
  entered (store w) = false ->
  id (invoices (store w) i) <> 0 ->
  has_role m (invoices (store w) i) c = true ->
  invoke m c w = Err e ->
  state_error e = true.
Proof.
  intros T L P E X R H.
  open_world w. destruct m as [snd_ val now]. expand_all. subst.
  apply N.eqb_neq in X.
  destruct c; simpl in L; try discriminate L;
    apply N.eqb_eq in L; subst; cbn [has_role] in R; expand_all;
    unfold invoke, makePayment, approveInvoice, raiseDispute, resolveDispute,
      cancelInvoice in H.
  all: destruct (status (invoices0 i)) eqn:S; try discriminate T.
  all: feed_in H.
  all: injection H as <-; reflexivity.
Qed.

(** C3, as the claim states it, fails: a [makePayment] on a [Completed]
    invoice by somebody who is not its client is rejected by the caller
    check, which comes before the status check, and the error is the
    authorization error. *)
Lemma terminal_rejection_can_be_authorization_error :
  ~ (forall (m : Msg) (c : Call) (i : N) (w : World),
       reachable w ->
       terminal (status (invoices (store w) i)) = true ->
       is_lifecycle_on i c = true ->
       exists e, invoke m c w = Err e /\ state_error e = true).
Proof.
  intros claim.
  destruct (claim (mkMsg 22 950 2500) (MakePayment 1) 1 Scenario.settled1
                  settled1_reachable eq_refl eq_refl) as (e & He & Hs).
  vm_compute in He. injection He as <-. discriminate Hs.
Qed.

(** C3, amended. Every lifecycle operation applied to a [Completed],
    [Cancelled] or [Refunded] invoice fails, and the transaction leaves the
    whole world, in particular the status and the escrow balance of the
    invoice, as it was.  The failure is an invalid-state error whenever the
    call reaches the status check, that is, when the ledger is not paused, no
    call is in progress, the invoice exists and the caller passes the role
    check of the operation. *)
Theorem terminal_invoice_is_frozen
    (m : Msg) (c : Call) (i : N) (w : World) :
  terminal (status (invoices (store w) i)) = true ->
  is_lifecycle_on i c = true ->
  (exists e, invoke m c w = Err e /\
             (paused (store w) = false ->
              entered (store w) = false ->
              id (invoices (store w) i) <> 0 ->
              has_role m (invoices (store w) i) c = true ->
              state_error e = true)) /\
  exec m c w = w.
Proof.
  intros T L. split.
  - destruct (lifecycle_rejects_terminal m c i w T L) as (e & He).
    exists e. split; [exact He|]. intros.
    eapply lifecycle_terminal_state_error; eassumption.
  - unfold exec, after, dispatch, bind.
    destruct ((if payable c then receive_value (sender m) (value m)
               else nonPayable m) w) as [[[] w1]|e1] eqn:P; [|reflexivity].
    assert (S : store w1 = store w).
    { destruct (payable c); unfold receive_value, nonPayable in P.
      - destruct (value m <=? nativeBalance (chain w) (sender m));
          [injection P as <-; reflexivity | discriminate P].
      - destruct (value m =? 0); [injection P as <-; reflexivity
                                 | discriminate P]. }
    rewrite <- S in T.
    destruct (lifecycle_rejects_terminal m c i w1 T L) as (e & He).
    now rewrite He.
Qed.

Lemma terminal_invoice_is_frozen_witness :
  (exists e, invoke (mkMsg 21 950 2500) (MakePayment 1) Scenario.settled1
             = Err e /\ state_error e = true) /\
  exec (mkMsg 21 950 2500) (MakePayment 1) Scenario.settled1
  = Scenario.settled1.
Proof.
  destruct (terminal_invoice_is_frozen (mkMsg 21 950 2500) (MakePayment 1) 1
              Scenario.settled1 eq_refl eq_refl) as ((e & He & Hs) & Hx).
  split; [|exact Hx].
  exists e. split; [exact He|].
  apply Hs; [reflexivity | reflexivity | vm_compute; discriminate
            | reflexivity].
Defined.

(** * Escrow against holdings *)

Lemma sumN_app (l1 l2 : list N) : sumN (l1 ++ l2) = sumN l1 + sumN l2.
Proof.
  induction l1 as [|x l1 IH]; simpl; [reflexivity|].
  rewrite IH. lia.
Qed.

Lemma sumN_map_ext (g g' : N -> N) (l : list N) :
  (forall j, In j l -> g j = g' j) ->
  sumN (map g l) = sumN (map g' l).
Proof.
  induction l as [|x l IH]; intros E; simpl; [reflexivity|].
  rewrite (E x) by (now left). rewrite IH; [reflexivity|].
  intros j Hj. apply E. now right.
Qed.

(** Changing one summand of a sum over distinct indices. *)
Lemma sumN_map_update (g g' : N -> N) (i : N) (l : list N) :
  NoDup l -> In i l ->
  (forall j, j <> i -> g' j = g j) ->
  sumN (map g' l) + g i = sumN (map g l) + g' i.
Proof.
  induction l as [|x l IH]; intros D I E; [destruct I|].
  inversion D as [|? ? Hx Dl]; subst. simpl.
  destruct I as [->|I].
  - rewrite (sumN_map_ext g' g l); [lia|].
    intros j Hj. apply E. intros ->. contradiction.
  - assert (x <> i) by (intros ->; contradiction).
    rewrite (E x) by assumption.
    specialize (IH Dl I E). lia.
Qed.

Lemma invoiceIds_In (s : Storage) (i : N) :
  In i (invoiceIds s) <-> 1 <= i < nextInvoiceId s.
Proof.
  unfold invoiceIds. rewrite in_map_iff. split.
  - intros (n & <- & Hn). apply in_seq in Hn. lia.
  - intros H. exists (N.to_nat i). split; [apply N2Nat.id|].
    apply in_seq. lia.
Qed.

Lemma invoiceIds_NoDup (s : Storage) : NoDup (invoiceIds s).
Proof.
  unfold invoiceIds. apply Injective_map_NoDup.
  - intros a b E. now apply Nat2N.inj in E.
  - apply seq_NoDup.
Qed.

Lemma invoiceIds_next (s s' : Storage) :
  1 <= nextInvoiceId s ->
  nextInvoiceId s' = nextInvoiceId s + 1 ->
  invoiceIds s' = invoiceIds s ++ [nextInvoiceId s].
Proof.
  intros H1 E. unfold invoiceIds. rewrite E.
  replace (N.to_nat (nextInvoiceId s + 1) - 1)%nat
    with (S (N.to_nat (nextInvoiceId s) - 1))%nat by lia.
  rewrite seq_S, map_app. cbn [map]. do 2 f_equal. lia.
Qed.

(** The three ways in which a call can affect the escrowed total. *)
Lemma escrowed_same (s s' : Storage) (tok : address) :
  nextInvoiceId s' = nextInvoiceId s ->
  (forall j, token (invoices s' j) = token (invoices s j)) ->
  (forall j, escrowBalances s' j = escrowBalances s j) ->
  escrowed s' tok = escrowed s tok.
Proof.
  intros En Et Ee. unfold escrowed, invoiceIds. rewrite En.
  apply sumN_map_ext. intros j _. now rewrite Et, Ee.
Qed.

Lemma escrowed_update (s s' : Storage) (i : N) (tok : address) :
  nextInvoiceId s' = nextInvoiceId s ->
  (forall j, token (invoices s' j) = token (invoices s j)) ->
  (forall j, j <> i -> escrowBalances s' j = escrowBalances s j) ->
  1 <= i < nextInvoiceId s ->
  escrowed s' tok
  + (if token (invoices s i) =? tok then escrowBalances s i else 0)
  = escrowed s tok
  + (if token (invoices s i) =? tok then escrowBalances s' i else 0).
Proof.
  intros En Et Ee Hi. unfold escrowed.
  replace (invoiceIds s') with (invoiceIds s)
    by (unfold invoiceIds; now rewrite En).
  rewrite <- (Et i) at 2.
  apply (sumN_map_update
           (fun j => if token (invoices s j) =? tok
                     then escrowBalances s j else 0)
           (fun j => if token (invoices s' j) =? tok
                     then escrowBalances s' j else 0)).
  - apply invoiceIds_NoDup.
  - now apply invoiceIds_In.
  - intros j Hj. now rewrite Et, Ee.
Qed.

Lemma escrowed_create (s s' : Storage) (tok : address) :
  1 <= nextInvoiceId s ->
  nextInvoiceId s' = nextInvoiceId s + 1 ->
  (forall j, j <> nextInvoiceId s ->
             token (invoices s' j) = token (invoices s j)) ->
  (forall j, escrowBalances s' j = escrowBalances s j) ->
  escrowBalances s (nextInvoiceId s) = 0 ->
  escrowed s' tok = escrowed s tok.
Proof.
  intros H1 En Et Ee Ez. unfold escrowed.
  rewrite (invoiceIds_next s s' H1 En), map_app, sumN_app. simpl.
  rewrite Ee, Ez.
  destruct (token (invoices s' (nextInvoiceId s)) =? tok); rewrite N.add_0_r.
  all: apply sumN_map_ext; intros j Hj; apply invoiceIds_In in Hj.
  all: rewrite Et, Ee by lia; reflexivity.
Qed.

Ltac pointwise :=
  intros; expand_all; unfold upd;
  repeat match goal with
  | |- context [if ?a =? ?b then _ else _] =>
      destruct (N.eqb_spec a b); [subst|]
  end; expand_goal;
  solve [reflexivity | assumption | congruence | lia].

(** Relates the escrowed total after a call to the one before it. *)
Ltac escrowed_after :=
  match goal with
  | Hcov : escrowed ?s ?tok <= _ |- escrowed ?s' ?tok <= _ =>
      first
        [ rewrite (escrowed_same s s' tok) by pointwise
        | rewrite (escrowed_create s s' tok) by pointwise
        | match goal with
          | Hi : 1 <= ?i < _ |- _ =>
              let U := fresh "U" in
              pose proof (escrowed_update s s' i tok
                            ltac:(pointwise) ltac:(pointwise)
                            ltac:(pointwise) Hi) as U;
              expand_in U; rewrite ?upd_same in U
          end ]
  end.

(** Quotients are opaque to linear arithmetic. *)
Ltac quotients :=
  repeat match goal with
  | |- context [?a / ?b] =>
      let q := fresh "q" in set (q := a / b) in *; clearbody q
  | H : context [?a / ?b] |- _ =>
      let q := fresh "q" in set (q := a / b) in *; clearbody q
  end.

(** Evaluates the balances of an explicit chain at the addresses in play. *)
Ltac balances :=
  repeat match goal with
  | |- context [escrowed ?s ?t] =>
      let x := fresh "total" in set (x := escrowed s t) in *; clearbody x
  | H : context [escrowed ?s ?t] |- _ =>
      let x := fresh "total" in set (x := escrowed s t) in *; clearbody x
  end;
  unfold held, credit, debit, upd in *; expand_all;
  repeat match goal with
  | |- context [if ?a =? ?b then _ else _] =>
      destruct (N.eqb_spec a b); try subst
  | H : context [if ?a =? ?b then _ else _] |- _ =>
      destruct (N.eqb_spec a b); try subst
  end.

Lemma exec_covered (m : Msg) (c : Call) (w : World) :
  Consistent (store w) ->
  sender m <> this w ->
  is_emergencyWithdraw c = false ->
  covered w -> covered (exec m c w).
Proof.
  intros C S NE Hcov. unfold exec, after.
  destruct (dispatch m c w) as [[[] w']|e] eqn:H; [|exact Hcov].
  intros tok. specialize (Hcov tok).
  pose proof (cons_next _ C) as Hnext.
  pose proof (cons_ids _ C) as Hids.
  assert (Hfree : escrowBalances (store w) (nextInvoiceId (store w)) = 0).
  { apply (cons_unfunded _ C).
    destruct (N.eq_dec (id (invoices (store w) (nextInvoiceId (store w)))) 0)
      as [Z|Z].
    - now rewrite (cons_fresh _ C _ Z).
    - apply Hids in Z. lia. }
  clear C.
  open_world w. destruct m as [snd_ val now]. expand_all.
  destruct c; try discriminate NE;
    unfold dispatch, payable, invoke, createInvoice, makePayment,
      approveInvoice, raiseDispute, resolveDispute, cancelInvoice,
      addSupportedToken, removeSupportedToken, setFeeCollector, pause,
      unpause, transferOwnership, renounceOwnership, _releaseFunds in H.
  all: split_run H.
  all: injection H as <-.
  all: expand_goal.
  all: repeat match goal with
       | E : negb _ = true |- _ => apply negb_true_iff in E
       end.
  all: try match goal with
       | E : (id (_ ?i) =? 0) = false, Hn : 1 <= ?n |- _ =>
           apply N.eqb_neq in E;
           let Hi := fresh "Hi" in
           assert (Hi : 1 <= i < n) by (destruct (Hids i E); lia)
       end.
  all: escrowed_after.
  all: drop_run_facts; unfold PLATFORM_FEE_BPS in *.
  all: balances.
  all: to_Prop; quotients.
  all: lia.
Qed.

Lemma deploy_covered (deployer self fc : address) (c : Chain) (w : World) :
  deploy deployer self fc c = Ok w -> covered w.
Proof.
  unfold deploy. intros D.
  destruct (deployer =? 0); [discriminate|].
  destruct (fc =? 0); [discriminate|].
  injection D as <-. intros tok. apply N.le_0_l.
Qed.

(** A call whose function fails in every world with this storage leaves the
    world as it was. *)
Lemma exec_unchanged (m : Msg) (c : Call) (w : World) :
  (forall w1, store w1 = store w -> exists e, invoke m c w1 = Err e) ->
  exec m c w = w.
Proof.
  intros F. unfold exec, after, dispatch, bind.
  destruct ((if payable c then receive_value (sender m) (value m)
             else nonPayable m) w) as [[[] w1]|e1] eqn:P; [|reflexivity].
  assert (S : store w1 = store w).
  { destruct (payable c); unfold receive_value, nonPayable in P.
    - destruct (value m <=? nativeBalance (chain w) (sender m));
        [injection P as <-; reflexivity | discriminate P].
    - destruct (value m =? 0); [injection P as <-; reflexivity
                               | discriminate P]. }
  destruct (F w1 S) as (e & He). now rewrite He.
Qed.

Lemma env_step_covered (w : World) (c : Chain) :
  covered w -> env_step_ok w c -> keeps_tokens w c ->
  covered (with_chain w c).
Proof.
  intros Hcov Henv Htok tok. specialize (Hcov tok). specialize (Htok tok).
  unfold env_step_ok in Henv. unfold held in *.
  change (store (with_chain w c)) with (store w).
  change (chain (with_chain w c)) with c.
  change (this (with_chain w c)) with (this w).
  destruct (tok =? 0); lia.
Qed.

(** What a successful [emergencyWithdraw] transaction does. *)
Lemma emergencyWithdraw_run
    (m : Msg) (tok : address) (amt : N) (w w' : World) :
  dispatch m (EmergencyWithdraw tok amt) w = Ok (tt, w') ->
  sender m = owner (store w) /\
  amt <= held w tok /\
  store w' = store w /\
  trace w' = trace w ++
    [if tok =? 0 then NativeSend (owner (store w)) amt
     else TokenSend tok (owner (store w)) amt] /\
  (sender m <> this w ->
   held w' tok + amt = held w tok /\
   forall tok', tok' <> tok -> held w' tok' = held w tok').
Proof.
  intros H. open_world w. destruct m as [snd_ val now].
  unfold dispatch, payable, invoke, emergencyWithdraw in H.
  split_run H.
  all: injection H as <-.
  all: to_Prop; subst.
  all: unfold held, credit, debit, upd; expand_goal.
  all: repeat split; auto.
  all: intros.
  all: repeat match goal with
       | |- context [if ?a =? ?b then _ else _] =>
           destruct (N.eqb_spec a b); try subst
       end.
  all: try lia; try congruence.
Qed.

Lemma emergencyWithdraw_covered
    (m : Msg) (tok : address) (amt : N) (w : World) :
  sender m <> this w ->
  amt + escrowed (store w) tok <= held w tok ->
  covered w ->
  covered (exec m (EmergencyWithdraw tok amt) w).
Proof.
  intros S Spare Hcov. unfold exec, after.
  destruct (dispatch m (EmergencyWithdraw tok amt) w) as [[[] w']|e] eqn:H;
    [|exact Hcov].
  destruct (emergencyWithdraw_run _ _ _ _ _ H) as (_ & _ & St & _ & Held).
  destruct (Held S) as (Same & Other).
  intros tok'. rewrite St. specialize (Hcov tok').
  destruct (N.eq_dec tok' tok) as [->|Ne].
  - lia.
  - rewrite (Other tok' Ne). exact Hcov.
Qed.

Lemma exec_sparing_covered (m : Msg) (c : Call) (w : World) :
  Consistent (store w) ->
  sender m <> this w ->
  spares_escrow w c ->
  covered w -> covered (exec m c w).
Proof.
  intros C S Spare Hcov.
  destruct (is_emergencyWithdraw c) eqn:E.
  - destruct c; try discriminate E.
    apply emergencyWithdraw_covered; auto.
  - now apply exec_covered.
Qed.

Lemma reachable_sparing_reachable (w : World) :
  reachable_sparing w -> reachable w.
Proof.
  intros R. induction R as [deployer self fc c w D | w m c _ IH S _
                            | w c _ IH E _].
  - eapply reach_deploy; eassumption.
  - apply reach_call; [exact IH | exact I | exact S].
  - now apply reach_env.
Qed.

Lemma reachable_sparing_covered (w : World) :
  reachable_sparing w -> covered w.
Proof.
  intros R. induction R as [deployer self fc c w D | w m c R IH S Sp
                            | w c R IH E K].
  - eapply deploy_covered; eassumption.
  - apply exec_sparing_covered; auto.
    eapply reachable_by_consistent, reachable_sparing_reachable; eassumption.
  - now apply env_step_covered.
Qed.

(** C8, as the claim states it, fails: in the concrete run the owner
    withdraws all 6000 native units the ledger holds while invoice 2 still
    has 1000 units in escrow; the state is reachable and its escrowed total
    is no longer covered. *)
Lemma emergencyWithdraw_can_uncover_escrow :
  ~ (forall w : World, reachable w -> covered w).
Proof.
  intros claim.
  pose proof (claim Scenario.drained drained_reachable 0) as H.
  vm_compute in H. apply H. reflexivity.
Qed.

(** C8, amended.  [emergencyWithdraw] is rejected for every caller but the
    owner, and the rejected transaction changes nothing.  A successful one
    was made by the owner, wrote no storage and, the owner not being the
    ledger itself, took the requested amount, which the ledger held, out of
    the ledger's holdings of that token and of no other.  It extracts only balance that no escrow tracks when the amount
    is at most what the ledger holds of the token beyond the escrowed total:
    every operation, such a withdrawal included, applied in a reachable
    state in which the escrowed total of each token is covered by the
    ledger's holdings, leaves it covered; and it is covered in every state
    reached from deployment by such operations, as long as no token
    contract lowers the balance of the ledger in between. *)
Theorem escrow_covered_by_sparing_operations :
  (forall m tok amt w,
     sender m <> owner (store w) ->
     emergencyWithdraw m tok amt w
     = Err (OwnableUnauthorizedAccount (sender m)) /\
     exec m (EmergencyWithdraw tok amt) w = w) /\
  (forall m tok amt w w',
     dispatch m (EmergencyWithdraw tok amt) w = Ok (tt, w') ->
     sender m = owner (store w) /\
     amt <= held w tok /\
     store w' = store w /\
     (sender m <> this w ->
      held w' tok + amt = held w tok /\
      forall tok', tok' <> tok -> held w' tok' = held w tok')) /\
  (forall m c w,
     reachable w -> covered w ->
     sender m <> this w ->
     spares_escrow w c ->
     covered (exec m c w)) /\
  (forall w, reachable_sparing w -> covered w).
Proof.
  split; [|split; [|split]].
  - intros m tok amt w Hne.
    assert (E : forall w1, store w1 = store w ->
                           emergencyWithdraw m tok amt w1
                           = Err (OwnableUnauthorizedAccount (sender m))).
    { intros w1 S1. unfold emergencyWithdraw, onlyOwner, bind, get_store.
      rewrite S1. apply not_eq_sym in Hne. apply N.eqb_neq in Hne.
      now rewrite Hne. }
    split; [now apply E|].
    apply exec_unchanged. intros w1 S1. eexists. now apply E.
  - intros m tok amt w w' H.
    destruct (emergencyWithdraw_run _ _ _ _ _ H) as (O & A & S & _ & Hd).
    auto.
  - intros m c w R Hcov S Sp. apply exec_sparing_covered; auto.
    eapply reachable_by_consistent; eassumption.
  - exact reachable_sparing_covered.
Qed.

Lemma escrow_covered_by_sparing_operations_witness :
  emergencyWithdraw (mkMsg 22 0 2500) 0 6000 Scenario.paid2
  = Err (OwnableUnauthorizedAccount 22) /\
  held Scenario.recovered 0 + 5000 = held Scenario.paid2 0 /\
  covered Scenario.recovered /\
  covered (exec (mkMsg 21 0 2600) (ApproveInvoice 2) Scenario.recovered).
Proof.
  destruct escrow_covered_by_sparing_operations
    as (Others & Owner & Step & Run).
  assert (S : sender (mkMsg 10 0 2500) <> this Scenario.paid2)
    by (vm_compute; discriminate).
  assert (R : reachable_sparing Scenario.recovered).
  { unfold Scenario.recovered. apply spare_call; [|exact S|].
    - unfold Scenario.paid2, Scenario.settled1, Scenario.created2,
        Scenario.created1.
      repeat (apply spare_call;
              [ | let E := fresh in intro E; vm_compute in E; discriminate E
                | intros tok amt E; discriminate E ]).
      apply (spare_deploy 10 99 11 Scenario.chain0). reflexivity.
    - intros tok amt [= <- <-]. vm_compute. discriminate. }
  split; [|split; [|split]].
  - apply (proj1 (Others (mkMsg 22 0 2500) 0 6000 Scenario.paid2
                   ltac:(vm_compute; discriminate))).
  - destruct (Owner (mkMsg 10 0 2500) 0 5000 Scenario.paid2
                Scenario.recovered) as (_ & _ & _ & Held);
      [vm_compute; reflexivity|].
    exact (proj1 (Held S)).
  - apply Run. exact R.
  - apply (Step (mkMsg 21 0 2600) (ApproveInvoice 2) Scenario.recovered).
    + apply reachable_sparing_reachable. exact R.
    + apply Run. exact R.
    + vm_compute. discriminate.
    + intros tok amt E. discriminate E.
Defined.

(** * Further invariants of the storage *)

Lemma discount_at_most_tenth (a bps : N) :
  bps <= MAX_EARLY_DISCOUNT_BPS -> 10 * (a * bps / 10000) <= a.
Proof.
  unfold MAX_EARLY_DISCOUNT_BPS. intros Hb.
  assert (H : a * bps / 10000 <= a * 1000 / 10000).
  { apply N.Div0.div_le_mono. now apply N.mul_le_mono_l. }
  assert (H' : 10 * (a * 1000 / 10000) <= a).
  { replace (a * 1000 / 10000) with (a / 10).
    - apply N.Div0.mul_div_le.
    - change 10000 with (10 * 1000).
      rewrite (N.mul_comm a 1000), (N.mul_comm 10 1000).
      now rewrite N.Div0.div_mul_cancel_l. }
  lia.
Qed.

Lemma initialStorage_wellformed (deployer fc : address) :
  fc <> 0 -> WellFormed (initialStorage deployer fc).
Proof.
  intros H. constructor; simpl; intros; auto; try lia; try congruence.
  repeat match goal with A : _ \/ _ |- _ => destruct A as [A|A] end;
    discriminate.
Qed.

Ltac use_wellformed W j :=
  pose proof (wf_known _ W j);
  pose proof (wf_unknown _ W j);
  pose proof (wf_parties _ W j);
  pose proof (wf_window _ W j);
  pose proof (wf_paidAt _ W j);
  pose proof (wf_escrow _ W j);
  pose proof (wf_approval _ W j).

Lemma exec_wellformed (m : Msg) (c : Call) (w : World) :
  Consistent (store w) -> WellFormed (store w) ->
  WellFormed (store (exec m c w)).
Proof.
  intros C W. unfold exec, after.
  destruct (dispatch m c w) as [[[] w']|e] eqn:H; [|exact W].
  pose proof (cons_next _ C) as Hnext.
  pose proof (wf_feeCollector _ W) as Hfc.
  assert (Hten : forall j, id (invoices (store w) j) <> 0 ->
            10 * (amount (invoices (store w) j)
                  * earlyPaymentDiscountBps (terms (invoices (store w) j))
                  / 10000)
            <= amount (invoices (store w) j)).
  { intros j Hj. destruct (cons_terms _ C j Hj).
    now apply discount_at_most_tenth. }
  open_world w. destruct m as [snd_ val now].
  expand_in Hnext. expand_in Hten. expand_in Hfc.
  destruct c; unfold dispatch, payable, invoke, createInvoice, makePayment,
    approveInvoice, raiseDispute, resolveDispute, cancelInvoice,
    addSupportedToken, removeSupportedToken, setFeeCollector, pause, unpause,
    emergencyWithdraw, transferOwnership, renounceOwnership, _releaseFunds
    in H.
  all: split_run H.
  all: injection H as <-; expand_goal; rewrite ?upd_same.
  all: constructor; expand_goal; try assumption.
  all: try (intros j; use_consistent C j; use_wellformed W j;
            specialize (Hten j)).
  all: expand_all; unfold upd.
  all: repeat match goal with
       | |- context [if ?a =? ?b then _ else _] =>
           destruct (N.eqb_spec a b); [subst|]
       end.
  all: expand_goal; drop_chain_facts; to_Prop.
  all: finish_clause.
  all: try solve [ intros; forward; quotients;
                   repeat split; intros; forward;
                   solve [congruence | lia | discriminate | auto] ].
  all: try solve [ repeat split; intros; forward;
                   repeat match goal with
                   | A : _ \/ _ |- _ => destruct A as [A|A]
                   end;
                   solve [discriminate | congruence | lia] ].
  all: try solve [ destruct (N.eq_dec (id (invoices0 nextInvoiceId0)) 0);
                   forward;
                   repeat match goal with
                   | E : status ?x = _ |- _ => rewrite E in *
                   end;
                   cbn [holds_funds] in *; forward; quotients;
                   (split; [lia | discriminate]) ].
  all: try solve [ repeat match goal with
                   | |- context [0 <? ?x] => destruct (N.ltb_spec 0 x)
                   end;
                   repeat split; try lia;
                   intro; subst; simpl in *; lia ].
Qed.

Lemma reachable_by_wellformed (allowed : Call -> Prop) (w : World) :
  reachable_by allowed w -> WellFormed (store w).
Proof.
  intros R. induction R as [deployer self fc c w D | w m c R IH _ _ | w c _ IH _].
  - unfold deploy in D.
    destruct (deployer =? 0); [discriminate|].
    destruct (fc =? 0) eqn:F; [discriminate|].
    injection D as <-. apply initialStorage_wellformed.
    now apply N.eqb_neq.
  - apply exec_wellformed; [|exact IH].
    eapply reachable_by_consistent; eassumption.
  - exact IH.
Qed.

Lemma In_snoc (l : list N) (x y : N) : In y (l ++ [x]) <-> In y l \/ y = x.
Proof.
  rewrite in_app_iff. simpl. intuition congruence.
Qed.

Lemma NoDup_snoc (l : list N) (x : N) :
  NoDup l -> ~ In x l -> NoDup (l ++ [x]).
Proof.
  intros D N. apply NoDup_app; [exact D | repeat constructor; auto |].
  intros y Hy [<-|[]]. contradiction.
Qed.

Lemma exec_indexed (m : Msg) (c : Call) (w : World) :
  Consistent (store w) -> Indexed (store w) ->
  Indexed (store (exec m c w)).
Proof.
  intros C I. unfold exec, after.
  destruct (dispatch m c w) as [[[] w']|e] eqn:H; [|exact I].
  pose proof (cons_next _ C) as Hnext.
  assert (Hfresh : id (invoices (store w) (nextInvoiceId (store w))) = 0).
  { destruct (N.eq_dec (id (invoices (store w) (nextInvoiceId (store w)))) 0)
      as [Z|Z]; [exact Z|].
    apply (cons_ids _ C) in Z. lia. }
  pose proof (idx_provider _ I) as Ip.
  pose proof (idx_client _ I) as Ic.
  pose proof (idx_provider_NoDup _ I) as Dp.
  pose proof (idx_client_NoDup _ I) as Dc.
  clear C I.
  open_world w. destruct m as [snd_ val now]. expand_all.
  destruct c; unfold dispatch, payable, invoke, createInvoice, makePayment,
    approveInvoice, raiseDispute, resolveDispute, cancelInvoice,
    addSupportedToken, removeSupportedToken, setFeeCollector, pause, unpause,
    emergencyWithdraw, transferOwnership, renounceOwnership, _releaseFunds
    in H.
  all: split_run H.
  all: injection H as <-; expand_goal; rewrite ?upd_same.
  all: clear - Hnext Hfresh Ip Ic Dp Dc.
  all: constructor; expand_goal; try assumption.
  all: intros a; try intros j; try specialize (Ip a j); try specialize (Ic a j);
         try specialize (Dp a); try specialize (Dc a).
  all: unfold upd.
  all: repeat match goal with
       | |- context [if ?a =? ?b then _ else _] =>
           destruct (N.eqb_spec a b); [subst|]
       end.
  all: expand_goal; try assumption.
  all: rewrite ?In_snoc.
  all: try solve [ intuition (try congruence; try lia) ].
  all: apply NoDup_snoc; [assumption|].
  all: first [ rewrite Ip | rewrite Ic ]; intros [Z _]; congruence.
Qed.

Lemma initialStorage_indexed (deployer fc : address) :
  Indexed (initialStorage deployer fc).
Proof.
  constructor; simpl; intros; try constructor; try contradiction.
  all: intros [Z _]; now apply Z.
Qed.

Lemma reachable_by_indexed (allowed : Call -> Prop) (w : World) :
  reachable_by allowed w -> Indexed (store w).
Proof.
  intros R. induction R as [deployer self fc c w D | w m c R IH _ _ | w c _ IH _].
  - unfold deploy in D.
    destruct (deployer =? 0); [discriminate|].
    destruct (fc =? 0); [discriminate|].
    injection D as <-. apply initialStorage_indexed.
  - apply exec_indexed; [|exact IH].
    eapply reachable_by_consistent; eassumption.
  - exact IH.
Qed.

(** * What the views return *)

(** X1. Invoice ids are handed out in sequence from 1: in every reachable
    state the invoice stored under an id below [nextInvoiceId] carries that
    id, and every other id reads as the all-zero invoice with escrow balance
    0 and no dispute reason. *)
Theorem invoice_ids_sequential (w : World) (i : N) :
  reachable w ->
  1 <= nextInvoiceId (store w) /\
  (1 <= i < nextInvoiceId (store w) -> id (getInvoice w i) = i) /\
  (~ 1 <= i < nextInvoiceId (store w) ->
   getInvoice w i = zeroInvoice /\
   getEscrowBalance w i = 0 /\
   getDisputeReason w i = EmptyString).
Proof.
  intros R.
  pose proof (reachable_by_consistent _ _ R) as C.
  pose proof (reachable_by_wellformed _ _ R) as W.
  unfold getInvoice, getEscrowBalance, getDisputeReason.
  split; [apply (cons_next _ C)|]. split; [apply (wf_known _ W)|].
  intros Out.
  assert (Z : id (invoices (store w) i) = 0).
  { destruct (N.eq_dec (id (invoices (store w) i)) 0) as [Z|Z]; [exact Z|].
    destruct (cons_ids _ C i Z) as [E L]. exfalso. apply Out. lia. }
  pose proof (cons_fresh _ C i Z) as S.
  split; [apply (wf_unknown _ W i Z)|]. split.
  - apply (cons_unfunded _ C). now rewrite S.
  - destruct (string_dec (disputeReasons (store w) i) EmptyString)
      as [E|E]; [exact E|].
    destruct (cons_reason _ C i E) as [F|[F|F]]; rewrite S in F;
      discriminate F.
Qed.

Lemma invoice_ids_sequential_witness :
  id (getInvoice Scenario.paid2 2) = 2 /\
  getInvoice Scenario.paid2 3 = zeroInvoice.
Proof.
  split.
  - apply (invoice_ids_sequential Scenario.paid2 2 paid2_reachable).
    vm_compute. split; [discriminate | reflexivity].
  - apply (invoice_ids_sequential Scenario.paid2 3 paid2_reachable).
    vm_compute. intros [_ L]. discriminate L.
Defined.

(** X2. The two indices list exactly the invoices of each provider and of
    each client, each id once. *)
Theorem indices_list_invoices (w : World) (a : address) (i : N) :
  reachable w ->
  (In i (getProviderInvoices w a) <->
   id (getInvoice w i) <> 0 /\ provider (getInvoice w i) = a) /\
  (In i (getClientInvoices w a) <->
   id (getInvoice w i) <> 0 /\ client (getInvoice w i) = a) /\
  NoDup (getProviderInvoices w a) /\
  NoDup (getClientInvoices w a).
Proof.
  intros R. apply reachable_by_indexed in R.
  unfold getProviderInvoices, getClientInvoices, getInvoice.
  split; [apply (idx_provider _ R)|].
  split; [apply (idx_client _ R)|].
  split; [apply (idx_provider_NoDup _ R) | apply (idx_client_NoDup _ R)].
Qed.

Lemma indices_list_invoices_witness :
  In 2 (getProviderInvoices Scenario.paid2 20) /\
  NoDup (getClientInvoices Scenario.paid2 21).
Proof.
  destruct (indices_list_invoices Scenario.paid2 20 2 paid2_reachable)
    as (P & _ & _ & _).
  destruct (indices_list_invoices Scenario.paid2 21 2 paid2_reachable)
    as (_ & _ & _ & D).
  split; [|exact D].
  apply P. vm_compute. split; [discriminate|reflexivity].
Defined.

(** * What holds of every stored invoice *)

(** X3. An invoice without approval step never rests in escrow: in every
    reachable state it is [Created], [Completed] or [Cancelled] and its
    escrow balance is 0, so it can be neither disputed nor refunded. *)
Theorem no_approval_never_in_escrow (w : World) (i : N) :
  reachable w ->
  requiresApproval (terms (getInvoice w i)) = false ->
  (status (getInvoice w i) = Created \/
   status (getInvoice w i) = Completed \/
   status (getInvoice w i) = Cancelled) /\
  getEscrowBalance w i = 0.
Proof.
  intros R NoApproval.
  pose proof (reachable_by_consistent _ _ R) as C.
  pose proof (reachable_by_wellformed _ _ R) as W.
  unfold getInvoice, getEscrowBalance in *.
  pose proof (wf_approval _ W i) as A.
  pose proof (cons_not_approved _ C i) as NA.
  pose proof (cons_unfunded _ C i) as U.
  destruct (status (invoices (store w) i)) eqn:S; simpl in U.
  all: try (rewrite A in NoApproval by auto; discriminate NoApproval).
  all: try (exfalso; now apply NA).
  all: split; auto.
Qed.

Lemma no_approval_never_in_escrow_witness :
  getEscrowBalance Scenario.paid2 1 = 0.
Proof.
  apply (no_approval_never_in_escrow Scenario.paid2 1 paid2_reachable).
  vm_compute. reflexivity.
Defined.

(** X4. In every reachable state the escrow balance of an invoice is at
    most its face value, and while the invoice holds funds it is positive
    and at least nine tenths of the face value. *)
Theorem escrow_within_face_value (w : World) (i : N) :
  reachable w ->
  getEscrowBalance w i <= amount (getInvoice w i) /\
  (holds_funds (status (getInvoice w i)) = true ->
   0 < getEscrowBalance w i /\
   amount (getInvoice w i) * 9 <= getEscrowBalance w i * 10).
Proof.
  intros R.
  pose proof (reachable_by_consistent _ _ R) as C.
  pose proof (reachable_by_wellformed _ _ R) as W.
  unfold getInvoice, getEscrowBalance.
  destruct (wf_escrow _ W i) as [Le Ge].
  split; [exact Le|]. intros F. split; [|exact (Ge F)].
  exact (cons_funded _ C i F).
Qed.

Lemma escrow_within_face_value_witness :
  0 < getEscrowBalance Scenario.paid2 2 /\
  getEscrowBalance Scenario.paid2 2 <= 1000.
Proof.
  destruct (escrow_within_face_value Scenario.paid2 2 paid2_reachable)
    as [Le Ge].
  split; [|exact Le]. apply Ge. reflexivity.
Defined.

(** X5. In every reachable state [paidAt] is at most [dueDate], and is 0
    for an invoice that is [Created] or [Cancelled]; an existing invoice has
    its [dueDate] between one and ninety days after [createdAt], an early
    deadline that is not after [dueDate], distinct provider and client, a
    positive amount, a discount of at most 1000 basis points and a non-empty
    metadata reference. *)
Theorem stored_invoice_is_valid (w : World) (i : N) :
  reachable w ->
  paidAt (getInvoice w i) <= dueDate (getInvoice w i) /\
  (status (getInvoice w i) = Created \/ status (getInvoice w i) = Cancelled ->
   paidAt (getInvoice w i) = 0) /\
  (id (getInvoice w i) <> 0 ->
   createdAt (getInvoice w i) + 86400 <= dueDate (getInvoice w i) /\
   dueDate (getInvoice w i) <= createdAt (getInvoice w i) + 7776000 /\
   earlyPaymentDeadline (terms (getInvoice w i)) <= dueDate (getInvoice w i) /\
   client (getInvoice w i) <> 0 /\
   provider (getInvoice w i) <> client (getInvoice w i) /\
   0 < amount (getInvoice w i) /\
   earlyPaymentDiscountBps (terms (getInvoice w i)) <= 1000 /\
   ipfsHash (getInvoice w i) <> EmptyString).
Proof.
  intros R.
  pose proof (reachable_by_consistent _ _ R) as C.
  pose proof (reachable_by_wellformed _ _ R) as W.
  unfold getInvoice.
  destruct (wf_paidAt _ W i) as [P0 P1].
  split; [exact P0|]. split; [exact P1|]. intros X.
  destruct (wf_window _ W i X) as ([Lo Hi] & Due & Early & Hash).
  destruct (wf_parties _ W i X) as [Cl Pr].
  destruct (cons_terms _ C i X) as [Am Bps].
  unfold MIN_PAYMENT_WINDOW, MAX_PAYMENT_WINDOW, MAX_EARLY_DISCOUNT_BPS in *.
  assert (Half : paymentWindow (terms (invoices (store w) i)) / 2
                 <= paymentWindow (terms (invoices (store w) i))).
  { apply N.Div0.div_le_upper_bound. lia. }
  rewrite Early.
  destruct (0 <? earlyPaymentDiscountBps (terms (invoices (store w) i)));
    repeat split; auto; lia.
Qed.

Lemma stored_invoice_is_valid_witness :
  paidAt (getInvoice Scenario.created2 2) = 0 /\
  provider (getInvoice Scenario.created2 2)
  <> client (getInvoice Scenario.created2 2).
Proof.
  destruct (stored_invoice_is_valid Scenario.created2 2 created2_reachable)
    as (_ & Unpaid & Valid).
  split.
  - apply Unpaid. left. reflexivity.
  - apply Valid. vm_compute. discriminate.
Defined.

(** Opens a world with fixed names for the storage fields. *)
Ltac open_named w :=
  let self := fresh "self" in
  let tr := fresh "tr" in
  destruct w as [self [nextInvoiceId0 feeCollector0 supportedTokens0
                       invoices0 escrowBalances0 disputeReasons0
                       providerInvoices0 clientInvoices0 owner0 paused0
                       entered0]
                   [nativeBalance0 tokenBalance0 tokenAllowance0
                    acceptsNative0] tr].

(** * How a call changes an invoice *)

Lemma exec_invoice_step (m : Msg) (c : Call) (w : World) (i : N) :
  Consistent (store w) ->
  (id (invoices (store w) i) <> 0 ->
   id (invoices (store (exec m c w)) i) = id (invoices (store w) i) /\
   provider (invoices (store (exec m c w)) i)
   = provider (invoices (store w) i) /\
   client (invoices (store (exec m c w)) i)
   = client (invoices (store w) i) /\
   amount (invoices (store (exec m c w)) i)
   = amount (invoices (store w) i) /\
   token (invoices (store (exec m c w)) i)
   = token (invoices (store w) i) /\
   terms (invoices (store (exec m c w)) i)
   = terms (invoices (store w) i) /\
   createdAt (invoices (store (exec m c w)) i)
   = createdAt (invoices (store w) i) /\
   dueDate (invoices (store (exec m c w)) i)
   = dueDate (invoices (store w) i) /\
   ipfsHash (invoices (store (exec m c w)) i)
   = ipfsHash (invoices (store w) i)) /\
  (status (invoices (store (exec m c w)) i) = status (invoices (store w) i) \/
   transition (status (invoices (store w) i))
              (status (invoices (store (exec m c w)) i)) = true).
Proof.
  intros C. unfold exec, after.
  destruct (dispatch m c w) as [[[] w']|e] eqn:H;
    [|split; [intros; repeat split|left]; reflexivity].
  assert (Hfresh : id (invoices (store w) (nextInvoiceId (store w))) = 0).
  { destruct (N.eq_dec (id (invoices (store w) (nextInvoiceId (store w)))) 0)
      as [Z|Z]; [exact Z|].
    apply (cons_ids _ C) in Z. lia. }
  pose proof (cons_fresh _ C _ Hfresh) as Sfresh.
  pose proof (cons_not_approved _ C i) as NA.
  clear C.
  open_named w. destruct m as [snd_ val now]. expand_all.
  destruct c; unfold dispatch, payable, invoke, createInvoice, makePayment,
    approveInvoice, raiseDispute, resolveDispute, cancelInvoice,
    addSupportedToken, removeSupportedToken, setFeeCollector, pause, unpause,
    emergencyWithdraw, transferOwnership, renounceOwnership, _releaseFunds
    in H.
  all: split_run H.
  all: injection H as <-; expand_goal; rewrite ?upd_same.
  all: drop_chain_facts; to_Prop.
  all: unfold upd.
  all: repeat match goal with
       | |- context [if ?a =? ?b then _ else _] =>
           destruct (N.eqb_spec a b); [subst|]
       end.
  all: expand_goal.
  all: repeat match goal with
       | E : status ?x = _ |- _ => rewrite E in *
       end.
  all: cbn [transition].
  all: split; [intros; repeat split; solve [reflexivity | congruence]
              | solve [auto | congruence] ].
Qed.

(** X6. No call changes the identity, the parties, the amount, the token,
    the terms, the dates or the metadata reference of an existing invoice:
    only its status and [paidAt] can change. *)
Theorem invoice_fields_immutable (m : Msg) (c : Call) (w : World) (i : N) :
  reachable w ->
  id (getInvoice w i) <> 0 ->
  id (getInvoice (exec m c w) i) = id (getInvoice w i) /\
  provider (getInvoice (exec m c w) i) = provider (getInvoice w i) /\
  client (getInvoice (exec m c w) i) = client (getInvoice w i) /\
  amount (getInvoice (exec m c w) i) = amount (getInvoice w i) /\
  token (getInvoice (exec m c w) i) = token (getInvoice w i) /\
  terms (getInvoice (exec m c w) i) = terms (getInvoice w i) /\
  createdAt (getInvoice (exec m c w) i) = createdAt (getInvoice w i) /\
  dueDate (getInvoice (exec m c w) i) = dueDate (getInvoice w i) /\
  ipfsHash (getInvoice (exec m c w) i) = ipfsHash (getInvoice w i).
Proof.
  intros R X. apply reachable_by_consistent in R.
  exact (proj1 (exec_invoice_step m c w i R) X).
Qed.

Lemma invoice_fields_immutable_witness :
  amount (getInvoice Scenario.disputed2 2) = 1000 /\
  provider (getInvoice Scenario.disputed2 2) = 20.
Proof.
  destruct (invoice_fields_immutable (mkMsg 20 0 3000)
              (RaiseDispute 2 "late delivery") Scenario.paid2 2
              paid2_reachable)
    as (_ & P & _ & A & _); [vm_compute; discriminate|].
  split; [exact A | exact P].
Defined.

(** X7. Between two transactions the status of an invoice either stays or
    moves along one of the edges [Created -> Paid], [Created -> Completed],
    [Created -> Cancelled], [Paid -> Completed], [Paid -> Disputed],
    [Disputed -> Completed], [Disputed -> Refunded]. *)
Theorem status_moves_along_lifecycle
    (m : Msg) (c : Call) (w : World) (i : N) :
  reachable w ->
  status (getInvoice (exec m c w) i) = status (getInvoice w i) \/
  transition (status (getInvoice w i)) (status (getInvoice (exec m c w) i))
  = true.
Proof.
  intros R. apply reachable_by_consistent in R.
  exact (proj2 (exec_invoice_step m c w i R)).
Qed.

Lemma status_moves_along_lifecycle_witness :
  transition (status (getInvoice Scenario.paid2 2))
             (status (getInvoice Scenario.disputed2 2)) = true.
Proof.
  destruct (status_moves_along_lifecycle (mkMsg 20 0 3000)
              (RaiseDispute 2 "late delivery") Scenario.paid2 2
              paid2_reachable) as [Same|Edge]; [|exact Edge].
  vm_compute in Same. discriminate Same.
Defined.

(** * Creation, cancellation and dispute in full *)

Ltac boolify :=
  repeat match goal with
  | H : ?a <> ?b |- _ => apply N.eqb_neq in H
  | H : (?a <= ?b)%N |- _ => apply N.leb_le in H
  | H : (?a < ?b)%N |- _ => apply N.ltb_lt in H
  | H : status ?x = ?s |- _ =>
      apply status_eqb_eq in H
  end.

Ltac feed_more H :=
  repeat (
    feed_step H; cbn [andb orb] in H; rewrite ?upd_same in H;
    feed_step H;
    match goal with
    | E : ?c = true |- _ =>
        match type of H with context [c] => rewrite E in H end
    | E : ?c = false |- _ =>
        match type of H with context [c] => rewrite E in H end
    end);
  feed_step H; cbn [andb orb] in H; rewrite ?upd_same in H; feed_step H.

Lemma nonempty_length (s : string) :
  s <> EmptyString <-> (0 <? N.of_nat (String.length s)) = true.
Proof.
  destruct s; simpl; split; intros H; try congruence; try reflexivity.
  discriminate.
Qed.

(** When the body of [createInvoice] succeeds. *)
Lemma createInvoice_body_succeeds_iff
    (m : Msg) (_client : address) (_amount : N) (_token : address)
    (_terms : PaymentTerms) (_ipfsHash : string) (w : World) :
  (exists i w',
     createInvoice m _client _amount _token _terms _ipfsHash w = Ok (i, w'))
  <->
  paused (store w) = false /\ entered (store w) = false /\
  _client <> 0 /\ _client <> sender m /\ 0 < _amount /\
  supportedTokens (store w) _token = true /\
  MIN_PAYMENT_WINDOW <= paymentWindow _terms /\
  paymentWindow _terms <= MAX_PAYMENT_WINDOW /\
  earlyPaymentDiscountBps _terms <= MAX_EARLY_DISCOUNT_BPS /\
  _ipfsHash <> EmptyString /\
  nextInvoiceId (store w) + 1 <= MAX_UINT256 /\
  timestamp m + paymentWindow _terms <= MAX_UINT256.
Proof.
  open_named w. destruct m as [snd_ val now]. expand_goal. split.
  - intros (i & w' & H). unfold createInvoice in H.
    split_run H.
    all: rewrite nonempty_length.
    all: to_Prop; repeat split; auto.
    all: apply N.ltb_lt; assumption.
  - intros (P & E & C0 & Cs & A & T & Lo & Hi & D & Hash & Nx & Due).
    assert (Half : now + paymentWindow _terms / 2 <= MAX_UINT256).
    { assert (paymentWindow _terms / 2 <= paymentWindow _terms)
        by (apply N.Div0.div_le_upper_bound; lia).
      lia. }
    apply nonempty_length in Hash. subst. boolify.
    destruct (createInvoice (mkMsg snd_ val now) _client _amount _token
                _terms _ipfsHash _) as [[i w']|e] eqn:H; [eauto|exfalso].
    unfold createInvoice in H.
    destruct (0 <? earlyPaymentDiscountBps _terms) eqn:Z.
    all: feed_more H; discriminate H.
Qed.

(** A call to a function that is not payable reaches the function only
    when it carries no value. *)
Lemma dispatch_nonPayable (m : Msg) (c : Call) (w : World) :
  payable c = false ->
  dispatch m c w = if value m =? 0 then invoke m c w else Err NonPayable.
Proof.
  intros P. unfold dispatch, bind, nonPayable. rewrite P.
  destruct (value m =? 0); reflexivity.
Qed.

(** X8. A call to [createInvoice] succeeds exactly when it carries no
    value, the ledger is not paused, no guarded call is running, the client
    is neither the zero address nor the caller, the amount is positive, the
    token is on the allow-list, the payment window is within one to ninety
    days, the discount is at most 1000 basis points, the metadata reference
    is not empty, and neither the id counter nor the due date overflows. *)
Theorem createInvoice_succeeds_iff
    (m : Msg) (_client : address) (_amount : N) (_token : address)
    (_terms : PaymentTerms) (_ipfsHash : string) (w : World) :
  (exists w',
     dispatch m (CreateInvoice _client _amount _token _terms _ipfsHash) w
     = Ok (tt, w'))
  <->
  value m = 0 /\
  paused (store w) = false /\ entered (store w) = false /\
  _client <> 0 /\ _client <> sender m /\ 0 < _amount /\
  supportedTokens (store w) _token = true /\
  MIN_PAYMENT_WINDOW <= paymentWindow _terms /\
  paymentWindow _terms <= MAX_PAYMENT_WINDOW /\
  earlyPaymentDiscountBps _terms <= MAX_EARLY_DISCOUNT_BPS /\
  _ipfsHash <> EmptyString /\
  nextInvoiceId (store w) + 1 <= MAX_UINT256 /\
  timestamp m + paymentWindow _terms <= MAX_UINT256.
Proof.
  rewrite (dispatch_nonPayable
             m (CreateInvoice _client _amount _token _terms _ipfsHash) w
             eq_refl).
  rewrite <- (createInvoice_body_succeeds_iff m _client _amount _token
                _terms _ipfsHash w).
  cbn [invoke]. unfold bind, ret.
  destruct (N.eqb_spec (value m) 0) as [V|V].
  - destruct (createInvoice m _client _amount _token _terms _ipfsHash w)
      as [[i w1]|e].
    + split; [intros _; split; [exact V | eauto] | intros _; eauto].
    + split; [intros (w' & H); discriminate H
             | intros (_ & i & w' & H); discriminate H].
  - split; [intros (w' & H); discriminate H | intros (V0 & _); now elim V].
Qed.

Lemma createInvoice_succeeds_iff_witness :
  exists w',
    dispatch (mkMsg 20 0 1000)
             (CreateInvoice 21 1000 0 Scenario.terms1 "Qm1") Scenario.genesis
    = Ok (tt, w').
Proof.
  apply (createInvoice_succeeds_iff (mkMsg 20 0 1000) 21 1000 0
           Scenario.terms1 "Qm1" Scenario.genesis).
  vm_compute. repeat split; discriminate.
Defined.

(** X9. A successful [createInvoice] returns the current [nextInvoiceId]
    and advances it by one; it stores under that id the request as given,
    with the caller as provider, status [Created], [paidAt = 0] and the
    derived dates; it appends the id to the provider's and to the client's
    index; it leaves every other invoice, every other index entry, all escrow
    balances and all asset balances as they were. *)
Theorem createInvoice_records_request
    (m : Msg) (_client : address) (_amount : N) (_token : address)
    (_terms : PaymentTerms) (_ipfsHash : string) (w w' : World) (i : N) :
  createInvoice m _client _amount _token _terms _ipfsHash w = Ok (i, w') ->
  i = nextInvoiceId (store w) /\
  nextInvoiceId (store w') = i + 1 /\
  getInvoice w' i
  = mkInvoice i (sender m) _client _amount _token
      (mkTerms (paymentWindow _terms) (earlyPaymentDiscountBps _terms)
         (if 0 <? earlyPaymentDiscountBps _terms
          then timestamp m + paymentWindow _terms / 2 else 0)
         (requiresApproval _terms) (arbitrator _terms))
      Created (timestamp m) (timestamp m + paymentWindow _terms) 0
      _ipfsHash /\
  getProviderInvoices w' (sender m)
  = getProviderInvoices w (sender m) ++ [i] /\
  getClientInvoices w' _client = getClientInvoices w _client ++ [i] /\
  (forall a, a <> sender m ->
             getProviderInvoices w' a = getProviderInvoices w a) /\
  (forall a, a <> _client ->
             getClientInvoices w' a = getClientInvoices w a) /\
  (forall j, j <> i -> getInvoice w' j = getInvoice w j) /\
  (forall j, getEscrowBalance w' j = getEscrowBalance w j) /\
  chain w' = chain w.
Proof.
  intros H. open_named w. destruct m as [snd_ val now].
  unfold getInvoice, getProviderInvoices, getClientInvoices,
    getEscrowBalance.
  expand_goal. unfold createInvoice in H.
  split_run H.
  all: injection H as <- <-; expand_goal; rewrite ?upd_same.
  all: repeat split; auto.
  all: intros; apply upd_other; assumption.
Qed.

Lemma createInvoice_records_request_witness :
  getProviderInvoices Scenario.created1 20 = [1] /\
  nextInvoiceId (store Scenario.created1) = 2.
Proof.
  destruct (createInvoice_records_request (mkMsg 20 0 1000) 21 1000 0
              Scenario.terms1 "Qm1" Scenario.genesis Scenario.created1 1)
    as (_ & Nx & _ & P & _); [vm_compute; reflexivity|].
  split; [exact P | exact Nx].
Defined.

(** When the body of [cancelInvoice] succeeds, and what it does. *)
Lemma cancelInvoice_body_exact (m : Msg) (i : N) (w : World) :
  ((exists w', cancelInvoice m i w = Ok (tt, w')) <->
   paused (store w) = false /\
   id (getInvoice w i) <> 0 /\
   provider (getInvoice w i) = sender m /\
   status (getInvoice w i) = Created) /\
  (forall w',
     cancelInvoice m i w = Ok (tt, w') ->
     trace w' = trace w ++
       [Store (W_status i Cancelled); Emit (InvoiceCancelled i (sender m))] /\
     status (getInvoice w' i) = Cancelled /\
     (forall j, j <> i -> getInvoice w' j = getInvoice w j) /\
     (forall j, getEscrowBalance w' j = getEscrowBalance w j) /\
     chain w' = chain w).
Proof.
  open_named w. destruct m as [snd_ val now].
  unfold getInvoice, getEscrowBalance. expand_goal.
  split; [split|].
  - intros (w' & H). unfold cancelInvoice in H. split_run H.
    to_Prop. repeat split; auto.
  - intros (P & X & Pr & S). subst. boolify.
    destruct (cancelInvoice _ i _) as [[[] w']|e] eqn:H; [eauto|exfalso].
    unfold cancelInvoice in H. feed_more H. discriminate H.
  - intros w' H. unfold cancelInvoice in H. split_run H.
    injection H as <-; expand_goal; rewrite ?upd_same.
    repeat rewrite <- app_assoc; simpl app.
    repeat split; auto.
    intros; apply upd_other; assumption.
Qed.

(** When the body of [raiseDispute] succeeds, and what it does. *)
Lemma raiseDispute_body_exact (m : Msg) (i : N) (r : string) (w : World) :
  ((exists w', raiseDispute m i r w = Ok (tt, w')) <->
   paused (store w) = false /\
   id (getInvoice w i) <> 0 /\
   (provider (getInvoice w i) = sender m \/
    client (getInvoice w i) = sender m) /\
   (status (getInvoice w i) = Paid \/ status (getInvoice w i) = Approved) /\
   r <> EmptyString) /\
  (forall w',
     raiseDispute m i r w = Ok (tt, w') ->
     (forall j, getEscrowBalance w' j = getEscrowBalance w j) /\
     (forall j, j <> i -> getInvoice w' j = getInvoice w j) /\
     chain w' = chain w).
Proof.
  open_named w. destruct m as [snd_ val now].
  unfold getInvoice, getEscrowBalance. expand_goal.
  split; [split|].
  - intros (w' & H). unfold raiseDispute in H. split_run H.
    all: rewrite nonempty_length.
    all: to_Prop; repeat split; auto.
    all: apply N.ltb_lt; assumption.
  - intros (P & X & Who & S & Hr). subst.
    apply nonempty_length in Hr.
    assert (Hw : (provider (invoices0 i) =? snd_)
                 || (client (invoices0 i) =? snd_) = true).
    { apply orb_true_iff. destruct Who as [E|E]; [left|right];
        now apply N.eqb_eq. }
    assert (Hs : status_eqb (status (invoices0 i)) Paid
                 || status_eqb (status (invoices0 i)) Approved = true).
    { apply orb_true_iff. destruct S as [E|E]; [left|right];
        now apply status_eqb_eq. }
    clear Who S. boolify.
    destruct (raiseDispute _ i r _) as [[[] w']|e] eqn:H; [eauto|exfalso].
    unfold raiseDispute in H. feed_more H. discriminate H.
  - intros w' H. unfold raiseDispute in H. split_run H.
    all: injection H as <-; expand_goal; rewrite ?upd_same.
    all: repeat split; auto.
    all: intros; rewrite upd_other by assumption; reflexivity.
Qed.

(** X10. A call to [cancelInvoice] succeeds exactly when it carries no
    value, the ledger is not paused, the invoice exists, the caller is its
    provider and it is [Created].  It then sets the status to [Cancelled]
    and reports it, and does nothing else: no escrow balance, no other
    invoice and no asset balance changes. *)
Theorem cancelInvoice_exact (m : Msg) (i : N) (w : World) :
  ((exists w', dispatch m (CancelInvoice i) w = Ok (tt, w')) <->
   value m = 0 /\
   paused (store w) = false /\
   id (getInvoice w i) <> 0 /\
   provider (getInvoice w i) = sender m /\
   status (getInvoice w i) = Created) /\
  (forall w',
     dispatch m (CancelInvoice i) w = Ok (tt, w') ->
     trace w' = trace w ++
       [Store (W_status i Cancelled); Emit (InvoiceCancelled i (sender m))] /\
     status (getInvoice w' i) = Cancelled /\
     (forall j, j <> i -> getInvoice w' j = getInvoice w j) /\
     (forall j, getEscrowBalance w' j = getEscrowBalance w j) /\
     chain w' = chain w).
Proof.
  rewrite (dispatch_nonPayable m (CancelInvoice i) w eq_refl).
  cbn [invoke].
  destruct (cancelInvoice_body_exact m i w) as (When & What).
  destruct (N.eqb_spec (value m) 0) as [V|V].
  - split; [|exact What]. rewrite When. tauto.
  - split.
    + split; [intros (w' & H); discriminate H
             | intros (V0 & _); now elim V].
    + intros w' H. discriminate H.
Qed.

(** X11. A call to [raiseDispute] succeeds exactly when it carries no
    value, the ledger is not paused, the invoice exists, the caller is its
    provider or its client, the status is [Paid] or [Approved] and the
    reason is not empty.  It moves no funds: every escrow balance and every
    asset balance stays as it was. *)
Theorem raiseDispute_exact (m : Msg) (i : N) (r : string) (w : World) :
  ((exists w', dispatch m (RaiseDispute i r) w = Ok (tt, w')) <->
   value m = 0 /\
   paused (store w) = false /\
   id (getInvoice w i) <> 0 /\
   (provider (getInvoice w i) = sender m \/
    client (getInvoice w i) = sender m) /\
   (status (getInvoice w i) = Paid \/ status (getInvoice w i) = Approved) /\
   r <> EmptyString) /\
  (forall w',
     dispatch m (RaiseDispute i r) w = Ok (tt, w') ->
     (forall j, getEscrowBalance w' j = getEscrowBalance w j) /\
     (forall j, j <> i -> getInvoice w' j = getInvoice w j) /\
     chain w' = chain w).
Proof.
  rewrite (dispatch_nonPayable m (RaiseDispute i r) w eq_refl).
  cbn [invoke].
  destruct (raiseDispute_body_exact m i r w) as (When & What).
  destruct (N.eqb_spec (value m) 0) as [V|V].
  - split; [|exact What]. rewrite When. tauto.
  - split.
    + split; [intros (w' & H); discriminate H
             | intros (V0 & _); now elim V].
    + intros w' H. discriminate H.
Qed.

Lemma cancelInvoice_exact_witness :
  status (getInvoice (exec (mkMsg 20 0 1500) (CancelInvoice 2)
                           Scenario.created2) 2) = Cancelled.
Proof.
  destruct (cancelInvoice_exact (mkMsg 20 0 1500) 2 Scenario.created2)
    as (_ & Effects).
  apply (Effects (exec (mkMsg 20 0 1500) (CancelInvoice 2)
                       Scenario.created2)).
  vm_compute. reflexivity.
Defined.

Lemma raiseDispute_exact_witness :
  getEscrowBalance Scenario.disputed2 2 = getEscrowBalance Scenario.paid2 2.
Proof.
  destruct (raiseDispute_exact (mkMsg 20 0 3000) 2 "late delivery"
              Scenario.paid2) as (_ & Effects).
  apply (Effects Scenario.disputed2). vm_compute. reflexivity.
Defined.

(** * Rejections *)

Ltac unfold_calls H :=
  unfold invoke, createInvoice, makePayment, approveInvoice, raiseDispute,
    resolveDispute, cancelInvoice, addSupportedToken, removeSupportedToken,
    setFeeCollector, pause, unpause, emergencyWithdraw, transferOwnership,
    renounceOwnership in H.

Lemma unknown_invoice_error (m : Msg) (c : Call) (i : N) (w : World) :
  paused (store w) = false ->
  entered (store w) = false ->
  id (invoices (store w) i) = 0 ->
  is_lifecycle_on i c = true ->
  invoke m c w = Err (Revert "Invoice does not exist").
Proof.
  intros P E X L.
  destruct (invoke m c w) as [[[] w']|e] eqn:H.
  - exfalso. open_named w. destruct m as [snd_ val now]. expand_all. subst.
    destruct c; simpl in L; try discriminate L;
      apply N.eqb_eq in L; subst; unfold_calls H.
    all: split_run H.
    all: to_Prop; congruence.
  - f_equal. open_named w. destruct m as [snd_ val now]. expand_all. subst.
    apply N.eqb_eq in X.
    destruct c; simpl in L; try discriminate L;
      apply N.eqb_eq in L; subst; unfold_calls H.
    all: feed_more H.
    all: injection H as <-; reflexivity.
Qed.

(** X12. A lifecycle function applied to an id under which no invoice is
    stored fails with "Invoice does not exist" when the ledger is not paused,
    and the transaction changes nothing. *)
Theorem unknown_invoice_rejected (m : Msg) (c : Call) (i : N) (w : World) :
  paused (store w) = false ->
  entered (store w) = false ->
  id (getInvoice w i) = 0 ->
  is_lifecycle_on i c = true ->
  invoke m c w = Err (Revert "Invoice does not exist") /\
  exec m c w = w.
Proof.
  intros P E X L. unfold getInvoice in X. split.
  - now apply unknown_invoice_error with (i := i).
  - apply exec_unchanged. intros w1 S. eexists.
    apply unknown_invoice_error with (i := i); try rewrite S; assumption.
Qed.

Lemma unknown_invoice_rejected_witness :
  invoke (mkMsg 21 0 2500) (ApproveInvoice 7) Scenario.paid2
  = Err (Revert "Invoice does not exist").
Proof.
  apply (unknown_invoice_rejected (mkMsg 21 0 2500) (ApproveInvoice 7) 7
           Scenario.paid2); reflexivity.
Defined.

Lemma wrong_caller_error (m : Msg) (c : Call) (i : N) (w : World) :
  paused (store w) = false ->
  entered (store w) = false ->
  id (invoices (store w) i) <> 0 ->
  is_lifecycle_on i c = true ->
  has_role m (invoices (store w) i) c = false ->
  invoke m c w
  = Err (Revert match c with
                | CancelInvoice _ => "Only provider can call this"
                | RaiseDispute _ _ => "Only provider or client can call this"
                | _ => "Only client can call this"
                end).
Proof.
  intros P E X L R.
  destruct (invoke m c w) as [[[] w']|e] eqn:H.
  - exfalso. open_named w. destruct m as [snd_ val now]. expand_all. subst.
    destruct c; simpl in L; try discriminate L;
      apply N.eqb_eq in L; subst; cbn [has_role] in R; expand_all;
      unfold_calls H.
    all: try discriminate R.
    all: split_run H.
    all: congruence.
  - f_equal. open_named w. destruct m as [snd_ val now]. expand_all. subst.
    apply N.eqb_neq in X.
    destruct c; simpl in L; try discriminate L;
      apply N.eqb_eq in L; subst; cbn [has_role] in R; expand_all;
      unfold_calls H.
    all: try discriminate R.
    all: feed_more H.
    all: injection H as <-; reflexivity.
Qed.

(** X13. A caller without the role a lifecycle function asks for is
    rejected with the authorization error of that function: only the client
    can pay and approve, only the provider can cancel, only the provider or
    the client can raise a dispute, and only the arbitrator of the invoice
    or the owner can resolve one.  The transaction changes nothing. *)
Theorem wrong_caller_rejected (m : Msg) (c : Call) (i : N) (w : World) :
  paused (store w) = false ->
  entered (store w) = false ->
  id (getInvoice w i) <> 0 ->
  is_lifecycle_on i c = true ->
  (has_role m (getInvoice w i) c = false ->
   invoke m c w
   = Err (Revert match c with
                 | CancelInvoice _ => "Only provider can call this"
                 | RaiseDispute _ _ => "Only provider or client can call this"
                 | _ => "Only client can call this"
                 end) /\
   exec m c w = w) /\
  (forall favor,
     c = ResolveDispute i favor ->
     status (getInvoice w i) = Disputed ->
     sender m <> arbitrator (terms (getInvoice w i)) ->
     sender m <> owner (store w) ->
     invoke m c w = Err (Revert "Only arbitrator can resolve dispute") /\
     exec m c w = w).
Proof.
  intros P E X L. unfold getInvoice in *. split.
  - intros R. split.
    + now apply wrong_caller_error with (i := i).
    + apply exec_unchanged. intros w1 S. eexists.
      apply wrong_caller_error with (i := i); try rewrite S; assumption.
  - intros favor -> St Na No.
    assert (F : forall w1, store w1 = store w ->
                invoke m (ResolveDispute i favor) w1
                = Err (Revert "Only arbitrator can resolve dispute")).
    { intros w1 S. rewrite <- S in *. clear S w.
      destruct (invoke m (ResolveDispute i favor) w1) as [[[] w']|e] eqn:H.
      - exfalso. open_named w1. destruct m as [snd_ val now]. expand_all.
        subst. unfold_calls H. split_run H.
        all: to_Prop; congruence.
      - f_equal. open_named w1. destruct m as [snd_ val now]. expand_all.
        subst. boolify. unfold_calls H. feed_more H.
        injection H as <-; reflexivity. }
    split; [now apply F|].
    apply exec_unchanged. intros w1 S. eexists. now apply F.
Qed.

Lemma wrong_caller_rejected_witness :
  invoke (mkMsg 22 0 2500) (ApproveInvoice 2) Scenario.paid2
  = Err (Revert "Only client can call this") /\
  invoke (mkMsg 22 0 3500) (ResolveDispute 2 true) Scenario.disputed2
  = Err (Revert "Only arbitrator can resolve dispute").
Proof.
  assert (X1 : id (getInvoice Scenario.paid2 2) <> 0)
    by (vm_compute; discriminate).
  assert (X2 : id (getInvoice Scenario.disputed2 2) <> 0)
    by (vm_compute; discriminate).
  pose proof (wrong_caller_rejected (mkMsg 22 0 2500) (ApproveInvoice 2) 2
                Scenario.paid2 eq_refl eq_refl X1 eq_refl) as (Role & _).
  pose proof (wrong_caller_rejected (mkMsg 22 0 3500) (ResolveDispute 2 true)
                2 Scenario.disputed2 eq_refl eq_refl X2 eq_refl)
    as (_ & Resolve).
  split.
  - apply Role. reflexivity.
  - apply (Resolve true eq_refl eq_refl); vm_compute; discriminate.
Defined.

(** * The administrative surface *)

Lemma paused_error (m : Msg) (c : Call) (w : World) :
  paused (store w) = true ->
  is_user_call c = true ->
  invoke m c w = Err EnforcedPause.
Proof.
  intros P U. open_named w. destruct m as [snd_ val now]. expand_all. subst.
  destruct c; try discriminate U; reflexivity.
Qed.

(** X14. While the ledger is paused every user-facing function
    ([createInvoice], [makePayment], [approveInvoice], [raiseDispute],
    [resolveDispute], [cancelInvoice]) fails with the pause error and changes
    nothing: funds in escrow can be neither released nor refunded until the
    owner unpauses. *)
Theorem paused_ledger_rejects_users (m : Msg) (c : Call) (w : World) :
  paused (store w) = true ->
  is_user_call c = true ->
  invoke m c w = Err EnforcedPause /\ exec m c w = w.
Proof.
  intros P U. split; [now apply paused_error|].
  apply exec_unchanged. intros w1 S. eexists.
  apply paused_error; [now rewrite S | exact U].
Qed.

Lemma paused_ledger_rejects_users_witness :
  invoke (mkMsg 12 0 4000) (ResolveDispute 2 false)
         (exec (mkMsg 10 0 3500) Pause Scenario.disputed2)
  = Err EnforcedPause.
Proof.
  apply (paused_ledger_rejects_users (mkMsg 12 0 4000)
           (ResolveDispute 2 false)
           (exec (mkMsg 10 0 3500) Pause Scenario.disputed2));
    reflexivity.
Defined.



Lemma not_owner_error (m : Msg) (c : Call) (w : World) :
  sender m <> owner (store w) ->
  is_owner_call c = true ->
  invoke m c w = Err (OwnableUnauthorizedAccount (sender m)).
Proof.
  intros O U. open_named w. destruct m as [snd_ val now]. expand_all.
  apply not_eq_sym in O. apply N.eqb_neq in O.
  destruct c; try discriminate U.
  all: cbv beta iota zeta delta
         [invoke addSupportedToken removeSupportedToken setFeeCollector pause
          unpause emergencyWithdraw transferOwnership renounceOwnership
          bind get_store onlyOwner store owner sender].
  all: now rewrite O.
Qed.

(** X16. Every administrative function (token allow-list, fee collector,
    pause switch, emergency withdrawal, ownership) rejects a caller who is
    not the owner, and the transaction changes nothing. *)
Theorem owner_only (m : Msg) (c : Call) (w : World) :
  sender m <> owner (store w) ->
  is_owner_call c = true ->
  invoke m c w = Err (OwnableUnauthorizedAccount (sender m)) /\
  exec m c w = w.
Proof.
  intros O U. split; [now apply not_owner_error|].
  apply exec_unchanged. intros w1 S. eexists.
  apply not_owner_error; [now rewrite S | exact U].
Qed.

Lemma owner_only_witness :
  exec (mkMsg 22 0 2500) (SetFeeCollector 22) Scenario.paid2
  = Scenario.paid2.
Proof.
  apply (owner_only (mkMsg 22 0 2500) (SetFeeCollector 22) Scenario.paid2).
  - vm_compute. discriminate.
  - reflexivity.
Defined.

Lemma exec_admin_frame (m : Msg) (c : Call) (w : World) :
  ((forall t, c <> AddSupportedToken t) ->
   (forall t, c <> RemoveSupportedToken t) ->
   forall t, supportedTokens (store (exec m c w)) t
             = supportedTokens (store w) t) /\
  ((forall a, c <> SetFeeCollector a) ->
   feeCollector (store (exec m c w)) = feeCollector (store w)) /\
  ((forall a, c <> TransferOwnership a) -> c <> RenounceOwnership ->
   owner (store (exec m c w)) = owner (store w)) /\
  (c <> Pause -> c <> Unpause ->
   paused (store (exec m c w)) = paused (store w)).
Proof.
  unfold exec, after.
  destruct (dispatch m c w) as [[[] w']|e] eqn:H;
    [|repeat split; intros; reflexivity].
  open_named w. destruct m as [snd_ val now]. expand_all.
  destruct c; unfold dispatch, payable in H; unfold_calls H;
    unfold _releaseFunds in H.
  all: split_run H.
  all: injection H as <-; expand_goal.
  all: repeat split; intros; try reflexivity.
  all: exfalso;
       match goal with
       | N : forall _, _ <> _ |- _ => solve [eapply N; reflexivity]
       | N : ?x <> ?x |- _ => apply N; reflexivity
       end.
Qed.





(** * Arithmetic edges of the settlement *)

Lemma fee_is_two_hundredth (e : N) : e * 50 / 10000 = e / 200.
Proof.
  change 10000 with (200 * 50). now rewrite N.Div0.div_mul_cancel_r.
Qed.

(** X19. The platform fee of a settlement is the escrow balance divided
    by 200, rounded down.  A successful settlement zeroes the escrow
    balance, completes the invoice, sends the balance less the fee to the
    provider and the fee to the fee collector, in the token of the invoice,
    and reports both amounts; when provider, collector and ledger are three
    different accounts their balances move by exactly these amounts.  A
    settlement of fewer than 200 units charges no fee and sends the whole
    balance to the provider. *)
Theorem releaseFunds_fee_rounds_down (i : N) (w w' : World) :
  _releaseFunds i w = Ok (tt, w') ->
  let e := escrowBalances (store w) i in
  let inv := invoices (store w) i in
  let fc := feeCollector (store w) in
  let send := fun (to : address) (v : N) =>
                if token inv =? 0 then NativeSend to v
                else TokenSend (token inv) to v in
  let balance := fun (c : Chain) (a : address) =>
                   if token inv =? 0 then nativeBalance c a
                   else tokenBalance c (token inv) a in
  trace w' = trace w ++
    [ Store (W_escrowBalance i 0); Store (W_status i Completed);
      send (provider inv) (e - e / 200); send fc (e / 200);
      Emit (FundsReleased i (provider inv) (e - e / 200) (e / 200)) ] /\
  (e / 200) * 200 <= e /\ e < (e / 200 + 1) * 200 /\
  (provider inv <> this w -> fc <> this w -> provider inv <> fc ->
   balance (chain w') (provider inv)
   = balance (chain w) (provider inv) + (e - e / 200) /\
   balance (chain w') fc = balance (chain w) fc + e / 200 /\
   balance (chain w') (this w) + e = balance (chain w) (this w)) /\
  (e < 200 ->
   In (send (provider inv) e) (trace w') /\ In (send fc 0) (trace w')).
Proof.
  intros H. cbv zeta.
  pose proof (N.Div0.mul_div_le (escrowBalances (store w) i) 200) as Lo.
  pose proof (N.mul_succ_div_gt (escrowBalances (store w) i) 200) as Hi.
  assert (T : trace w' = trace w ++
    [ Store (W_escrowBalance i 0); Store (W_status i Completed);
      (if token (invoices (store w) i) =? 0
       then NativeSend (provider (invoices (store w) i))
              (escrowBalances (store w) i - escrowBalances (store w) i / 200)
       else TokenSend (token (invoices (store w) i))
              (provider (invoices (store w) i))
              (escrowBalances (store w) i
               - escrowBalances (store w) i / 200));
      (if token (invoices (store w) i) =? 0
       then NativeSend (feeCollector (store w))
              (escrowBalances (store w) i / 200)
       else TokenSend (token (invoices (store w) i))
              (feeCollector (store w)) (escrowBalances (store w) i / 200));
      Emit (FundsReleased i (provider (invoices (store w) i))
              (escrowBalances (store w) i - escrowBalances (store w) i / 200)
              (escrowBalances (store w) i / 200)) ]).
  { rewrite <- !fee_is_two_hundredth.
    open_world w. expand_goal. unfold _releaseFunds in H. split_run H.
    all: injection H as <-; expand_goal.
    all: repeat rewrite <- app_assoc; reflexivity. }
  split; [exact T|]. split; [lia|]. split; [lia|]. split.
  - intros Pt Ft Pf. rewrite <- !fee_is_two_hundredth.
    clear T Lo Hi.
    open_world w. expand_all. unfold _releaseFunds in H. split_run H.
    all: injection H as <-; expand_goal.
    all: to_Prop; unfold PLATFORM_FEE_BPS in *.
    all: balances.
    all: try congruence.
    all: quotients; repeat split; lia.
  - intros Small. rewrite T.
    rewrite (N.div_small _ _ Small), N.sub_0_r.
    split; apply in_or_app; right; cbn [In]; tauto.
Qed.

Lemma releaseFunds_fee_rounds_down_witness :
  trace Scenario.released2
  = trace Scenario.approving2 ++
    [ Store (W_escrowBalance 2 0); Store (W_status 2 Completed);
      NativeSend 20 995; NativeSend 11 5;
      Emit (FundsReleased 2 20 995 5) ] /\
  nativeBalance (chain Scenario.released2) 20
  = nativeBalance (chain Scenario.approving2) 20 + 995.
Proof.
  destruct (releaseFunds_fee_rounds_down 2 Scenario.approving2
              Scenario.released2) as (T & _ & _ & B & _);
    [vm_compute; reflexivity|].
  split; [exact T|].
  refine (proj1 (B _ _ _)); vm_compute; discriminate.
Defined.

(** X20. The checked multiplications abort a call with a panic: a
    settlement of an escrow balance above [MAX_UINT256 / 50] never goes
    through, neither directly nor through [approveInvoice], and an early
    payment of an invoice whose amount times its discount exceeds
    [MAX_UINT256] is refused. *)
Theorem checked_multiplication_panics (m : Msg) (i : N) (w : World) :
  let inv := invoices (store w) i in
  let e := escrowBalances (store w) i in
  (status inv = Approved -> 0 < e -> MAX_UINT256 < e * 50 ->
   _releaseFunds i w = Err Panic) /\
  (paused (store w) = false -> id inv <> 0 -> client inv = sender m ->
   status inv = Paid -> requiresApproval (terms inv) = true ->
   0 < e -> MAX_UINT256 < e * 50 ->
   approveInvoice m i w = Err Panic) /\
  (paused (store w) = false -> entered (store w) = false ->
   id inv <> 0 -> client inv = sender m -> status inv = Created ->
   timestamp m <= dueDate inv ->
   0 < earlyPaymentDiscountBps (terms inv) ->
   timestamp m <= earlyPaymentDeadline (terms inv) ->
   MAX_UINT256 < amount inv * earlyPaymentDiscountBps (terms inv) ->
   makePayment m i w = Err Panic).
Proof.
  cbv zeta. open_named w. destruct m as [snd_ val now]. expand_goal.
  split; [|split].
  - intros S P O. apply N.leb_gt in O. boolify.
    destruct (_releaseFunds i _) as [[[] w']|e] eqn:H;
      unfold _releaseFunds, PLATFORM_FEE_BPS in H.
    + exfalso. feed_more H. discriminate H.
    + feed_more H. now injection H as <-.
  - intros Pa X C S A P O. subst. apply N.leb_gt in O. boolify.
    destruct (approveInvoice _ i _) as [[[] w']|e] eqn:H;
      unfold approveInvoice, _releaseFunds, PLATFORM_FEE_BPS in H.
    + exfalso. feed_more H. discriminate H.
    + feed_more H. now injection H as <-.
  - intros Pa En X C S D B E O. subst. apply N.leb_gt in O. boolify.
    destruct (makePayment _ i _) as [[[] w']|e] eqn:H;
      unfold makePayment, _releaseFunds, PLATFORM_FEE_BPS in H.
    + exfalso. feed_more H. discriminate H.
    + feed_more H. now injection H as <-.
Qed.

Lemma checked_multiplication_panics_witness :
  approveInvoice (mkMsg 21 0 3000) 2 Edge.paid2 = Err Panic /\
  makePayment (mkMsg 21 MAX_UINT256 2000) 1 Edge.paid2 = Err Panic.
Proof.
  destruct (checked_multiplication_panics (mkMsg 21 0 3000) 2 Edge.paid2)
    as (_ & Approve & _).
  destruct (checked_multiplication_panics (mkMsg 21 MAX_UINT256 2000) 1
              Edge.paid2) as (_ & _ & Pay).
  split.
  - apply Approve; try reflexivity; vm_compute; try reflexivity;
      discriminate.
  - apply Pay; try reflexivity; vm_compute; try reflexivity; discriminate.
Defined.

(** * The reentrancy guard *)

(** X21. While a guarded call is running, [createInvoice] and
    [makePayment] refuse to start; between transactions the guard is always
    released. *)
Theorem guard_blocks_nested_calls (m : Msg) (w : World) :
  (paused (store w) = false -> entered (store w) = true ->
   (forall cl a t tm h,
      createInvoice m cl a t tm h w = Err ReentrancyGuardReentrantCall) /\
   (forall i, makePayment m i w = Err ReentrancyGuardReentrantCall)) /\
  (reachable w -> entered (store w) = false).
Proof.
  split.
  - intros P E. open_named w. destruct m as [snd_ val now]. expand_all.
    subst. split; intros; reflexivity.
  - intros R. apply reachable_by_consistent in R. apply (cons_entered _ R).
Qed.

Lemma guard_blocks_nested_calls_witness :
  entered (store Scenario.paid2) = false.
Proof.
  apply (guard_blocks_nested_calls (mkMsg 21 0 2500) Scenario.paid2).
  exact paid2_reachable.
Defined.

(** * A payment followed through *)

Lemma makePayment_escrows (m : Msg) (i : N) (w w' : World) :
  makePayment m i w = Ok (tt, w') ->
  requiresApproval (terms (invoices (store w) i)) = true ->
  let inv := invoices (store w) i in
  let bps := earlyPaymentDiscountBps (terms inv) in
  let early := (0 <? bps) && (timestamp m <=? earlyPaymentDeadline (terms inv)) in
  let pay := if early then amount inv - amount inv * bps / 10000
             else amount inv in
  client inv = sender m /\
  escrowBalances (store w') i = pay /\
  with_paidAt (with_status (invoices (store w') i) Created) 0
  = with_paidAt (with_status inv Created) 0 /\
  feeCollector (store w') = feeCollector (store w) /\
  owner (store w') = owner (store w).
Proof.
  intros H A. open_named w. destruct m as [snd_ val now]. expand_goal.
  expand_in A. unfold makePayment, _releaseFunds in H.
  split_run H.
  all: try discriminate.
  all: injection H as <-; expand_goal; rewrite ?upd_same.
  all: to_Prop; repeat split; auto.
Qed.

Lemma raiseDispute_keeps (m : Msg) (i : N) (r : string) (w w' : World) :
  raiseDispute m i r w = Ok (tt, w') ->
  escrowBalances (store w') i = escrowBalances (store w) i /\
  with_paidAt (with_status (invoices (store w') i) Created) 0
  = with_paidAt (with_status (invoices (store w) i) Created) 0 /\
  feeCollector (store w') = feeCollector (store w) /\
  owner (store w') = owner (store w).
Proof.
  intros H. open_named w. destruct m as [snd_ val now]. expand_goal.
  unfold raiseDispute in H. split_run H.
  all: injection H as <-; expand_goal; rewrite ?upd_same.
  all: repeat split; auto.
Qed.

Lemma same_core (a b : Invoice) :
  with_paidAt (with_status a Created) 0
  = with_paidAt (with_status b Created) 0 ->
  provider a = provider b /\ client a = client b /\ token a = token b /\
  amount a = amount b /\ terms a = terms b.
Proof.
  intros E. repeat split.
  - exact (f_equal provider E).
  - exact (f_equal client E).
  - exact (f_equal token E).
  - exact (f_equal amount E).
  - exact (f_equal terms E).
Qed.

(** X22. What the client pays into escrow is what comes out again.  After
    a successful payment of an invoice with approval step, a successful
    [approveInvoice] sends the amount paid less one two-hundredth to the
    provider and that two-hundredth to the fee collector; and after a
    dispute, a resolution against the provider sends the whole amount paid
    back to the client who paid it. *)
Theorem payment_is_paid_out_or_returned
    (m1 : Msg) (i : N) (w0 w1 : World) :
  makePayment m1 i w0 = Ok (tt, w1) ->
  requiresApproval (terms (invoices (store w0) i)) = true ->
  let inv := invoices (store w0) i in
  let bps := earlyPaymentDiscountBps (terms inv) in
  let early := (0 <? bps)
               && (timestamp m1 <=? earlyPaymentDeadline (terms inv)) in
  let pay := if early then amount inv - amount inv * bps / 10000
             else amount inv in
  let send := fun (to : address) (v : N) =>
                if token inv =? 0 then NativeSend to v
                else TokenSend (token inv) to v in
  (forall m2 w2,
     approveInvoice m2 i w1 = Ok (tt, w2) ->
     In (send (provider inv) (pay - pay / 200)) (trace w2) /\
     In (send (feeCollector (store w0)) (pay / 200)) (trace w2)) /\
  (forall m2 r w2 m3 w3,
     raiseDispute m2 i r w1 = Ok (tt, w2) ->
     resolveDispute m3 i false w2 = Ok (tt, w3) ->
     trace w3 = trace w2 ++
       [ Store (W_escrowBalance i 0); Store (W_status i Refunded);
         send (sender m1) pay;
         Emit (DisputeResolved i (sender m3) false) ]).
Proof.
  intros P A. cbv zeta.
  destruct (makePayment_escrows _ _ _ _ P A) as (Cl & Esc & Core & Fc & _).
  cbv zeta in Esc. apply same_core in Core.
  destruct Core as (Cp & Cc & Ct & _).
  split.
  - intros m2 w2 H. apply approveInvoice_run in H. cbv zeta in H.
    destruct H as (_ & _ & Htr & _).
    rewrite Esc, Cp, Ct, Fc, !fee_is_two_hundredth in Htr. rewrite Htr.
    split; apply in_or_app; right;
      destruct (token (invoices (store w0) i) =? 0); simpl; auto 10.
  - intros m2 r w2 m3 w3 D R.
    destruct (raiseDispute_keeps _ _ _ _ _ D) as (Esc2 & Core2 & _).
    apply same_core in Core2. destruct Core2 as (_ & Cc2 & Ct2 & _).
    rewrite <- Cl, <- Cc, <- Cc2, <- Esc, <- Esc2, <- Ct, <- Ct2.
    clear - R. open_named w2. destruct m3 as [snd_ val now]. expand_goal.
    unfold resolveDispute in R. split_run R.
    all: injection R as <-; expand_goal.
    all: repeat rewrite <- app_assoc; reflexivity.
Qed.

Lemma payment_is_paid_out_or_returned_witness :
  let w1 := after (makePayment (mkMsg 21 1000 2000) 2) Scenario.settled1 in
  let w2 := after (raiseDispute (mkMsg 20 0 3000) 2 "late delivery") w1 in
  let w3 := after (resolveDispute (mkMsg 12 0 4000) 2 false) w2 in
  trace w3 = trace w2 ++
    [ Store (W_escrowBalance 2 0); Store (W_status 2 Refunded);
      NativeSend 21 1000;
      Emit (DisputeResolved 2 12 false) ].
Proof.
  intros w1 w2 w3.
  destruct (payment_is_paid_out_or_returned (mkMsg 21 1000 2000) 2
              Scenario.settled1 w1)
    as (_ & Refund); [vm_compute; reflexivity | reflexivity |].
  apply (Refund (mkMsg 20 0 3000) "late delivery" w2 (mkMsg 12 0 4000) w3).
  - vm_compute. reflexivity.
  - vm_compute. reflexivity.
Defined.

(** * Holdings of the ledger *)

(** Decides the address comparisons that the hypotheses settle. *)
Ltac known_eqb :=
  rewrite ?N.eqb_refl in *;
  repeat match goal with
  | D : ?a <> ?b |- _ =>
      progress (rewrite ?(proj2 (N.eqb_neq a b) D),
                        ?(proj2 (N.eqb_neq b a) (not_eq_sym D)) in * )
  end.

Ltac holdings :=
  unfold PLATFORM_FEE_BPS in *; to_Prop;
  unfold held, credit, debit, upd in *; expand_all;
  known_eqb;
  repeat match goal with
  | |- context [if ?a =? ?b then _ else _] =>
      destruct (N.eqb_spec a b); try subst; known_eqb
  | H : context [if ?a =? ?b then _ else _] |- _ =>
      destruct (N.eqb_spec a b); try subst; known_eqb
  end;
  quotients.

(** X23. A payment adds to the ledger's holdings exactly what it puts in
    escrow, in the token of the invoice: with an approval step the holdings
    of that token grow by the new escrow balance; without one the settlement
    pays everything out again within the call and the holdings are as
    before.  Holdings of every other token do not move. *)
Theorem payment_funds_the_escrow (m : Msg) (i : N) (w w' : World) :
  dispatch m (MakePayment i) w = Ok (tt, w') ->
  sender m <> this w ->
  let inv := getInvoice w i in
  (requiresApproval (terms inv) = true ->
   held w' (token inv) = held w (token inv) + getEscrowBalance w' i) /\
  (requiresApproval (terms inv) = false ->
   provider inv <> this w -> feeCollector (store w) <> this w ->
   held w' (token inv) = held w (token inv)) /\
  (forall tok, tok <> token inv -> held w' tok = held w tok).
Proof.
  intros H S. unfold getInvoice, getEscrowBalance. cbv zeta.
  open_named w. destruct m as [snd_ val now]. expand_all.
  unfold dispatch, payable, invoke, makePayment, _releaseFunds in H.
  split_run H.
  all: injection H as <-; expand_goal; rewrite ?upd_same.
  all: repeat split; intros.
  all: try match goal with
       | A : true = false |- _ => discriminate A
       | A : false = true |- _ => discriminate A
       end.
  all: holdings.
  all: lia.
Qed.

Lemma payment_funds_the_escrow_witness :
  held Scenario.paid2 0 = held Scenario.settled1 0 + 1000.
Proof.
  destruct (payment_funds_the_escrow (mkMsg 21 1000 2000) 2
              Scenario.settled1 Scenario.paid2) as (Deposit & _).
  - vm_compute. reflexivity.
  - vm_compute. discriminate.
  - apply Deposit. reflexivity.
Defined.

(** X24. A payout takes out of the ledger's holdings exactly the escrow
    balance of the invoice, in its token, whenever the recipients are not the
    ledger itself: this holds for the settlement that follows an approval and
    for both outcomes of a dispute resolution.  Holdings of every other token
    do not move. *)
Theorem payout_takes_exactly_the_escrow
    (m : Msg) (i : N) (favor : bool) (w w' : World) :
  let inv := getInvoice w i in
  let e := getEscrowBalance w i in
  (approveInvoice m i w = Ok (tt, w') ->
   provider inv <> this w -> feeCollector (store w) <> this w ->
   held w' (token inv) + e = held w (token inv) /\
   forall tok, tok <> token inv -> held w' tok = held w tok) /\
  (resolveDispute m i favor w = Ok (tt, w') ->
   (if favor
    then provider inv <> this w /\ feeCollector (store w) <> this w
    else client inv <> this w) ->
   held w' (token inv) + e = held w (token inv) /\
   forall tok, tok <> token inv -> held w' tok = held w tok).
Proof.
  unfold getInvoice, getEscrowBalance. cbv zeta.
  open_named w. destruct m as [snd_ val now]. expand_all.
  split.
  - intros H Np Nf. unfold approveInvoice, _releaseFunds in H.
    split_run H.
    all: injection H as <-; expand_goal; rewrite ?upd_same.
    all: split; intros.
    all: holdings.
    all: lia.
  - intros H Rcp. unfold resolveDispute in H.
    split_run H.
    all: injection H as <-; expand_goal; rewrite ?upd_same.
    all: cbn iota in Rcp.
    all: match type of Rcp with
         | _ /\ _ => destruct Rcp as [Np Nf]
         | _ => idtac
         end.
    all: split; intros.
    all: holdings.
    all: lia.
Qed.

Lemma payout_takes_exactly_the_escrow_witness :
  held Scenario.refunded2 0 + 1000 = held Scenario.disputed2 0.
Proof.
  destruct (payout_takes_exactly_the_escrow (mkMsg 12 0 4000) 2 false
              Scenario.disputed2 Scenario.refunded2) as (_ & Resolve).
  assert (Run : resolveDispute (mkMsg 12 0 4000) 2 false Scenario.disputed2
                = Ok (tt, Scenario.refunded2)) by (vm_compute; reflexivity).
  assert (Rcp : client (getInvoice Scenario.disputed2 2)
                <> this Scenario.disputed2) by (vm_compute; discriminate).
  destruct (Resolve Run Rcp) as [T _].
  vm_compute in T. vm_compute. exact T.
Defined.

(** * Recipients that refuse a payment *)

(** X25. Settlement pushes the provider's share to the provider: while the
    provider of a natively denominated invoice refuses native payments, no
    call completes that invoice, whoever makes it. *)
Theorem refusing_provider_blocks_settlement
    (m : Msg) (c : Call) (w : World) (i : N) :
  token (getInvoice w i) = 0 ->
  acceptsNative (chain w) (provider (getInvoice w i)) = false ->
  status (getInvoice w i) <> Completed ->
  status (getInvoice (exec m c w) i) <> Completed.
Proof.
  unfold getInvoice, exec, after. intros T A S.
  destruct (dispatch m c w) as [[[] w']|e] eqn:H; [|exact S].
  open_named w. destruct m as [snd_ val now]. expand_all.
  destruct c; unfold dispatch, payable in H; unfold_calls H;
    unfold _releaseFunds in H.
  all: split_run H.
  all: injection H as <-; expand_goal; rewrite ?upd_same.
  all: try exact S.
  all: unfold upd.
  all: repeat match goal with
       | |- context [if ?a =? ?b then _ else _] =>
           destruct (N.eqb_spec a b); [subst|]
       end.
  all: expand_goal.
  all: try exact S.
  all: try discriminate.
  all: exfalso.
  all: try match goal with
       | E : (token _ =? 0) = false |- _ => rewrite T in E; discriminate E
       end.
  all: match goal with
       | E : (_ && ?x) = true |- _ =>
           lazymatch type of A with
           | ?y = false => constr_eq x y
           end;
           rewrite A, andb_false_r in E; discriminate E
       end.
Qed.

Lemma refusing_provider_blocks_settlement_witness :
  status (getInvoice
            (exec (mkMsg 21 0 3000) (ApproveInvoice 2)
                  (mkWorld 99 (store Scenario.paid2)
                           (mkChain (nativeBalance (chain Scenario.paid2))
                                    (tokenBalance (chain Scenario.paid2))
                                    (tokenAllowance (chain Scenario.paid2))
                                    (fun a => negb (a =? 20)))
                           (trace Scenario.paid2)))
            2)
  <> Completed.
Proof.
  apply refusing_provider_blocks_settlement.
  - vm_compute. reflexivity.
  - vm_compute. reflexivity.
  - vm_compute. discriminate.
Defined.

(** * The factory and the ledgers it deploys *)

Lemma exec_this (m : Msg) (c : Call) (w : World) :
  this (exec m c w) = this w.
Proof.
  unfold exec, after.
  destruct (dispatch m c w) as [[[] w']|e] eqn:H; [|reflexivity].
  open_named w. destruct m as [snd_ val now]. expand_all.
  destruct c; unfold dispatch, payable in H; unfold_calls H;
    unfold _releaseFunds in H.
  all: split_run H.
  all: injection H as <-; reflexivity.
Qed.

Lemma createInvoice_exec
    (m : Msg) (cl : address) (a : N) (t : address) (tm : PaymentTerms)
    (h : string) (w w' : World) (i : N) :
  value m = 0 ->
  createInvoice m cl a t tm h w = Ok (i, w') ->
  exec m (CreateInvoice cl a t tm h) w = w'.
Proof.
  intros V H.
  unfold exec, after, dispatch, payable, nonPayable, invoke, bind, ret.
  rewrite V. cbn. rewrite H. reflexivity.
Qed.

Lemma createInvoice_stored
    (m : Msg) (cl : address) (a : N) (t : address) (tm : PaymentTerms)
    (h : string) (w w' : World) (i : N) :
  createInvoice m cl a t tm h w = Ok (i, w') ->
  i = nextInvoiceId (store w) /\
  id (invoices (store w') i) = i /\
  provider (invoices (store w') i) = sender m /\
  client (invoices (store w') i) = cl /\
  status (invoices (store w') i) = Created /\
  cl <> sender m.
Proof.
  intros H. open_named w. destruct m as [snd_ val now].
  expand_goal. unfold createInvoice in H.
  split_run H.
  all: injection H as <- <-; expand_goal; rewrite ?upd_same.
  all: to_Prop; repeat split; try assumption.
Qed.

Lemma ledger_step_admin (m : Msg) (c : Call) (w : World) :
  sender m <> owner (store w) \/ is_owner_call c = false ->
  owner (store (exec m c w)) = owner (store w) /\
  paused (store (exec m c w)) = paused (store w) /\
  feeCollector (store (exec m c w)) = feeCollector (store w) /\
  forall t, supportedTokens (store (exec m c w)) t
            = supportedTokens (store w) t.
Proof.
  intros G.
  destruct (is_owner_call c) eqn:U.
  - destruct G as [O|G]; [|discriminate G].
    rewrite exec_unchanged; [repeat split|].
    intros w1 S. eexists. apply not_owner_error; [now rewrite S | exact U].
  - destruct (exec_admin_frame m c w) as (T & F & O & P).
    destruct c; try discriminate U.
    all: repeat split; intros;
      first [apply T | apply F | apply O | apply P]; intros; discriminate.
Qed.

Lemma exec_cancelled (m : Msg) (c : Call) (w : World) (i : N) :
  status (invoices (store (exec m c w)) i) = Cancelled ->
  status (invoices (store w) i) = Cancelled \/
  (c = CancelInvoice i /\ sender m = provider (invoices (store w) i)).
Proof.
  unfold exec, after.
  destruct (dispatch m c w) as [[[] w']|e] eqn:H; [|now left].
  open_named w. destruct m as [snd_ val now]. expand_all.
  destruct c; unfold dispatch, payable in H; unfold_calls H;
    unfold _releaseFunds in H.
  all: split_run H.
  all: injection H as <-; expand_goal; rewrite ?upd_same.
  all: drop_chain_facts; to_Prop.
  all: unfold upd.
  all: repeat match goal with
       | |- context [if ?a =? ?b then _ else _] =>
           destruct (N.eqb_spec a b); [subst|]
       end.
  all: expand_goal.
  all: try solve [intros X; discriminate X | intros X; left; exact X].
  all: intros _; right; split; reflexivity.
Qed.

Lemma worldAt_Some (p : InvoiceFactory.Platform) (a : address) (w : World) :
  InvoiceFactory.worldAt p a = Some w ->
  exists s, InvoiceFactory.escrowAt p a = Some s /\
            w = mkWorld a s (InvoiceFactory.ledgerChain p)
                        (InvoiceFactory.effects p).
Proof.
  unfold InvoiceFactory.worldAt.
  destruct (InvoiceFactory.escrowAt p a) as [s|]; [|discriminate].
  intros [= <-]. now exists s.
Qed.

Lemma with_world_managed
    (p : InvoiceFactory.Platform) (f : InvoiceFactory.FactoryStorage)
    (ev : list InvoiceFactory.FactoryEvent)
    (m : Msg) (c : Call) (a : address) (w : World) :
  InvoiceFactory.Managed p ->
  InvoiceFactory.worldAt p a = Some w ->
  sender m <> InvoiceFactory.factoryAddress p \/
  (is_owner_call c = false /\ forall j, c <> CancelInvoice j) ->
  InvoiceFactory.mainEscrowContract f
  = InvoiceFactory.mainEscrowContract (InvoiceFactory.fstore p) ->
  InvoiceFactory.feeCollector f
  = InvoiceFactory.feeCollector (InvoiceFactory.fstore p) ->
  InvoiceFactory.isValidInvoiceContract f
  = InvoiceFactory.isValidInvoiceContract (InvoiceFactory.fstore p) ->
  InvoiceFactory.allInvoiceContracts f
  = InvoiceFactory.allInvoiceContracts (InvoiceFactory.fstore p) ->
  (forall u i,
      In i (InvoiceFactory.userInvoices f u) ->
      InvoiceFactory.invoiceToContract f i
      = InvoiceFactory.mainEscrowContract f /\
      ((exists u', In i (InvoiceFactory.userInvoices
                           (InvoiceFactory.fstore p) u')) \/
       (a = InvoiceFactory.mainEscrowContract f /\
        id (invoices (store (exec m c w)) i) = i /\ i <> 0 /\
        provider (invoices (store (exec m c w)) i)
        = InvoiceFactory.factoryAddress p /\
        status (invoices (store (exec m c w)) i) <> Cancelled))) ->
  InvoiceFactory.Managed (InvoiceFactory.with_world p f ev (exec m c w)).
Proof.
  intros G W Who Fm Fc Fv Fa Ft.
  destruct (worldAt_Some _ _ _ W) as (s0 & E & ->).
  set (w := mkWorld a s0 (InvoiceFactory.ledgerChain p)
                    (InvoiceFactory.effects p)) in *.
  assert (Own : owner (store w) = InvoiceFactory.factoryAddress p)
    by (apply (InvoiceFactory.man_owner _ G a); exact E).
  assert (Who' : sender m <> owner (store w) \/ is_owner_call c = false)
    by (rewrite Own; tauto).
  destruct (ledger_step_admin m c w Who') as (So & Sp & Sf & St).
  assert (Cons : Consistent (store (exec m c w)))
    by (apply exec_consistent, (InvoiceFactory.man_consistent _ G a), E).
  assert (Look : forall b s,
             InvoiceFactory.escrowAt
               (InvoiceFactory.with_world p f ev (exec m c w)) b = Some s ->
             (b = a /\ s = store (exec m c w)) \/
             (b <> a /\ InvoiceFactory.escrowAt p b = Some s)).
  { intros b s. unfold InvoiceFactory.with_world.
    cbn [InvoiceFactory.escrowAt]. rewrite exec_this. cbn [this w].
    unfold upd. destruct (b =? a) eqn:B.
    - apply N.eqb_eq in B. intros [= <-]. now left.
    - apply N.eqb_neq in B. now right. }
  assert (Dom : forall b,
             InvoiceFactory.escrowAt
               (InvoiceFactory.with_world p f ev (exec m c w)) b <> None <->
             InvoiceFactory.escrowAt p b <> None).
  { intros b. unfold InvoiceFactory.with_world.
    cbn [InvoiceFactory.escrowAt]. rewrite exec_this. cbn [this w].
    unfold upd. destruct (b =? a) eqn:B; [|tauto].
    apply N.eqb_eq in B. subst b. rewrite E. split; discriminate. }
  constructor.
  - apply Dom. cbn [InvoiceFactory.with_world InvoiceFactory.fstore].
    rewrite Fm. apply (InvoiceFactory.man_main _ G).
  - intros b s L. destruct (Look b s L) as [[-> ->]|[_ L']].
    + rewrite So. exact Own.
    + apply (InvoiceFactory.man_owner _ G b s L').
  - intros b s L. destruct (Look b s L) as [[-> ->]|[_ L']].
    + rewrite Sp. apply (InvoiceFactory.man_unpaused _ G a s0 E).
    + apply (InvoiceFactory.man_unpaused _ G b s L').
  - intros b s L. cbn [InvoiceFactory.with_world InvoiceFactory.fstore].
    rewrite Fc. destruct (Look b s L) as [[-> ->]|[_ L']].
    + unfold ledgerFeeCollector. rewrite Sf.
      apply (InvoiceFactory.man_collector _ G a s0 E).
    + apply (InvoiceFactory.man_collector _ G b s L').
  - intros b s t L. destruct (Look b s L) as [[-> ->]|[_ L']].
    + rewrite St. apply (InvoiceFactory.man_tokens _ G a s0 t E).
    + apply (InvoiceFactory.man_tokens _ G b s t L').
  - intros b s L. destruct (Look b s L) as [[-> ->]|[_ L']].
    + exact Cons.
    + apply (InvoiceFactory.man_consistent _ G b s L').
  - intros b. rewrite Dom.
    cbn [InvoiceFactory.with_world InvoiceFactory.fstore]. rewrite Fv.
    apply (InvoiceFactory.man_valid _ G).
  - intros b. rewrite Dom.
    cbn [InvoiceFactory.with_world InvoiceFactory.fstore]. rewrite Fa.
    apply (InvoiceFactory.man_listed _ G).
  - cbn [InvoiceFactory.with_world InvoiceFactory.fstore]. rewrite Fa.
    apply (InvoiceFactory.man_distinct _ G).
  - intros u i I. cbn [InvoiceFactory.with_world InvoiceFactory.fstore] in *.
    destruct (Ft u i I) as (To & Old). split; [exact To|].
    unfold InvoiceFactory.with_world. cbn [InvoiceFactory.escrowAt
      InvoiceFactory.factoryAddress].
    rewrite exec_this. cbn [this w]. unfold upd.
    destruct Old as [(u' & I') | (-> & Id & Nz & Pr & Nc)].
    + destruct (InvoiceFactory.man_tracked _ G u' i I')
        as (_ & s & L & Id & Nz & Pr & Nc).
      rewrite Fm.
      destruct (InvoiceFactory.mainEscrowContract (InvoiceFactory.fstore p)
                =? a) eqn:B.
      * apply N.eqb_eq in B. rewrite B in L. rewrite E in L.
        injection L as <-.
        exists (store (exec m c w)). split; [reflexivity|].
        assert (Known : id (invoices (store w) i) <> 0)
          by (cbn [store w]; rewrite Id; exact Nz).
        destruct (exec_invoice_step m c w i
                    (InvoiceFactory.man_consistent _ G a s0 E))
          as (Keep & _).
        destruct (Keep Known) as (K1 & K2 & _).
        rewrite K1, K2. cbn [store w]. repeat split; try assumption.
        intros X. apply exec_cancelled in X. cbn [store w] in X.
        destruct X as [X|[-> X]]; [now apply Nc|].
        rewrite Pr in X. destruct Who as [Who|[_ Who]].
        -- now apply Who.
        -- now apply (Who i).
      * exists s. repeat split; assumption.
    + rewrite N.eqb_refl. exists (store (exec m c w)).
      repeat split; assumption.
Qed.

Lemma initialStorage_tokens (deployer fc t : address) :
  supportedTokens (initialStorage deployer fc) t
  = (t =? usdcAddressTestnet) || (t =? 0).
Proof.
  unfold initialStorage, upd. cbn [supportedTokens].
  destruct (t =? usdcAddressTestnet), (t =? 0); reflexivity.
Qed.

Lemma construct_managed (self main fc : address) (c : Chain)
      (p : InvoiceFactory.Platform) :
  InvoiceFactory.construct self main fc c = Ok p ->
  InvoiceFactory.Managed p.
Proof.
  unfold InvoiceFactory.construct, deploy.
  destruct (fc =? 0) eqn:F; [discriminate|].
  destruct (self =? 0); [discriminate|].
  intros [= <-].
  assert (Look : forall b s,
             upd (fun _ : N => @None Storage) main
                 (Some (initialStorage self fc)) b = Some s ->
             s = initialStorage self fc).
  { intros b s. unfold upd. destruct (b =? main); [|discriminate].
    now intros [= <-]. }
  constructor; cbn [InvoiceFactory.escrowAt InvoiceFactory.fstore
                    InvoiceFactory.factoryAddress store
                    InvoiceFactory.mainEscrowContract
                    InvoiceFactory.feeCollector
                    InvoiceFactory.isValidInvoiceContract
                    InvoiceFactory.allInvoiceContracts
                    InvoiceFactory.userInvoices].
  - rewrite upd_same. discriminate.
  - intros b s L. now rewrite (Look b s L).
  - intros b s L. now rewrite (Look b s L).
  - intros b s L. now rewrite (Look b s L).
  - intros b s t L. rewrite (Look b s L). apply initialStorage_tokens.
  - intros b s L. rewrite (Look b s L). apply initialStorage_consistent.
  - intros b. unfold upd. destruct (b =? main); split;
      try discriminate; intros X; try reflexivity; now elim X.
  - intros b. unfold upd. destruct (b =? main) eqn:B; split.
    + discriminate.
    + intros _. apply N.eqb_eq in B. now left.
    + intros [X|[]]. symmetry in X. apply N.eqb_eq in X. congruence.
    + intros X. now elim X.
  - repeat constructor. intros [].
  - intros u i [].
Qed.

Lemma factory_createInvoice_run
    (m : Msg) (cl : address) (a : N) (t : address) (tm : PaymentTerms)
    (h : string) (p p' : InvoiceFactory.Platform) (i : N) :
  InvoiceFactory.createInvoice m cl a t tm h p = Ok (i, p') ->
  exists w w',
    InvoiceFactory.worldAt
      p (InvoiceFactory.mainEscrowContract (InvoiceFactory.fstore p))
    = Some w /\
    createInvoice (mkMsg (InvoiceFactory.factoryAddress p) 0 (timestamp m))
                  cl a t tm h w = Ok (i, w') /\
    InvoiceFactory.totalInvoicesCreated (InvoiceFactory.fstore p) + 1
    <= MAX_UINT256 /\
    p' = InvoiceFactory.with_world p
           (InvoiceFactory.mkFactoryStorage
              (InvoiceFactory.mainEscrowContract (InvoiceFactory.fstore p))
              (InvoiceFactory.feeCollector (InvoiceFactory.fstore p))
              (InvoiceFactory.totalInvoicesCreated (InvoiceFactory.fstore p)
               + 1)
              (InvoiceFactory.isValidInvoiceContract
                 (InvoiceFactory.fstore p))
              (upd (InvoiceFactory.userInvoices (InvoiceFactory.fstore p))
                   (sender m)
                   (InvoiceFactory.userInvoices (InvoiceFactory.fstore p)
                                                (sender m) ++ [i]))
              (upd (InvoiceFactory.invoiceToContract
                      (InvoiceFactory.fstore p)) i
                   (InvoiceFactory.mainEscrowContract
                      (InvoiceFactory.fstore p)))
              (InvoiceFactory.allInvoiceContracts (InvoiceFactory.fstore p)))
           [InvoiceFactory.InvoiceCreatedViaFactory
              (InvoiceFactory.mainEscrowContract (InvoiceFactory.fstore p))
              i (sender m) cl]
           w'.
Proof.
  unfold InvoiceFactory.createInvoice.
  destruct (InvoiceFactory.worldAt p _) as [w|]; [|discriminate].
  destruct (createInvoice _ cl a t tm h w) as [[i' w']|e] eqn:R;
    [|discriminate].
  destruct (_ <=? MAX_UINT256) eqn:L; [|discriminate].
  intros [= <- <-]. exists w, w'. apply N.leb_le in L.
  repeat split; assumption.
Qed.

Lemma createInvoice_managed
    (m : Msg) (cl : address) (a : N) (t : address) (tm : PaymentTerms)
    (h : string) (p p' : InvoiceFactory.Platform) (i : N) :
  InvoiceFactory.Managed p ->
  InvoiceFactory.createInvoice m cl a t tm h p = Ok (i, p') ->
  InvoiceFactory.Managed p'.
Proof.
  intros G H.
  destruct (factory_createInvoice_run _ _ _ _ _ _ _ _ _ H)
    as (w & w' & W & R & _ & ->).
  destruct (createInvoice_stored _ _ _ _ _ _ _ _ _ R)
    as (Nx & Id & Pr & _ & St & _).
  cbn [sender] in Pr.
  rewrite <- (createInvoice_exec
                (mkMsg (InvoiceFactory.factoryAddress p) 0 (timestamp m))
                _ _ _ _ _ _ _ _ eq_refl R) in *.
  destruct (worldAt_Some _ _ _ W) as (s0 & E & Ew).
  assert (Nz : i <> 0).
  { pose proof (cons_next _ (InvoiceFactory.man_consistent _ G _ _ E)).
    rewrite Nx, Ew. cbn [store]. lia. }
  eapply with_world_managed; try eassumption; try reflexivity.
  - right. split; [reflexivity | discriminate].
  - intros u j. cbn [InvoiceFactory.userInvoices
                     InvoiceFactory.invoiceToContract
                     InvoiceFactory.mainEscrowContract].
    unfold upd. intros I.
    assert (Old : forall u', In j (InvoiceFactory.userInvoices
                                     (InvoiceFactory.fstore p) u') ->
                  (if j =? i
                   then InvoiceFactory.mainEscrowContract
                          (InvoiceFactory.fstore p)
                   else InvoiceFactory.invoiceToContract
                          (InvoiceFactory.fstore p) j)
                  = InvoiceFactory.mainEscrowContract
                      (InvoiceFactory.fstore p)).
    { intros u' I'. destruct (j =? i); [reflexivity|].
      apply (InvoiceFactory.man_tracked _ G u' j I'). }
    destruct (u =? sender m).
    + apply in_app_or in I. destruct I as [I|[<-|[]]].
      * split; [now apply (Old (sender m))|]. left. now exists (sender m).
      * rewrite N.eqb_refl. split; [reflexivity|]. right.
        repeat split; try assumption. rewrite St. discriminate.
    + split; [now apply (Old u)|]. left. now exists u.
Qed.

Lemma deployNewInvoiceContract_managed
    (m : Msg) (fresh a : address) (p p' : InvoiceFactory.Platform) :
  InvoiceFactory.Managed p ->
  InvoiceFactory.deployNewInvoiceContract m fresh p = Ok (a, p') ->
  InvoiceFactory.Managed p'.
Proof.
  intros G. unfold InvoiceFactory.deployNewInvoiceContract, deploy.
  destruct (InvoiceFactory.escrowAt p fresh) eqn:E; [discriminate|].
  destruct (InvoiceFactory.factoryAddress p =? 0); [discriminate|].
  destruct (InvoiceFactory.feeCollector _ =? 0); [discriminate|].
  intros [= <- <-].
  assert (Main : InvoiceFactory.mainEscrowContract (InvoiceFactory.fstore p)
                 <> fresh).
  { intros X. apply (InvoiceFactory.man_main _ G). now rewrite X. }
  assert (Look : forall b s,
             upd (InvoiceFactory.escrowAt p) fresh
                 (Some (initialStorage (InvoiceFactory.factoryAddress p)
                          (InvoiceFactory.feeCollector
                             (InvoiceFactory.fstore p)))) b = Some s ->
             s = initialStorage (InvoiceFactory.factoryAddress p)
                   (InvoiceFactory.feeCollector (InvoiceFactory.fstore p))
             \/ InvoiceFactory.escrowAt p b = Some s).
  { intros b s. unfold upd. destruct (b =? fresh); [|now right].
    intros [= <-]. now left. }
  constructor; cbn [InvoiceFactory.escrowAt InvoiceFactory.fstore
                    InvoiceFactory.factoryAddress store
                    InvoiceFactory.mainEscrowContract
                    InvoiceFactory.feeCollector
                    InvoiceFactory.isValidInvoiceContract
                    InvoiceFactory.allInvoiceContracts
                    InvoiceFactory.userInvoices
                    InvoiceFactory.invoiceToContract].
  - rewrite upd_other by exact Main. apply (InvoiceFactory.man_main _ G).
  - intros b s L. destruct (Look b s L) as [->|L']; [reflexivity|].
    apply (InvoiceFactory.man_owner _ G b s L').
  - intros b s L. destruct (Look b s L) as [->|L']; [reflexivity|].
    apply (InvoiceFactory.man_unpaused _ G b s L').
  - intros b s L. destruct (Look b s L) as [->|L']; [reflexivity|].
    apply (InvoiceFactory.man_collector _ G b s L').
  - intros b s t L.
    destruct (Look b s L) as [->|L']; [apply initialStorage_tokens|].
    apply (InvoiceFactory.man_tokens _ G b s t L').
  - intros b s L. destruct (Look b s L) as [->|L'].
    + apply initialStorage_consistent.
    + apply (InvoiceFactory.man_consistent _ G b s L').
  - intros b. unfold upd. destruct (b =? fresh).
    + split; [discriminate | reflexivity].
    + apply (InvoiceFactory.man_valid _ G).
  - intros b. rewrite in_app_iff. unfold upd.
    destruct (b =? fresh) eqn:B.
    + apply N.eqb_eq in B. split; [discriminate|]. intros _. right.
      now left.
    + apply N.eqb_neq in B.
      rewrite <- (InvoiceFactory.man_listed _ G b). split; [|now left].
      intros [I|[X|[]]]; [exact I | congruence].
  - apply NoDup_snoc; [apply (InvoiceFactory.man_distinct _ G)|].
    intros I. apply (InvoiceFactory.man_listed _ G) in I. now apply I.
  - intros u i I. rewrite upd_other by exact Main.
    apply (InvoiceFactory.man_tracked _ G u i I).
Qed.

Lemma callEscrow_managed
    (m : Msg) (a : address) (c : Call) (p : InvoiceFactory.Platform) :
  InvoiceFactory.Managed p ->
  sender m <> InvoiceFactory.factoryAddress p ->
  InvoiceFactory.Managed (InvoiceFactory.callEscrow m a c p).
Proof.
  intros G O. unfold InvoiceFactory.callEscrow.
  destruct (InvoiceFactory.worldAt p a) as [w|] eqn:W; [|exact G].
  eapply with_world_managed; try eassumption; try reflexivity.
  - now left.
  - intros u i I. split.
    + apply (InvoiceFactory.man_tracked _ G u i I).
    + left. now exists u.
Qed.

Lemma platform_reachable_managed (p : InvoiceFactory.Platform) :
  InvoiceFactory.platform_reachable p -> InvoiceFactory.Managed p.
Proof.
  intros R.
  induction R as [self main fc c p D | p m cl a t tm h i p' _ IH H
                  | p m fresh a p' _ IH H | p m a c _ IH O].
  - eapply construct_managed; eassumption.
  - eapply createInvoice_managed; eassumption.
  - eapply deployNewInvoiceContract_managed; eassumption.
  - now apply callEscrow_managed.
Qed.

Lemma factory_genesis_reachable :
  InvoiceFactory.platform_reachable FactoryScenario.genesis.
Proof.
  apply (InvoiceFactory.reach_construct 50 99 11 FactoryScenario.chain0).
  reflexivity.
Qed.

Lemma factory_created1_reachable :
  InvoiceFactory.platform_reachable FactoryScenario.created1.
Proof.
  eapply (InvoiceFactory.reach_create FactoryScenario.genesis
            (mkMsg 20 0 1000) 21 1000 0 Scenario.terms2 "Qm1" 1).
  - exact factory_genesis_reachable.
  - vm_compute. reflexivity.
Qed.

Lemma factory_second_reachable :
  InvoiceFactory.platform_reachable FactoryScenario.second.
Proof.
  eapply (InvoiceFactory.reach_deployNew FactoryScenario.created1
            (mkMsg 22 0 1500) 98 98).
  - exact factory_created1_reachable.
  - vm_compute. reflexivity.
Qed.

Lemma factory_paid1_reachable :
  InvoiceFactory.platform_reachable FactoryScenario.paid1.
Proof.
  apply InvoiceFactory.reach_callEscrow.
  - exact factory_second_reachable.
  - vm_compute. discriminate.
Qed.

(** X26. A successful [createInvoice] of the factory stores the invoice on
    the main ledger with the factory itself, not the calling user, as
    provider, and with the requested client, who therefore differs from the
    factory; it appends the new id to the caller's list and to no other,
    maps the id to the main ledger, counts one more invoice and logs
    [InvoiceCreatedViaFactory]. *)
Theorem factory_createInvoice_records
    (m : Msg) (cl : address) (a : N) (t : address) (tm : PaymentTerms)
    (h : string) (p p' : InvoiceFactory.Platform) (i : N) :
  InvoiceFactory.createInvoice m cl a t tm h p = Ok (i, p') ->
  let main := InvoiceFactory.mainEscrowContract (InvoiceFactory.fstore p) in
  (exists w', InvoiceFactory.worldAt p' main = Some w' /\
              id (getInvoice w' i) = i /\
              provider (getInvoice w' i) = InvoiceFactory.factoryAddress p /\
              client (getInvoice w' i) = cl /\
              status (getInvoice w' i) = Created) /\
  cl <> InvoiceFactory.factoryAddress p /\
  InvoiceFactory.getUserInvoices p' (sender m)
  = InvoiceFactory.getUserInvoices p (sender m) ++ [i] /\
  (forall u, u <> sender m ->
             InvoiceFactory.getUserInvoices p' u
             = InvoiceFactory.getUserInvoices p u) /\
  InvoiceFactory.getInvoiceContract p' i = main /\
  InvoiceFactory.getPlatformStats p'
  = (InvoiceFactory.getContractCount p,
     InvoiceFactory.totalInvoicesCreated (InvoiceFactory.fstore p) + 1,
     main) /\
  InvoiceFactory.fevents p'
  = InvoiceFactory.fevents p
    ++ [InvoiceFactory.InvoiceCreatedViaFactory main i (sender m) cl].
Proof.
  intros H main.
  destruct (factory_createInvoice_run _ _ _ _ _ _ _ _ _ H)
    as (w & w' & W & R & _ & ->).
  destruct (createInvoice_stored _ _ _ _ _ _ _ _ _ R)
    as (_ & Id & Pr & Cl & St & Ne).
  cbn [sender] in Pr, Ne.
  assert (T : this w' = main).
  { rewrite <- (createInvoice_exec
                  (mkMsg (InvoiceFactory.factoryAddress p) 0 (timestamp m))
                  _ _ _ _ _ _ _ _ eq_refl R).
    rewrite exec_this.
    destruct (worldAt_Some _ _ _ W) as (s0 & _ & ->). reflexivity. }
  unfold InvoiceFactory.getUserInvoices, InvoiceFactory.getInvoiceContract,
    InvoiceFactory.getPlatformStats, InvoiceFactory.getContractCount,
    InvoiceFactory.worldAt, InvoiceFactory.with_world, getInvoice.
  cbn [InvoiceFactory.escrowAt InvoiceFactory.fstore
       InvoiceFactory.userInvoices InvoiceFactory.invoiceToContract
       InvoiceFactory.allInvoiceContracts InvoiceFactory.fevents
       InvoiceFactory.totalInvoicesCreated InvoiceFactory.mainEscrowContract
       InvoiceFactory.ledgerChain InvoiceFactory.effects].
  rewrite T, !upd_same.
  split; [|split; [exact Ne|]].
  - eexists. split; [reflexivity|]. cbn [store]. repeat split; assumption.
  - repeat split. intros u U. now apply upd_other.
Qed.

Lemma factory_createInvoice_records_witness :
  InvoiceFactory.getUserInvoices FactoryScenario.created1 20 = [1] /\
  InvoiceFactory.getInvoiceContract FactoryScenario.created1 1 = 99.
Proof.
  destruct (factory_createInvoice_records
              (mkMsg 20 0 1000) 21 1000 0 Scenario.terms2 "Qm1"
              FactoryScenario.genesis FactoryScenario.created1 1)
    as (_ & _ & U & _ & C & _).
  - vm_compute. reflexivity.
  - split; [exact U | exact C].
Defined.

(** X27. No ledger deployed by the factory has an administrator anyone can
    act as: in every state of the platform its owner is the factory, which
    calls none of the administrative functions, so each of them rejects
    every other caller; the ledger is not paused, its fee collector is the
    factory's, and it supports exactly the native asset and the preset USDC
    token. *)
Theorem factory_ledgers_have_no_administrator
    (p : InvoiceFactory.Platform) (a : address) (w : World) :
  InvoiceFactory.platform_reachable p ->
  InvoiceFactory.worldAt p a = Some w ->
  owner (store w) = InvoiceFactory.factoryAddress p /\
  paused (store w) = false /\
  feeCollector (store w)
  = InvoiceFactory.feeCollector (InvoiceFactory.fstore p) /\
  (forall t, supportedTokens (store w) t = true <->
             t = 0 \/ t = usdcAddressTestnet) /\
  forall m c, sender m <> InvoiceFactory.factoryAddress p ->
              is_owner_call c = true ->
              invoke m c w = Err (OwnableUnauthorizedAccount (sender m)) /\
              exec m c w = w.
Proof.
  intros R W. apply platform_reachable_managed in R.
  destruct (worldAt_Some _ _ _ W) as (s & E & ->). cbn [store].
  pose proof (InvoiceFactory.man_owner _ R a s E) as O.
  split; [exact O|].
  split; [apply (InvoiceFactory.man_unpaused _ R a s E)|].
  split; [apply (InvoiceFactory.man_collector _ R a s E)|].
  split.
  - intros t. rewrite (InvoiceFactory.man_tokens _ R a s t E).
    rewrite orb_true_iff, !N.eqb_eq. tauto.
  - intros m c S U. split.
    + apply not_owner_error; [cbn [store]; now rewrite O | exact U].
    + apply exec_unchanged. intros w1 S1. eexists.
      apply not_owner_error; [rewrite S1; cbn [store]; now rewrite O
                             | exact U].
Qed.

Lemma factory_ledgers_have_no_administrator_witness :
  exec (mkMsg 22 0 3000) Pause
       (mkWorld 98 (initialStorage 50 11)
                (InvoiceFactory.ledgerChain FactoryScenario.paid1)
                (InvoiceFactory.effects FactoryScenario.paid1))
  = mkWorld 98 (initialStorage 50 11)
            (InvoiceFactory.ledgerChain FactoryScenario.paid1)
            (InvoiceFactory.effects FactoryScenario.paid1).
Proof.
  destruct (factory_ledgers_have_no_administrator
              FactoryScenario.paid1 98
              (mkWorld 98 (initialStorage 50 11)
                       (InvoiceFactory.ledgerChain FactoryScenario.paid1)
                       (InvoiceFactory.effects FactoryScenario.paid1)))
    as (_ & _ & _ & _ & A).
  - exact factory_paid1_reachable.
  - vm_compute. reflexivity.
  - apply (A (mkMsg 22 0 3000) Pause).
    + vm_compute. discriminate.
    + reflexivity.
Defined.

(** X28. The registry of the factory is exact: in every state of the
    platform an address is flagged valid if and only if it is in the list of
    deployed contracts, if and only if the factory deployed a ledger there;
    the list has no duplicates, and the main ledger is always in it. *)
Theorem factory_registry_is_exact
    (p : InvoiceFactory.Platform) (a : address) :
  InvoiceFactory.platform_reachable p ->
  (InvoiceFactory.isValidContract p a = true <->
   In a (InvoiceFactory.allInvoiceContracts (InvoiceFactory.fstore p))) /\
  (InvoiceFactory.isValidContract p a = true <->
   InvoiceFactory.escrowAt p a <> None) /\
  NoDup (InvoiceFactory.allInvoiceContracts (InvoiceFactory.fstore p)) /\
  InvoiceFactory.isValidContract
    p (InvoiceFactory.mainEscrowContract (InvoiceFactory.fstore p)) = true /\
  1 <= InvoiceFactory.getContractCount p.
Proof.
  intros R. apply platform_reachable_managed in R.
  unfold InvoiceFactory.isValidContract, InvoiceFactory.getContractCount.
  pose proof (InvoiceFactory.man_main _ R) as M.
  split; [|split; [|split; [|split]]].
  - rewrite (InvoiceFactory.man_valid _ R), (InvoiceFactory.man_listed _ R).
    tauto.
  - apply (InvoiceFactory.man_valid _ R).
  - apply (InvoiceFactory.man_distinct _ R).
  - now apply (InvoiceFactory.man_valid _ R).
  - apply (InvoiceFactory.man_listed _ R) in M.
    destruct (InvoiceFactory.allInvoiceContracts (InvoiceFactory.fstore p));
      [destruct M|].
    cbn [List.length]. lia.
Qed.

Lemma factory_registry_is_exact_witness :
  NoDup (InvoiceFactory.allInvoiceContracts
           (InvoiceFactory.fstore FactoryScenario.paid1)) /\
  1 <= InvoiceFactory.getContractCount FactoryScenario.paid1.
Proof.
  destruct (factory_registry_is_exact FactoryScenario.paid1 98)
    as (_ & _ & D & _ & C).
  - exact factory_paid1_reachable.
  - split; [exact D | exact C].
Defined.

(** X29. Every invoice id the factory lists for a user is mapped to the
    main ledger and names an invoice stored there whose provider is the
    factory; as only the provider can cancel and the factory never does,
    such an invoice is never cancelled, and [cancelInvoice] rejects every
    caller other than the factory. *)
Theorem factory_invoices_cannot_be_cancelled
    (p : InvoiceFactory.Platform) (u : address) (i : N) :
  InvoiceFactory.platform_reachable p ->
  In i (InvoiceFactory.getUserInvoices p u) ->
  InvoiceFactory.getInvoiceContract p i
  = InvoiceFactory.mainEscrowContract (InvoiceFactory.fstore p) /\
  exists w,
    InvoiceFactory.worldAt
      p (InvoiceFactory.mainEscrowContract (InvoiceFactory.fstore p))
    = Some w /\
    id (getInvoice w i) = i /\
    provider (getInvoice w i) = InvoiceFactory.factoryAddress p /\
    status (getInvoice w i) <> Cancelled /\
    forall m, sender m <> InvoiceFactory.factoryAddress p ->
              cancelInvoice m i w
              = Err (Revert "Only provider can call this").
Proof.
  intros R I. apply platform_reachable_managed in R.
  destruct (InvoiceFactory.man_tracked _ R u i I)
    as (To & s & E & Id & Nz & Pr & Nc).
  split; [exact To|].
  unfold InvoiceFactory.worldAt. rewrite E. eexists.
  split; [reflexivity|]. unfold getInvoice. cbn [store].
  repeat split; try assumption.
  intros m S.
  apply (wrong_caller_error m (CancelInvoice i) i).
  - apply (InvoiceFactory.man_unpaused _ R _ s E).
  - apply (cons_entered _ (InvoiceFactory.man_consistent _ R _ s E)).
  - cbn [store]. now rewrite Id.
  - cbn [is_lifecycle_on]. apply N.eqb_refl.
  - cbn [has_role store]. rewrite Pr. apply N.eqb_neq.
    intros X. now apply S.
Qed.

Lemma factory_invoices_cannot_be_cancelled_witness :
  InvoiceFactory.getInvoiceContract FactoryScenario.paid1 1 = 99.
Proof.
  destruct (factory_invoices_cannot_be_cancelled FactoryScenario.paid1 20 1)
    as (C & _).
  - exact factory_paid1_reachable.
  - vm_compute. now left.
  - exact C.
Defined.
